(** * funee: bundler core and standard-library helpers

    A shallow embedding of the parts of the funee repository that its
    specification makes claims about.

    - [Base64], [CryptoRandom] and [Memoize] are translated from the
      TypeScript sources of the standard library
      (filesystem/readFileBinary.ts, random/cryptoRandomString.ts,
      memoize/memoizeInFS.ts).
    - The bundler core itself (fetcher, macro engine, tree shaker,
      emitter) is not part of the available sources; the modules below
      that describe it are modelled from the specification and say so. *)

From Stdlib Require Import ZArith NArith Ascii String Bool Lia.
From Stdlib.Strings Require Import Byte.
From stdpp Require Import base list strings gmap pretty.

#[local] Set Warnings "-register-all".

Open Scope string_scope.
Open Scope Z_scope.

(* ===================================================================== *)
(** ** JavaScript strings and typed arrays *)
(* ===================================================================== *)

Module JS.

(** [s[i]] on a string: a one-character string, or [undefined]. *)
Definition str_index (s : string) (i : nat) : option ascii := String.get i s.

(** [s.charCodeAt(i)]: the code unit, or NaN ([None]) out of range. *)
Definition charCodeAt (s : string) (i : nat) : option Z :=
  match String.get i s with
  | Some c => Some (Z.of_N (N_of_ascii c))
  | None => None
  end.

(** [result += s[i]]: appending [undefined] appends its rendering. *)
Definition append_index (result : string) (s : string) (i : Z) : string :=
  match (if 0 <=? i then str_index s (Z.to_nat i) else None) with
  | Some c => result +:+ String c EmptyString
  | None => result +:+ "undefined"
  end.

(** A [Uint8Array] is a list of bytes; reading [a[i]] out of range gives
    [undefined], which every bit operator coerces to 0. *)
Definition u8_get (a : list byte) (i : nat) : Z :=
  match a !! i with
  | Some b => Z.of_N (Byte.to_N b)
  | None => 0
  end.

(** Storing a number into a [Uint8Array] keeps its low 8 bits. *)
Definition to_u8 (v : Z) : byte :=
  match Byte.of_N (Z.to_N (v mod 256)) with
  | Some b => b
  | None => x00
  end.

(** [a[p] = v] on a [Uint8Array]: an out-of-range store is ignored, which
    is what stdpp's list insert does. *)
Definition u8_set (a : list byte) (p : nat) (v : Z) : list byte :=
  <[p := to_u8 v]> a.

(** [new Uint8Array(n)]: [n] zero bytes. *)
Definition u8_new (n : nat) : list byte := replicate n x00.

(** [table[code]] for a code that may be NaN: [undefined] becomes 0 under
    the bit operators. *)
Definition u8_get_opt (a : list byte) (code : option Z) : Z :=
  match code with
  | Some c => if 0 <=? c then u8_get a (Z.to_nat c) else 0
  | None => 0
  end.

#[global] Instance byte_eq_dec : EqDecision byte := Byte.byte_eq_dec.

(** The 256 values of a [Uint8Array] element. *)
Definition all_bytes : list byte :=
  omap (fun n => Byte.of_N (N.of_nat n)) (seq 0 256).

End JS.

(* ===================================================================== *)
(** ** filesystem/readFileBinary.ts: base64Encode and base64Decode *)
(* ===================================================================== *)

Module Base64.
Import JS.

Definition BASE64_CHARS : string :=
  "ABCDEFGHIJKLMNOPQRSTUVWXYZabcdefghijklmnopqrstuvwxyz0123456789+/".

(** One iteration of the [for (let i = 0; i < len; i += 3)] loop of
    [base64Encode], and the loop itself; [fuel] bounds the number of
    iterations. *)
Definition encode_step (bytes : list byte) (len i : nat) (result : string)
  : string :=
  let b1 := u8_get bytes i in
  let b2 := if (i + 1 <? len)%nat then u8_get bytes (i + 1) else 0 in
  let b3 := if (i + 2 <? len)%nat then u8_get bytes (i + 2) else 0 in
  let result := append_index result BASE64_CHARS (Z.shiftr b1 2) in
  let result :=
    append_index result BASE64_CHARS
      (Z.lor (Z.shiftl (Z.land b1 3) 4) (Z.shiftr b2 4)) in
  let result :=
    if (i + 1 <? len)%nat
    then append_index result BASE64_CHARS
           (Z.lor (Z.shiftl (Z.land b2 15) 2) (Z.shiftr b3 6))
    else result +:+ "=" in
  let result :=
    if (i + 2 <? len)%nat
    then append_index result BASE64_CHARS (Z.land b3 63)
    else result +:+ "=" in
  result.

Fixpoint encode_loop (fuel : nat) (bytes : list byte) (len i : nat)
  (result : string) : string :=
  match fuel with
  | O => result
  | S fuel' =>
      if (i <? len)%nat
      then encode_loop fuel' bytes len (i + 3)
             (encode_step bytes len i result)
      else result
  end.

Definition base64Encode (bytes : list byte) : string :=
  let len := length bytes in
  encode_loop len bytes len 0 EmptyString.

(** The lookup table built by the first loop of [base64Decode]:
    [lookup[BASE64_CHARS.charCodeAt(i)] = i] for every [i]. *)
Fixpoint build_lookup (n : nat) (i : nat) (lookup : list byte) : list byte :=
  match n with
  | O => lookup
  | S n' =>
      let lookup :=
        match charCodeAt BASE64_CHARS i with
        | Some code => u8_set lookup (Z.to_nat code) (Z.of_nat i)
        | None => lookup
        end in
      build_lookup n' (S i) lookup
  end.

Definition lookup_table : list byte :=
  build_lookup (String.length BASE64_CHARS) 0 (u8_new 256).

(** [if (base64[len - 1] === "=") len--;] *)
Definition strip_pad (base64 : string) (len : nat) : nat :=
  match len with
  | O => len
  | S k =>
      match str_index base64 k with
      | Some c => if Ascii.eqb c "="%char then k else len
      | None => len
      end
  end.

(** State of the decoding loop: the index [i], the write position [p] and
    the output array. *)
Record dstate := { d_i : nat; d_p : nat; d_bytes : list byte }.

Definition decode_step (lookup : list byte) (base64 : string) (len : nat)
  (st : dstate) : dstate :=
  let i := d_i st in
  let c1 := u8_get_opt lookup (charCodeAt base64 i) in
  let i := S i in
  let c2 := u8_get_opt lookup (charCodeAt base64 i) in
  let i := S i in
  let c3 := u8_get_opt lookup (charCodeAt base64 i) in
  let i := S i in
  let c4 := u8_get_opt lookup (charCodeAt base64 i) in
  let i := S i in
  let p := d_p st in
  let bytes := u8_set (d_bytes st) p (Z.lor (Z.shiftl c1 2) (Z.shiftr c2 4)) in
  let p := S p in
  let '(bytes, p) :=
    if (i - 1 <? len)%nat
    then (u8_set bytes p (Z.lor (Z.shiftl (Z.land c2 15) 4) (Z.shiftr c3 2)),
          S p)
    else (bytes, p) in
  let '(bytes, p) :=
    if (i <? len)%nat
    then (u8_set bytes p (Z.lor (Z.shiftl (Z.land c3 3) 6) c4), S p)
    else (bytes, p) in
  {| d_i := i; d_p := p; d_bytes := bytes |}.

Fixpoint decode_loop (fuel : nat) (lookup : list byte) (base64 : string)
  (len : nat) (st : dstate) : dstate :=
  match fuel with
  | O => st
  | S fuel' =>
      if (d_i st <? len)%nat
      then decode_loop fuel' lookup base64 len
             (decode_step lookup base64 len st)
      else st
  end.

Definition base64Decode (base64 : string) : list byte :=
  let lookup := lookup_table in
  let len := String.length base64 in
  let len := strip_pad base64 len in
  let len := strip_pad base64 len in
  let bytes := u8_new (len * 3 / 4)%nat in
  let st :=
    decode_loop len lookup base64 len
      {| d_i := 0; d_p := 0; d_bytes := bytes |} in
  take (d_p st) (d_bytes st).

(** *** The encoder, one group at a time

    What the loop of [base64Encode] appends for one group of up to three
    bytes, used to state what the two loops compute. *)

Definition byteZ (b : byte) : Z := Z.of_N (Byte.to_N b).

Definition sextet1 (b1 : Z) : Z := Z.shiftr b1 2.
Definition sextet2 (b1 b2 : Z) : Z :=
  Z.lor (Z.shiftl (Z.land b1 3) 4) (Z.shiftr b2 4).
Definition sextet3 (b2 b3 : Z) : Z :=
  Z.lor (Z.shiftl (Z.land b2 15) 2) (Z.shiftr b3 6).
Definition sextet4 (b3 : Z) : Z := Z.land b3 63.

Definition b64char (k : Z) : ascii :=
  match String.get (Z.to_nat k) BASE64_CHARS with
  | Some c => c
  | None => "?"%char
  end.

Definition encode_group (b1 : byte) (b2 b3 : option byte) : string :=
  let z1 := byteZ b1 in
  let z2 := from_option byteZ 0 b2 in
  let z3 := from_option byteZ 0 b3 in
  String (b64char (sextet1 z1))
    (String (b64char (sextet2 z1 z2))
       (String (match b2 with
                | Some _ => b64char (sextet3 z2 z3)
                | None => "="%char
                end)
          (String (match b3 with
                   | Some _ => b64char (sextet4 z3)
                   | None => "="%char
                   end) EmptyString))).

Fixpoint encode_groups (bytes : list byte) : string :=
  match bytes with
  | [] => EmptyString
  | [b1] => encode_group b1 None None
  | [b1; b2] => encode_group b1 (Some b2) None
  | b1 :: b2 :: b3 :: rest =>
      encode_group b1 (Some b2) (Some b3) +:+ encode_groups rest
  end.

(** What the lookup table of the decoder holds for a character. *)
Definition lookup_char (c : ascii) : Z :=
  u8_get_opt lookup_table (Some (Z.of_N (N_of_ascii c))).

(** The length of the encoding of [n] bytes once its padding is stripped. *)
Fixpoint stripped_length (n : nat) : nat :=
  match n with
  | O => O
  | S O => 2%nat
  | S (S O) => 3%nat
  | S (S (S k)) => (4 + stripped_length k)%nat
  end.

(** How many bytes of an [n]-byte array [base64Decode] gives back after
    [base64Encode]: all of them when the last group holds one byte, one
    less otherwise. *)
Definition kept (n : nat) : nat :=
  if (n mod 3 =? 1)%nat then n else (n - 1)%nat.


(** *** The shape of an encoding and the size of a decoding *)

(** The characters of the alphabet; the padding sign is not one of them. *)
Definition is_base64_char (c : ascii) : bool :=
  existsb (Ascii.eqb c) (list_ascii_of_string BASE64_CHARS).

(** The padding the encoder puts after the last group of [n] bytes. *)
Definition padding (n : nat) : string :=
  match (n mod 3)%nat with
  | O => EmptyString
  | S O => "=="
  | S (S _) => "="
  end.

(** The number of bytes [base64Decode] returns for an input that is [len]
    characters long once its padding is stripped. *)
Definition decoded_length (len : nat) : nat :=
  match (len mod 4)%nat with
  | O => (3 * (len / 4) - 1)%nat
  | S O => (3 * (len / 4))%nat
  | S (S _) => (3 * (len / 4) + 1)%nat
  end.

End Base64.

(* ===================================================================== *)
(** ** random/cryptoRandomString.ts *)
(* ===================================================================== *)

Module CryptoRandom.

(** The digits [Number.prototype.toString] uses, in order. *)
Definition RADIX_DIGITS : string := "0123456789abcdefghijklmnopqrstuvwxyz".

Definition digit_char (d : N) : ascii :=
  match String.get (N.to_nat d) RADIX_DIGITS with
  | Some c => c
  | None => "?"%char
  end.

(** [n.toString(16)] for a non-negative integer [n]: the digits of [n] in
    base 16, most significant first, at least one digit. *)
Fixpoint toString16_aux (fuel : nat) (n : N) (acc : string) : string :=
  match fuel with
  | O => acc
  | S fuel' =>
      let acc := String (digit_char (n mod 16)%N) acc in
      if (n / 16 =? 0)%N then acc else toString16_aux fuel' (n / 16)%N acc
  end.

Definition toString16 (n : N) : string :=
  toString16_aux (S (N.size_nat n)) n EmptyString.

(** [String(pad).repeat] cut to [n] characters, as [padStart] fills. *)
Fixpoint fill (fuel n : nat) (pad : string) : string :=
  match fuel with
  | O => EmptyString
  | S fuel' =>
      if (n <=? String.length pad)%nat then String.substring 0 n pad
      else pad +:+ fill fuel' (n - String.length pad) pad
  end.

(** [s.padStart(targetLength, padString)]. *)
Definition padStart (s : string) (targetLength : nat) (padString : string)
  : string :=
  if (targetLength <=? String.length s)%nat then s
  else if (String.length padString =? 0)%nat then s
  else fill (targetLength - String.length s)
            (targetLength - String.length s) padString +:+ s.

(** [parts.join('')]. *)
Definition join_empty (parts : list string) : string :=
  foldr String.append EmptyString parts.

(** [s.slice(0, n)] for a non-negative integer [n]. *)
Definition slice0 (s : string) (n : nat) : string := String.substring 0 n s.

(** [Math.ceil(n / 2)] for a non-negative integer [n]. *)
Definition ceil_half (n : nat) : nat := (n / 2 + n mod 2)%nat.

(** [b => b.toString(16).padStart(2, '0')] on one byte. *)
Definition hex2 (b : byte) : string :=
  padStart (toString16 (Byte.to_N b)) 2 "0".

Section WithHost.

(** The host function [randomBytes] of [host://crypto]; only its
    declaration is part of the sources. *)
Variable randomBytes : nat -> list byte.

Definition cryptoRandomString (desiredLength : nat) : string :=
  let bytesNeeded := ceil_half desiredLength in
  let bytes := randomBytes bytesNeeded in
  let hex := join_empty (map hex2 bytes) in
  slice0 hex desiredLength.

End WithHost.

(** Lowercase hexadecimal characters. *)
Definition is_lower_hex (c : ascii) : bool :=
  let n := N_of_ascii c in
  ((48 <=? n) && (n <=? 57) || (97 <=? n) && (n <=? 102))%N.

Fixpoint all_chars (p : ascii -> bool) (s : string) : bool :=
  match s with
  | EmptyString => true
  | String c s' => p c && all_chars p s'
  end.

End CryptoRandom.

(* ===================================================================== *)
(** ** memoize/memoizeInFS.ts *)
(* ===================================================================== *)

Module Memoize.

(** [parts.join("_")]. *)
Definition join_underscore (parts : list string) : string :=
  String.concat "_" parts.

(** [s.replace(/\//g, "_")]: every slash becomes an underscore. *)
Fixpoint replace_slashes (s : string) : string :=
  match s with
  | EmptyString => EmptyString
  | String c s' =>
      String (if Ascii.eqb c "/"%char then "_"%char else c)
             (replace_slashes s')
  end.

(** Characters the hash cannot tell from a separator. *)
Definition is_separator (c : ascii) : bool :=
  Ascii.eqb c "_"%char || Ascii.eqb c "/"%char.

Fixpoint separator_free (s : string) : bool :=
  match s with
  | EmptyString => true
  | String c s' => negb (is_separator c) && separator_free s'
  end.

Section WithValues.

(** JavaScript argument values and their [String(x)] rendering. *)
Variable value : Type.
Variable String_ : value -> string.

(** [identifier + "_" + args.map(x => String(x)).join("_").replace(...)]:
    the method chain binds tighter than [+], so the replacement applies
    to the joined arguments only. *)
Definition hash (identifier : string) (args : list value) : string :=
  identifier +:+ "_" +:+
    replace_slashes (join_underscore (map (fun x => String_ x) args)).

Definition cachePath (identifier : string) (args : list value) : string :=
  "./cache/" +:+ hash identifier args.

End WithValues.

(** A host file-system call, as [parseResult] reads its answer:
    [{ type: "ok", value }] or [{ type: "error", error }]. *)
Inductive FsResult (A : Type) : Type :=
  | FsOk (value : A)
  | FsError (error : string).
Arguments FsOk {A} value.
Arguments FsError {A} error.

(** A promise once it has settled. *)
Inductive settled (A : Type) : Type :=
  | Resolved (v : A)
  | Rejected (reason : string).
Arguments Resolved {A} v.
Arguments Rejected {A} reason.

(** The property names every object inherits from [Object.prototype]. *)
Definition Object_prototype : list string :=
  [ "constructor"; "__defineGetter__"; "__defineSetter__";
    "hasOwnProperty"; "__lookupGetter__"; "__lookupSetter__";
    "isPrototypeOf"; "propertyIsEnumerable"; "toString"; "valueOf";
    "__proto__"; "toLocaleString" ].

Definition inherited (key : string) : bool :=
  existsb (String.eqb key) Object_prototype.

(** What a call of the memoized function returns: the promise stored in
    [inProgress], or the member of [Object.prototype] its hash names. *)
Inductive returned (A : Type) : Type :=
  | Promise (p : settled A)
  | Member (name : string).
Arguments Promise {A} p.
Arguments Member {A} name.

(** [p] lies below [q] taken as a directory. *)
Definition under (p q : string) : bool := String.prefix (q +:+ "/") p.

Section Memoized.

Variables value result disk : Type.
Variable String_ : value -> string.

(** [undefined], [JSON.stringify] and [JSON.parse] (which may throw). *)
Variable undefined : result.
Variable is_undefined : result -> bool.
Variable JSON_stringify : result -> string.
Variable JSON_parse : string -> settled result.

(** The four calls of [host://fs] the function makes, on an explicit disk;
    [hostReadFile] and [hostWriteFile] stand for the host call followed by
    [parseResult]. *)
Variable hostExists : string -> disk -> bool.
Variable hostMkdir : string -> disk -> disk.
Variable hostReadFile : string -> disk -> FsResult string.
Variable hostWriteFile : string -> string -> disk -> FsResult unit * disk.

Variable identifier : string.
(** [await fn(...args)]: the value, or the reason [fn] threw or rejected
    with. *)
Variable fn : list value -> settled result.

(** The closure's [inProgress] object (its own properties) and the disk. *)
Record memo_state : Type := {
  inProgress : gmap string (settled result);
  fs : disk
}.

(** [if (!hostExists("./cache")) hostMkdir("./cache")]. *)
Definition ensure_cache_dir (d : disk) : disk :=
  if hostExists "./cache" d then d else hostMkdir "./cache" d.

(** The cached branch: [Some p] when the function returns from the cache
    file, [None] when it falls through to the computation. *)
Definition read_cached (path : string) (d : disk)
  : option (settled result) :=
  if hostExists path d then
    match hostReadFile path d with
    | FsOk cachedValue =>
        Some (if String.eqb cachedValue "undefined"
              then Resolved undefined
              else JSON_parse cachedValue)
    | FsError _ => None
    end
  else None.

(** One call of the memoized function, awaited before the next one.
    [inProgress[hash]] finds an own property, or else a member inherited
    from [Object.prototype]; either is truthy and is returned as it is.
    Otherwise the async body runs up to [await fn(...)] before
    [inProgress[hash]] is assigned, so a result read from the cache file
    stays in [inProgress]; a computed one is removed again by
    [delete inProgress[hash]], which a failing [fn] never reaches. *)
Definition memoized (args : list value) (st : memo_state)
  : returned result * memo_state :=
  let h := hash value String_ identifier args in
  let path := cachePath value String_ identifier args in
  match inProgress st !! h with
  | Some p => (Promise p, st)
  | None =>
      if inherited h then (Member h, st)
      else
        let d := ensure_cache_dir (fs st) in
        match read_cached path d with
        | Some p =>
            (Promise p,
             {| inProgress := <[h := p]> (inProgress st); fs := d |})
        | None =>
            match fn args with
            | Rejected e =>
                (Promise (Rejected e),
                 {| inProgress := <[h := Rejected e]> (inProgress st);
                    fs := d |})
            | Resolved r =>
                let toCache :=
                  if is_undefined r then "undefined" else JSON_stringify r in
                let (writeResult, d') := hostWriteFile path toCache d in
                (Promise
                   match writeResult with
                   | FsError e => Rejected ("Failed to write cache: " +:+ e)
                   | FsOk _ => Resolved r
                   end,
                 {| inProgress := delete h (inProgress st); fs := d' |})
            end
        end
  end.

(** What a call can observe of a disk at one path: whether the path
    exists, what reading it gives and whether writing it succeeds. *)
Definition same_at (path : string) (d1 d2 : disk) : Prop :=
  hostExists path d1 = hostExists path d2
  /\ hostReadFile path d1 = hostReadFile path d2
  /\ forall content,
       fst (hostWriteFile path content d1)
       = fst (hostWriteFile path content d2).

End Memoized.

(** A character that cannot start a new path component. *)
Definition not_slash (c : ascii) : bool := negb (Ascii.eqb c "/"%char).

End Memoize.

(* ===================================================================== *)
(** ** filesystem/readFileBinary.ts and writeFileBinary.ts: the raw calls *)
(* ===================================================================== *)

Module BinaryFiles.
Import Base64 Memoize.

Section WithHost.

(** [hostReadFileBinary] and [hostWriteFileBinary] of [host://fs] on an
    explicit disk, each followed by [parseResult]; the host exchanges file
    contents as base64 text. *)
Variable disk : Type.
Variable hostReadFileBinary : string -> disk -> FsResult string.
Variable hostWriteFileBinary :
  string -> string -> disk -> FsResult unit * disk.

Definition readFileBinaryRaw (path : string) (d : disk)
  : FsResult (list byte) :=
  let result := hostReadFileBinary path d in
  match result with
  | FsOk value => FsOk (base64Decode value)
  | FsError error => FsError error
  end.

Definition writeFileBinaryRaw (path : string) (data : list byte) (d : disk)
  : FsResult unit * disk :=
  let base64 := base64Encode data in
  hostWriteFileBinary path base64 d.

End WithHost.

End BinaryFiles.

(* ===================================================================== *)
(** ** Text helpers shared by the bundler model *)
(* ===================================================================== *)

Module Text.

(** [hay.includes(needle)]. *)
Fixpoint contains (needle hay : string) : bool :=
  String.prefix needle hay ||
  match hay with
  | EmptyString => false
  | String _ hay' => contains needle hay'
  end.

End Text.

(* ===================================================================== *)
(** ** Fetcher (spec 4.1, 6, 7) *)
(* ===================================================================== *)

Module Fetcher.

(** What the origin server answers to one GET. *)
Inductive response :=
| Success (body : string)            (* 2xx *)
| Redirect (location : string)       (* 3xx with its Location *)
| Failure (status : nat)             (* 4xx / 5xx *)
| Transport.                         (* transport failure or timeout *)

(** The network as the bundler sees it during one run. *)
Definition network := string -> response.

Inductive fetch_error :=
| NotFound
| HttpError (status : nat)
| NetworkError
| RedirectLoop
| HostEscape.

(** Modelled from the spec: the fetcher of the bundler core (its Rust
    source is not among the available files).  Spec 4.1: "On 3xx, follow
    Location up to N redirects; N+1-th redirect -> RedirectLoop", with
    N = 10 (spec 8: "RedirectLoop after <= 10 hops"). *)
Definition MAX_REDIRECTS : nat := 10.

(** The fetcher's view of the world: the on-disk HTTP cache keyed by the
    full URL, the network round trips made so far (oldest first) and the
    lines written to the diagnostic stream. *)
Record state := {
  cache : gmap string string;
  requests : list string;
  diagnostics : list string
}.

Definition log_requests (urls : list string) (st : state) : state :=
  {| cache := cache st; requests := requests st ++ urls;
     diagnostics := diagnostics st |}.

Definition log_line (line : string) (st : state) : state :=
  {| cache := cache st; requests := requests st;
     diagnostics := diagnostics st ++ [line] |}.

Definition store (url body : string) (st : state) : state :=
  {| cache := <[url := body]> (cache st); requests := requests st;
     diagnostics := diagnostics st |}.

(** Modelled from the spec: one GET with redirect following (spec 4.1).
    [hops] is the number of redirects that may still be followed; the
    result carries the URLs requested, in order. *)
Fixpoint get_following (net : network) (hops : nat) (url : string)
  : list string * (fetch_error + string) :=
  match net url with
  | Success body => ([url], inr body)
  | Failure status => ([url], inl (HttpError status))
  | Transport => ([url], inl NetworkError)
  | Redirect location =>
      match hops with
      | O => ([url], inl RedirectLoop)
      | S hops' =>
          let '(trace, r) := get_following net hops' location in
          (url :: trace, r)
      end
  end.

Definition fetched_line (url : string) : string := "Fetched: " +:+ url.
Definition stale_line (url : string) : string :=
  "Warning: using stale cache for " +:+ url.

(** Modelled from the spec: the http(s) scheme of the fetcher (spec 4.1).
    Without [--reload] a cached body is used without any network round
    trip (spec 8: "fetch -> fetch without eviction incurs zero network
    round-trips"); [--reload] bypasses the cache on read and still writes
    on success.  On 2xx the body is stored under the requested URL and one
    [Fetched:] line is emitted.  On 4xx/5xx or transport failure a cached
    body is used with a warning. *)
Definition fetch_http (reload : bool) (net : network) (url : string)
  (st : state) : (fetch_error + string) * state :=
  match (if reload then None else cache st !! url) with
  | Some body => (inr body, st)
  | None =>
      let '(trace, r) := get_following net MAX_REDIRECTS url in
      let st := log_requests trace st in
      match r with
      | inr body => (inr body, log_line (fetched_line url) (store url body st))
      | inl RedirectLoop => (inl RedirectLoop, st)
      | inl e =>
          match cache st !! url with
          | Some body => (inr body, log_line (stale_line url) st)
          | None => (inl e, st)
          end
      end
  end.

(** Scheme tests on absolute URIs. *)
Definition is_http (uri : string) : bool :=
  String.prefix "http://" uri || String.prefix "https://" uri.
Definition is_host (uri : string) : bool := String.prefix "host://" uri.

(** The fixed registry of [host://] modules (spec 6). *)
Definition host_registry : list (string * list string) :=
  [ ("host://fs", ["readFile"; "readFileBinary"; "writeFile";
                   "writeFileBinary"; "isFile"; "exists"; "lstat"; "mkdir";
                   "readdir"; "tmpdir"]);
    ("host://http", ["fetch"]);
    ("host://http/server", ["serve"; "createResponse"; "createJsonResponse"]);
    ("host://process", ["spawn"]);
    ("host://time", ["setTimeout"; "clearTimeout"; "setInterval";
                     "clearInterval"]);
    ("host://watch", ["watchStart"; "watchPoll"; "watchStop"; "watchFile";
                      "watchDirectory"]);
    ("host://crypto", ["randomBytes"]);
    ("host://console", ["log"; "debug"]) ].

Definition host_exports (uri : string) : option (list string) :=
  snd <$> List.find (fun e => String.eqb (fst e) uri) host_registry.

(** What one bundler run is given besides the network. *)
Record env := {
  reload : bool;                       (* [--reload] *)
  files : gmap string string;          (* local disk: absolute URI -> text *)
  net : network
}.

(** Modelled from the spec: fetching one absolute URI (spec 4.1).  A
    [host://] module is synthesized without I/O; its text stands for the
    export list. *)
Definition fetch (e : env) (uri : string) (st : state)
  : (fetch_error + string) * state :=
  if is_http uri then fetch_http (reload e) (net e) uri st
  else if is_host uri then
    match host_exports uri with
    | Some names => (inr (String.concat "," names), st)
    | None => (inl NotFound, st)
    end
  else
    match files e !! uri with
    | Some text => (inr text, st)
    | None => (inl NotFound, st)
    end.

(** Every response of the chain is a 3xx that points back into it. *)
Definition redirect_chain (n : network) (chain : string -> Prop) : Prop :=
  forall u, chain u -> exists location, n u = Redirect location /\ chain location.

End Fetcher.

(* ===================================================================== *)
(** ** Declaration graph, macro engine, tree shaker, emitter
       (spec 3, 4.5, 4.6, 4.7) *)
(* ===================================================================== *)

Module Bundler.

(** Canonical name: the pair [{uri, name}] (spec 3). *)
Record canonical := Canonical { uri : string; name : string }.

#[global] Instance canonical_eq_dec : EqDecision canonical.
Proof. solve_decision. Defined.

(** The fragment of the surface language the macro engine and the emitter
    look at: identifiers, literals, calls, arrow functions, binary
    operators (the comma operator among them) and parenthesized
    expressions.  A template literal is a [Str] with [Binary "+"]. *)
Inductive expr :=
| Ident (x : string)
| Num (n : Z)
| Str (s : string)
| Call (callee : expr) (args : list expr)
| Arrow (params : list string) (body : expr)
| Binary (op : string) (lhs rhs : expr)
| Paren (e : expr).

(** Identifiers that occur free in an expression. *)
Fixpoint free_idents (e : expr) : list string :=
  match e with
  | Ident x => [x]
  | Num _ | Str _ => []
  | Call callee args => free_idents callee ++ flat_map free_idents args
  | Arrow params body =>
      List.filter (fun x => negb (existsb (String.eqb x) params))
                  (free_idents body)
  | Binary _ lhs rhs => free_idents lhs ++ free_idents rhs
  | Paren e => free_idents e
  end.

(** The references in force below a binder of [params]: a parameter hides
    the declaration of the same name. *)
Definition hide (params : list string) (refs : gmap string canonical)
  : gmap string canonical :=
  filter (fun kv => kv.1 ∉ params) refs.

(** The source text of an expression.  Parentheses of the source are
    [Paren] nodes and are printed where they are; an operand, a callee or
    an argument that would be read differently without parentheses gets
    them. *)
Definition wrap (e : expr) (s : string) : string :=
  match e with
  | Binary _ _ _ | Arrow _ _ => "(" +:+ s +:+ ")"
  | _ => s
  end.

Definition wrap_arg (e : expr) (s : string) : string :=
  match e with
  | Binary "," _ _ => "(" +:+ s +:+ ")"
  | _ => s
  end.

Fixpoint print_expr (e : expr) : string :=
  match e with
  | Ident x => x
  | Num n => pretty n
  | Str s => "`" +:+ s +:+ "`"
  | Call callee args =>
      wrap callee (print_expr callee) +:+ "(" +:+
      String.concat ", " (map (fun a => wrap_arg a (print_expr a)) args)
      +:+ ")"
  | Arrow params body =>
      "(" +:+ String.concat ", " params +:+ ") => " +:+
      wrap_arg body (print_expr body)
  | Binary op lhs rhs =>
      wrap lhs (print_expr lhs) +:+
      (if String.eqb op "," then ", " else " " +:+ op +:+ " ") +:+
      wrap rhs (print_expr rhs)
  | Paren e => "(" +:+ print_expr e +:+ ")"
  end.

(** Closure record (spec 3, 4.5): the source snippet of a captured
    expression and the map from its free identifiers, as written, to
    canonical names.  A macro returns a record of the same shape
    (spec 4.5, step 4: [{expression: string, references: Map}]). *)
Record closure := Closure {
  expression : string;
  references : gmap string canonical
}.

(** Declaration (spec 3).  [macro_marker] is fixed when the declaration is
    created: "detected syntactically at the binding site". *)
Record declaration := {
  d_name : canonical;
  d_ast : expr;
  d_refs : gmap string canonical;
  macro_marker : bool
}.

(** Modelled from the spec: macro detection (the graph builder is not
    among the available sources).  Spec 3: "detected syntactically at the
    binding site"; the fixtures under tests/fixtures/macro declare their own
    [createMacro], so the test is on the callee's name. *)
Definition is_createMacro_call (e : expr) : bool :=
  match e with
  | Call (Ident f) _ => String.eqb f "createMacro"
  | _ => false
  end.

(** How the graph builder creates a declaration. *)
Definition declare (c : canonical) (ast : expr)
  (refs : gmap string canonical) : declaration :=
  {| d_name := c; d_ast := ast; d_refs := refs;
     macro_marker := is_createMacro_call ast |}.

(** The macro's body is the argument function of [createMacro(fn)]. *)
Definition macro_fn (d : declaration) : expr :=
  match d_ast d with
  | Call _ (fn :: _) => fn
  | other => other
  end.

(** The declaration graph: the arena of the declarations the graph
    builder discovered, in discovery order, and the canonical name of the
    entry's default export. *)
Record graph := { decls : list declaration; entry : canonical }.

Definition find_decl (g : graph) (c : canonical) : option declaration :=
  List.find (fun d => bool_decide (d_name d = c)) (decls g).

Inductive error :=
| FetchFailed (e : Fetcher.fetch_error) (uri : string)
| ParseError (uri message : string)
| MissingExport (module name : string)
| ReExportCycle
| AmbiguousStarExport
| UnresolvedReference (name : string)
| MacroRecursion
| MacroTimeout
| MacroReturnShape
| EmitOrderingConflict.

(** Modelled from the spec: the cap of the expansion loop (spec 4.5:
    "bounded, default cap 100 iterations"). *)
Definition MAX_ITERATIONS : nat := 100.

(** Left-to-right traversal of a list that stops at the first error. *)
Definition traverse {A B : Type} (f : A -> error + B)
  : list A -> error + list B :=
  fix go (l : list A) :=
    match l with
    | [] => inr []
    | a :: l' =>
        match f a with
        | inl err => inl err
        | inr b =>
            match go l' with
            | inl err => inl err
            | inr bs => inr (b :: bs)
            end
        end
    end.

(** *** Macro engine (spec 4.5) *)

(** Modelled from the spec: the macro-marked declaration a callee
    identifies, if any (spec 4.5, step 1: "callee canonical name identifies
    a macro-marked declaration"); the callee is resolved through the
    references of the enclosing declaration. *)
Definition callee_macro (g : graph) (refs : gmap string canonical)
  (callee : expr) : option declaration :=
  match callee with
  | Ident f =>
      match refs !! f with
      | Some c =>
          match find_decl g c with
          | Some d => if macro_marker d then Some d else None
          | None => None
          end
      | None => None
      end
  | _ => None
  end.

(** Modelled from the spec: step 1 of the expansion loop (spec 4.5), is
    there a macro call-site?  The arguments of a macro call are passed
    verbatim, so the scan does not look inside them. *)
Fixpoint has_macro_call (g : graph) (refs : gmap string canonical)
  (e : expr) : bool :=
  match e with
  | Call callee args =>
      match callee_macro g refs callee with
      | Some _ => true
      | None =>
          has_macro_call g refs callee
          || existsb (has_macro_call g refs) args
      end
  | Arrow params body => has_macro_call g (hide params refs) body
  | Binary _ lhs rhs =>
      has_macro_call g refs lhs || has_macro_call g refs rhs
  | Paren e => has_macro_call g refs e
  | Ident _ | Num _ | Str _ => false
  end.

(** Modelled from the spec: "scan the graph" (spec 4.5, step 1).  The
    graph holds the declarations discovered from the entry; a call inside
    a macro-marked declaration is not a call-site ("whose surrounding scope
    is not itself a macro body"). *)
Definition graph_has_macro_call (g : graph) : bool :=
  existsb (fun d => negb (macro_marker d)
                    && has_macro_call g (d_refs d) (d_ast d)) (decls g).

(** Every macro call-site the scan sees in [e] is a call written [m(...)]
    with [n] arguments of the macro-marked declaration named [c]. *)
Fixpoint only_calls (g : graph) (c : canonical) (m : string) (n : nat)
  (refs : gmap string canonical) (e : expr) : bool :=
  match e with
  | Call callee args =>
      match callee_macro g refs callee with
      | Some dm =>
          match callee with
          | Ident f => String.eqb f m
          | _ => false
          end
          && bool_decide (d_name dm = c) && Nat.eqb (length args) n
      | None =>
          only_calls g c m n refs callee
          && forallb (only_calls g c m n refs) args
      end
  | Arrow params body => only_calls g c m n (hide params refs) body
  | Binary _ lhs rhs =>
      only_calls g c m n refs lhs && only_calls g c m n refs rhs
  | Paren e => only_calls g c m n refs e
  | Ident _ | Num _ | Str _ => true
  end.

(** Modelled from the spec: step 2 (spec 4.5), the Closure record of one
    argument: the source snippet of the argument, and the sub-map of the
    enclosing declaration's references restricted to the identifiers that
    occur free in the argument. *)
Definition capture (refs : gmap string canonical) (arg : expr) : closure :=
  {| expression := print_expr arg;
     references := filter (fun kv => kv.1 ∈ free_idents arg) refs |}.

(** Left-to-right expansion of an argument list, threading the collected
    references. *)
Definition expand_list
  (f : expr -> gmap string canonical
       -> error + (expr * gmap string canonical))
  : list expr -> gmap string canonical
    -> error + (list expr * gmap string canonical) :=
  fix go (l : list expr) (acc : gmap string canonical) :=
    match l with
    | [] => inr ([], acc)
    | a :: l' =>
        match f a acc with
        | inl err => inl err
        | inr (a', acc) =>
            match go l' acc with
            | inl err => inl err
            | inr (l'', acc) => inr (a' :: l'', acc)
            end
        end
    end.

Section Engine.

(** The parser (spec 4.2), here on the text of one expression, and the
    sandboxed evaluator the macro engine embeds: it runs a macro body on
    its Closure arguments and yields the returned record, or a macro error
    ([MacroTimeout], [MacroReturnShape]).  Both are external
    collaborators. *)
Variable parse_expression : string -> error + expr.
Variable run_macro : expr -> list closure -> error + closure.

(** Modelled from the spec: steps 3 to 5 (spec 4.5) on one expression:
    every macro call-site the scan sees is replaced by the parsed AST of
    the returned expression string, and the returned references are
    collected in [acc].  The replacement is not expanded again in the same
    pass. *)
Fixpoint expand_expr (g : graph) (refs : gmap string canonical)
  (e : expr) (acc : gmap string canonical)
  : error + (expr * gmap string canonical) :=
  match e with
  | Call callee args =>
      match callee_macro g refs callee with
      | Some dm =>
          match run_macro (macro_fn dm) (map (capture refs) args) with
          | inl err => inl err
          | inr r =>
              match parse_expression (expression r) with
              | inl err => inl err
              | inr e' => inr (e', acc ∪ references r)
              end
          end
      | None =>
          match expand_expr g refs callee acc with
          | inl err => inl err
          | inr (callee', acc) =>
              match expand_list (expand_expr g refs) args acc with
              | inl err => inl err
              | inr (args', acc) => inr (Call callee' args', acc)
              end
          end
      end
  | Arrow params body =>
      match expand_expr g (hide params refs) body acc with
      | inl err => inl err
      | inr (body', acc) => inr (Arrow params body', acc)
      end
  | Binary op lhs rhs =>
      match expand_expr g refs lhs acc with
      | inl err => inl err
      | inr (lhs', acc) =>
          match expand_expr g refs rhs acc with
          | inl err => inl err
          | inr (rhs', acc) => inr (Binary op lhs' rhs', acc)
          end
      end
  | Paren e1 =>
      match expand_expr g refs e1 acc with
      | inl err => inl err
      | inr (e1', acc) => inr (Paren e1', acc)
      end
  | Ident _ | Num _ | Str _ => inr (e, acc)
  end.

(** Modelled from the spec: step 5 on one declaration: rewrite its AST and
    union the returned references into its reference set.  The reference
    set only grows (spec 3, lifecycles): an identifier that is already
    bound keeps its binding.  A macro-marked declaration is left as it
    is. *)
Definition expand_decl (g : graph) (d : declaration)
  : error + declaration :=
  if macro_marker d then inr d
  else
    match expand_expr g (d_refs d) (d_ast d) ∅ with
    | inl err => inl err
    | inr (ast', returned) =>
        inr {| d_name := d_name d; d_ast := ast';
               d_refs := d_refs d ∪ returned;
               macro_marker := macro_marker d |}
    end.

(** Modelled from the spec: one iteration (spec 5: "pre-order traversal of
    declarations by discovery index; any rewrite takes effect before the
    next iteration"): the declarations are visited in discovery order and
    every rewrite reads the graph as it was when the iteration began. *)
Definition expand_pass (g : graph) : error + graph :=
  match traverse (expand_decl g) (decls g) with
  | inl err => inl err
  | inr new => inr {| decls := new; entry := entry g |}
  end.

(** Modelled from the spec: step 6 (spec 4.5): re-scan; stop when a scan
    finds no macro call; going past the cap fails with [MacroRecursion]. *)
Fixpoint expand_loop (cap : nat) (g : graph) : error + graph :=
  if graph_has_macro_call g then
    match cap with
    | O => inl MacroRecursion
    | S cap' =>
        match expand_pass g with
        | inl err => inl err
        | inr g' => expand_loop cap' g'
        end
    end
  else inr g.

Definition expand (g : graph) : error + graph :=
  expand_loop MAX_ITERATIONS g.

(** A macro body that, called with [n] captured arguments, always returns
    a call written [m(...)] with [n] arguments again, and no reference
    beyond those its arguments carried (as [references: arg.references]
    and [references: new Map()] do). *)
Definition self_expanding (fn : expr) (m : string) (n : nat) : Prop :=
  forall refs args, length args = n ->
    exists r args',
      run_macro fn (map (capture refs) args) = inr r
      /\ parse_expression (expression r) = inr (Call (Ident m) args')
      /\ length args' = n
      /\ forall x c, references r !! x = Some c ->
           exists a, a ∈ args /\ references (capture refs a) !! x = Some c.

(** Spec 4.5, steps 1 to 5, as a relation between an expression and what
    one iteration leaves in its place: a call-site of a macro is replaced
    by the parsed expression the macro returned for the captured
    arguments; outside the call-sites nothing changes. *)
Inductive replaces (g : graph)
  : gmap string canonical -> expr -> expr -> Prop :=
| replaces_call_site refs callee args dm r e' :
    callee_macro g refs callee = Some dm ->
    run_macro (macro_fn dm) (map (capture refs) args) = inr r ->
    parse_expression (expression r) = inr e' ->
    replaces g refs (Call callee args) e'
| replaces_call refs callee callee' args args' :
    callee_macro g refs callee = None ->
    replaces g refs callee callee' ->
    Forall2 (replaces g refs) args args' ->
    replaces g refs (Call callee args) (Call callee' args')
| replaces_arrow refs params body body' :
    replaces g (hide params refs) body body' ->
    replaces g refs (Arrow params body) (Arrow params body')
| replaces_binary refs op lhs lhs' rhs rhs' :
    replaces g refs lhs lhs' -> replaces g refs rhs rhs' ->
    replaces g refs (Binary op lhs rhs) (Binary op lhs' rhs')
| replaces_paren refs e e' :
    replaces g refs e e' -> replaces g refs (Paren e) (Paren e')
| replaces_ident refs x : replaces g refs (Ident x) (Ident x)
| replaces_num refs n : replaces g refs (Num n) (Num n)
| replaces_str refs s : replaces g refs (Str s) (Str s).

(** One iteration on the graph: a macro-marked declaration stays as it
    is; in every other declaration the call-sites are replaced and the
    reference set grows. *)
Definition iteration (g g' : graph) : Prop :=
  entry g' = entry g
  /\ Forall2 (fun d d' =>
                if macro_marker d then d' = d
                else d_name d' = d_name d
                     /\ macro_marker d' = false
                     /\ replaces g (d_refs d) (d_ast d) (d_ast d')
                     /\ d_refs d ⊆ d_refs d')
             (decls g) (decls g').

End Engine.

(** A graph the loop cannot finish: the macro-marked declaration [dm] is
    in it, every macro call-site of a declaration that is no macro is a
    call [m(...)] with [n] arguments of [dm], and there is a call-site. *)
Definition tame (g : graph) (c : canonical) (m : string) (n : nat)
  (d : declaration) : Prop :=
  macro_marker d = false ->
  only_calls g c m n (d_refs d) (d_ast d) = true.

Definition stuck (dm : declaration) (m : string) (n : nat) (g : graph)
  : Prop :=
  find_decl g (d_name dm) = Some dm
  /\ Forall (tame g (d_name dm) m n) (decls g)
  /\ graph_has_macro_call g = true.

(** What an expansion pass keeps of a declaration when the macros return
    no new reference: its name, its references and its marker; a
    macro-marked declaration is kept as it is. *)
Definition same_decl (d d' : declaration) : Prop :=
  d_name d' = d_name d
  /\ d_refs d' = d_refs d
  /\ macro_marker d' = macro_marker d
  /\ (macro_marker d = true -> d' = d).

(** Graphs that differ only in the ASTs of declarations that are not
    macros. *)
Definition agree (g g' : graph) : Prop :=
  entry g' = entry g /\ Forall2 same_decl (decls g) (decls g').

(** *** Tree shaker and emitter (spec 4.6, 4.7) *)

(** Modelled from the spec: "finalized before emission" (spec 3,
    lifecycles).  The reference set of a finished declaration holds what
    its body depends on (spec 3): the bindings of the identifiers that
    still occur free in its AST.  The binding of a macro whose call-sites
    were all replaced is gone with them. *)
Definition finalize_decl (d : declaration) : declaration :=
  {| d_name := d_name d; d_ast := d_ast d;
     d_refs := filter (fun kv => kv.1 ∈ free_idents (d_ast d)) (d_refs d);
     macro_marker := macro_marker d |}.

Definition finalize (g : graph) : graph :=
  {| decls := finalize_decl <$> decls g; entry := entry g |}.

(** Canonical names a declaration refers to, in the order of its
    reference map. *)
Definition targets (d : declaration) : list canonical :=
  snd <$> map_to_list (d_refs d).

(** Modelled from the spec: the worklist walk from the entry's default
    export (spec 4.4, 4.6).  A macro-marked declaration is not part of the
    result and its references are not followed: "a macro's own declaration
    is removed", "a declaration referenced only from a removed macro
    declaration is itself removed".  Names without a declaration are host
    bindings or globals.  [seen] is in discovery order. *)
Fixpoint walk (fuel : nat) (g : graph) (work seen : list canonical)
  : list canonical :=
  match fuel with
  | O => seen
  | S fuel' =>
      match work with
      | [] => seen
      | c :: rest =>
          if bool_decide (c ∈ seen) then walk fuel' g rest seen
          else
            match find_decl g c with
            | Some d =>
                if macro_marker d then walk fuel' g rest seen
                else walk fuel' g (rest ++ targets d) (seen ++ [c])
            | None => walk fuel' g rest seen
            end
      end
  end.

(** Every work item is the entry or one reference of one declaration. *)
Definition walk_fuel (g : graph) : nat :=
  S (foldr (fun d n => (size (d_refs d) + n)%nat) 0%nat (decls g)).

Definition live_names (g : graph) : list canonical :=
  walk (walk_fuel g) g [entry g] [].

Definition live_decls (g : graph) : list declaration :=
  omap (find_decl g) (live_names g).

(** [declaration_<N>], N being the discovery index. *)
Definition emit_name (i : nat) : string := "declaration_" +:+ pretty i.

Definition index_of (c : canonical) (names : list canonical) : option nat :=
  fst <$> list_find (fun c' => c' = c) names.

(** Modelled from the spec: renaming (spec 4.7).  Rewrite every identifier
    reference to the emit name of the surviving declaration it resolves
    to; a host binding is referred to by its export name; an identifier
    the references do not bind (a global, a parameter) is left alone.  A
    reference to a declaration that is not in the bundle, as a macro that
    is named outside a call, cannot be emitted (spec 8, invariants 1 and
    2); the spec names no error kind for it, [UnresolvedReference] is
    used. *)
Fixpoint rename (names : list canonical) (refs : gmap string canonical)
  (e : expr) : error + expr :=
  match e with
  | Ident x =>
      match refs !! x with
      | Some c =>
          match index_of c names with
          | Some i => inr (Ident (emit_name i))
          | None =>
              if Fetcher.is_host (uri c) then inr (Ident (name c))
              else inl (UnresolvedReference x)
          end
      | None => inr (Ident x)
      end
  | Num _ | Str _ => inr e
  | Call callee args =>
      match rename names refs callee with
      | inl err => inl err
      | inr callee' =>
          match traverse (rename names refs) args with
          | inl err => inl err
          | inr args' => inr (Call callee' args')
          end
      end
  | Arrow params body =>
      match rename names (hide params refs) body with
      | inl err => inl err
      | inr body' => inr (Arrow params body')
      end
  | Binary op lhs rhs =>
      match rename names refs lhs with
      | inl err => inl err
      | inr lhs' =>
          match rename names refs rhs with
          | inl err => inl err
          | inr rhs' => inr (Binary op lhs' rhs')
          end
      end
  | Paren e1 =>
      match rename names refs e1 with
      | inl err => inl err
      | inr e1' => inr (Paren e1')
      end
  end.

(** What an identifier of the code emitted for a declaration can be
    (spec 3, last invariant): the emit name of a declaration it refers
    to, the export name of a host binding it refers to, or an identifier
    its references do not bind (a JS global). *)
Inductive emitted_ident (names : list canonical) (d : declaration)
  (y : string) : Prop :=
| to_declaration (c : canonical) (i : nat) :
    c ∈ targets d -> index_of c names = Some i -> y = emit_name i ->
    emitted_ident names d y
| to_host_binding (c : canonical) :
    c ∈ targets d -> Fetcher.is_host (uri c) = true -> y = name c ->
    emitted_ident names d y
| to_global :
    y ∈ free_idents (d_ast d) -> d_refs d !! y = None ->
    emitted_ident names d y.

(** Modelled from the spec: topological order by reference edges (spec
    4.7).  A declaration is ready when everything it refers to among the
    survivors is already placed; a cycle is broken at the declaration
    discovered first. *)
Definition ready (placed remaining : list declaration) (d : declaration)
  : bool :=
  forallb (fun c =>
             bool_decide (c = d_name d)
             || bool_decide (c ∈ d_name <$> placed)
             || negb (bool_decide (c ∈ d_name <$> remaining)))
          (targets d).

Definition drop_decl (d : declaration) (ds : list declaration)
  : list declaration :=
  List.filter (fun d' => negb (bool_decide (d_name d' = d_name d))) ds.

Fixpoint topo (fuel : nat) (placed remaining : list declaration)
  : list declaration :=
  match fuel with
  | O => placed ++ remaining
  | S fuel' =>
      match remaining with
      | [] => placed
      | first :: _ =>
          let pick :=
            match List.find (ready placed remaining) remaining with
            | Some d => d
            | None => first
            end in
          topo fuel' (placed ++ [pick]) (drop_decl pick remaining)
      end
  end.

(** Host bindings the survivors refer to, for the preamble. *)
Definition host_bindings (ds : list declaration) : list canonical :=
  remove_dups
    (List.filter (fun c => Fetcher.is_host (uri c)) (flat_map targets ds)).

Definition print_host_binding (c : canonical) : string :=
  "const " +:+ name c +:+ " = host(`" +:+ uri c +:+ "`)." +:+ name c +:+ ";".

Definition print_decl (names : list canonical) (d : declaration)
  : error + string :=
  match index_of (d_name d) names with
  | Some i =>
      match rename names (d_refs d) (d_ast d) with
      | inl err => inl err
      | inr ast =>
          inr ("const " +:+ emit_name i +:+ " = " +:+ print_expr ast +:+ ";")
      end
  | None => inl EmitOrderingConflict
  end.

(** The emitted bundle: the surviving declarations in emission order and
    the text. *)
Record bundle := {
  survivors : list declaration;
  text : string
}.

(** Modelled from the spec: tree shaking and emission (spec 4.6, 4.7) of
    a finished graph: host preamble, renamed declarations, and unless
    [--emit] is set a call of the entry's default export. *)
Definition emit (emit_only : bool) (g : graph) : error + bundle :=
  let names := live_names g in
  let ds := live_decls g in
  let ordered := topo (length ds) [] ds in
  match traverse (print_decl names) ordered with
  | inl err => inl err
  | inr decl_lines =>
      let tail :=
        if emit_only then []
        else match index_of (entry g) names with
             | Some i => [emit_name i +:+ "();"]
             | None => []
             end in
      let lines :=
        ((print_host_binding <$> host_bindings ds)
         ++ decl_lines ++ tail)%list in
      inr {| survivors := ordered;
             text := String.concat (String "010"%char EmptyString) lines |}
  end.

(** Modelled from the spec: human-readable diagnostics (spec 7, 8); the
    wording of the macro message is the one tests/cli.test.ts looks for,
    the redirect message is one of those it accepts
    ([/redirect|too many|loop/i]). *)
Definition fetch_diagnostic (e : Fetcher.fetch_error) (uri : string)
  : string :=
  match e with
  | Fetcher.NotFound => "Module not found: " +:+ uri
  | Fetcher.HttpError status =>
      "HTTP error " +:+ pretty status +:+ " fetching " +:+ uri
  | Fetcher.NetworkError =>
      "Network error: failed to fetch " +:+ uri +:+ " (not cached)"
  | Fetcher.RedirectLoop => "Too many redirects fetching " +:+ uri
  | Fetcher.HostEscape =>
      "Remote module may not import a local module: " +:+ uri
  end.

Definition diagnostic (e : error) : string :=
  match e with
  | FetchFailed fe uri => fetch_diagnostic fe uri
  | ParseError uri message => uri +:+ ": parse error: " +:+ message
  | MissingExport module name =>
      "Module " +:+ module +:+ " has no export " +:+ name
  | ReExportCycle => "Re-export cycle"
  | AmbiguousStarExport => "Ambiguous star export"
  | UnresolvedReference name => "Unresolved reference " +:+ name
  | MacroRecursion => "Macro expansion exceeded max iterations"
  | MacroTimeout => "Macro evaluation timed out"
  | MacroReturnShape => "Macro must return expression and references"
  | EmitOrderingConflict => "Internal error: emit ordering conflict"
  end.

(** *** The bundler as a client of the fetcher *)

(** A bundler run reaches the network and the HTTP cache through the
    fetcher only; between two fetches it computes.  [prog A] is such a
    computation: it ends with a value, aborts with an error, or asks for
    one module and goes on with its text. *)
Inductive prog (A : Type) :=
| Ret (a : A)
| Abort (e : error)
| Fetch (uri : string) (k : string -> prog A).
Arguments Ret {A} a.
Arguments Abort {A} e.
Arguments Fetch {A} uri k.

Fixpoint bind {A B} (p : prog A) (f : A -> prog B) : prog B :=
  match p with
  | Ret a => f a
  | Abort e => Abort e
  | Fetch uri k => Fetch uri (fun text => bind (k text) f)
  end.

(** Running a computation against the fetcher: a failed fetch aborts the
    bundle (spec 7). *)
Fixpoint run_prog {A} (e : Fetcher.env) (p : prog A) (st : Fetcher.state)
  : (error + A) * Fetcher.state :=
  match p with
  | Ret a => (inr a, st)
  | Abort err => (inl err, st)
  | Fetch uri k =>
      match Fetcher.fetch e uri st with
      | (inl fe, st') => (inl (FetchFailed fe uri), st')
      | (inr text, st') => run_prog e (k text) st'
      end
  end.

Section Pipeline.

Variable parse_expression : string -> error + expr.
Variable run_macro : expr -> list closure -> error + closure.

(** Parser with the fetcher's resolution policy: the absolute URIs a
    module imports, in source order (spec 4.1, 4.2; not modelled). *)
Variable imports_of : string -> string -> error + list string.

(** Parser, resolver and graph builder: from the module store to the
    declaration graph (spec 4.2 to 4.4; not modelled). *)
Variable build_graph : list (string * string) -> error + graph.

(** Modelled from the spec: lazy module loading (spec 3: "modules are
    lazily fetched on first reference; cached in-memory for the bundler
    run").  [work] pairs each URI with its referrer; a remote module
    may not import a non-HTTP module (spec 4.1, [HostEscape]).  [fuel]
    bounds the number of worklist steps; [None] means the walk was cut
    short. *)
Fixpoint load (fuel : nat) (work : list (string * string))
  (store : list (string * string))
  : prog (option (list (string * string))) :=
  match fuel with
  | O => match work with [] => Ret (Some store) | _ => Ret None end
  | S fuel' =>
      match work with
      | [] => Ret (Some store)
      | (referrer, uri) :: rest =>
          if Fetcher.is_http referrer && negb (Fetcher.is_http uri)
          then Abort (FetchFailed Fetcher.HostEscape uri)
          else if existsb (fun m => String.eqb (fst m) uri) store
          then load fuel' rest store
          else
            Fetch uri (fun text =>
              match imports_of uri text with
              | inl err => Abort err
              | inr uris =>
                  load fuel' (rest ++ ((fun u => (uri, u)) <$> uris))
                       (store ++ [(uri, text)])
              end)
      end
  end.

(** Macro expansion, then tree shaking and emission of the finished
    graph. *)
Definition bundle_graph (emit_only : bool) (g : graph) : error + bundle :=
  match expand parse_expression run_macro g with
  | inl err => inl err
  | inr g' => emit emit_only (finalize g')
  end.

(** The whole bundler for one entry module. *)
Definition bundler (fuel : nat) (emit_only : bool) (entry_uri : string)
  : prog (option bundle) :=
  bind (load fuel [(entry_uri, entry_uri)] [])
    (fun loaded =>
       match loaded with
       | None => Ret None
       | Some store =>
           match build_graph store with
           | inl err => Abort err
           | inr g =>
               match bundle_graph emit_only g with
               | inl err => Abort err
               | inr b => Ret (Some b)
               end
           end
       end).

(** Modelled from the spec: what the command line shows for the bundling
    step (the front-end is not among the sources): the exit status
    (spec 6: 0 success, 1 bundle failure), the bundle text and the
    diagnostic stream. *)
Record outcome := {
  exit_status : nat;
  stdout : string;
  stderr : list string
}.

Definition report (fetch_lines : list string) (r : error + option bundle)
  : option outcome :=
  match r with
  | inl err =>
      Some {| exit_status := 1; stdout := EmptyString;
              stderr := fetch_lines ++ [diagnostic err] |}
  | inr (Some b) =>
      Some {| exit_status := 0; stdout := text b; stderr := fetch_lines |}
  | inr None => None
  end.

(** One run of the command line from a given HTTP cache: the outcome and
    the cache it leaves behind.  Requests and diagnostics start empty in
    every run. *)
Definition run_bundler (fuel : nat) (e : Fetcher.env) (emit_only : bool)
  (entry_uri : string) (cache : gmap string string)
  : option outcome * Fetcher.state :=
  let '(r, st) :=
    run_prog e (bundler fuel emit_only entry_uri)
      {| Fetcher.cache := cache; Fetcher.requests := [];
         Fetcher.diagnostics := [] |} in
  (report (Fetcher.diagnostics st) r, st).

End Pipeline.

End Bundler.

(* ===================================================================== *)
(** ** tests/cli.test.ts: the test HTTP server *)
(* ===================================================================== *)

Module TestServer.

(** [serverState]. *)
Record ServerState : Type := {
  shouldFail : bool;
  redirectCount : nat;
  currentVersion : string;
  requestLog : list string
}.

(** What the handler does with [res]: [writeHead(status, headers)] and
    [end(body)], or [req.socket.destroy()]. *)
Inductive reply : Type :=
  | Reply (status : nat) (headers : list (string * string)) (body : string)
  | Destroyed.

(** [\d]. *)
Definition is_digit (c : ascii) : bool :=
  ((48 <=? N_of_ascii c) && (N_of_ascii c <=? 57))%N.

(** The longest run of digits at the start of [s]: what a greedy [(\d+)]
    captures there. *)
Fixpoint leading_digits (s : string) : string :=
  match s with
  | String c s' =>
      if is_digit c then String c (leading_digits s') else EmptyString
  | EmptyString => EmptyString
  end.

(** [s] without its prefix [p], when it starts with [p]. *)
Fixpoint strip_prefix (p s : string) : option string :=
  match p, s with
  | EmptyString, _ => Some s
  | String a p', String b s' =>
      if Ascii.eqb a b then strip_prefix p' s' else None
  | String _ _, EmptyString => None
  end.

(** [s.match(/redirect-step-(\d+)/)?.[1]]: the capture of the leftmost
    match, [None] for [undefined]. *)
Fixpoint match_step (s : string) : option string :=
  match s with
  | EmptyString => None
  | String _ s' =>
      match strip_prefix "redirect-step-" s with
      | Some rest =>
          match leading_digits rest with
          | EmptyString => match_step s'
          | String _ _ as digits => Some digits
          end
      | None => match_step s'
      end
  end.

(** [parseInt(digits)] on a run of decimal digits.  The handler only tests
    the number against 3 and adds 1 to it when it is below 3, where the
    floating-point value is the exact one. *)
Definition parseInt (digits : string) : N :=
  fold_left (fun acc c => (10 * acc + (N_of_ascii c - 48))%N)
    (list_ascii_of_string digits) 0%N.

(** [serverState.requestLog.push(pathname)]. *)
Definition log_request (pathname : string) (st : ServerState) : ServerState :=
  {| shouldFail := shouldFail st;
     redirectCount := redirectCount st;
     currentVersion := currentVersion st;
     requestLog := (requestLog st ++ [pathname])%list |}.

(** [serverState.redirectCount++]. *)
Definition count_redirect (st : ServerState) : ServerState :=
  {| shouldFail := shouldFail st;
     redirectCount := S (redirectCount st);
     currentVersion := currentVersion st;
     requestLog := requestLog st |}.

(** [res.writeHead(302, { 'Location': target }); res.end()]. *)
Definition redirect_to (target : string) : reply :=
  Reply 302 [("Location", target)] EmptyString.

Definition text_plain : list (string * string) :=
  [("Content-Type", "text/plain")].

Section Handler.

(** The fixtures directory, [path.join] and [fs.readFile(_, 'utf-8')]
    ([None] when it throws). *)
Variable httpServerFixtures : string.
Variable path_join : string -> string -> string.
Variable readFile : string -> option string.

(** The request handler of [startTestServer], on the [pathname] of the
    request URL; requests are handled one at a time. *)
Definition handler (pathname : string) (st0 : ServerState)
  : reply * ServerState :=
  let st := log_request pathname st0 in
  if String.eqb pathname "/not-found.ts" then
    (Reply 404 text_plain "Not Found", st)
  else if String.eqb pathname "/server-error.ts" then
    (Reply 500 text_plain "Internal Server Error", st)
  else if String.eqb pathname "/network-fail.ts" && shouldFail st then
    (Destroyed, st)
  else if String.eqb pathname "/redirect.ts" then
    (redirect_to "/redirect-target.ts", count_redirect st)
  else if String.eqb pathname "/redirect-chain.ts" then
    (redirect_to "/redirect-step-1.ts", count_redirect st)
  else if String.prefix "/redirect-step-" pathname then
    let stepNum := parseInt (default "1" (match_step pathname)) in
    (if (stepNum <? 3)%N
     then redirect_to
            ("/redirect-step-" +:+ pretty (stepNum + 1)%N +:+ ".ts")
     else redirect_to "/redirect-target.ts",
     count_redirect st)
  else if String.eqb pathname "/infinite-redirect.ts" then
    (redirect_to "/infinite-redirect.ts", st)
  else if String.eqb pathname "/versioned.ts" then
    let version := currentVersion st in
    let filePath :=
      path_join httpServerFixtures ("version-" +:+ version +:+ ".ts") in
    (match readFile filePath with
     | Some content =>
         Reply 200
           [("Content-Type", "application/typescript");
            ("ETag", String "034" (version +:+ String "034" EmptyString))]
           content
     | None => Reply 500 [] "Version file not found"
     end, st)
  else
    let filePath := path_join httpServerFixtures pathname in
    (match readFile filePath with
     | Some content =>
         Reply 200 [("Content-Type", "application/typescript")] content
     | None => Reply 404 text_plain ("File not found: " +:+ pathname)
     end, st).

(** *** A client that follows redirects *)

Definition header (name : string) (headers : list (string * string))
  : option string :=
  snd <$> List.find (fun h => String.eqb (fst h) name) headers.

(** Where a 3xx reply sends the client. *)
Definition location (r : reply) : option string :=
  match r with
  | Reply status headers _ =>
      if ((300 <=? status) && (status <? 400))%nat
      then header "Location" headers else None
  | Destroyed => None
  end.

(** Request [pathname], then each [Location] in turn, for at most [hops]
    redirects: the last reply and the server state after it. *)
Fixpoint follow (hops : nat) (pathname : string) (st : ServerState)
  : reply * ServerState :=
  let (r, st') := handler pathname st in
  match hops, location r with
  | S hops', Some next => follow hops' next st'
  | _, _ => (r, st')
  end.

End Handler.

(** The exchange ended with a reply that is no redirect, after [k]
    counted redirects and the requests [trace]. *)
Definition ended (k : nat) (trace : list string) (st : ServerState)
  (out : reply * ServerState) : Prop :=
  location (fst out) = None
  /\ redirectCount (snd out) = (redirectCount st + k)%nat
  /\ requestLog (snd out) = (requestLog st ++ trace)%list
  /\ shouldFail (snd out) = shouldFail st
  /\ currentVersion (snd out) = currentVersion st.

End TestServer.

(* ===================================================================== *)
(** ** funee-lib watcher utilities: createWatcher *)
(* ===================================================================== *)

Module Watcher.

Record WatchEvent : Type := { kind : string; path : string }.

(** [WatchResult], as [JSON.parse] reads the answer of [watchStart]. *)
Inductive WatchResult : Type :=
  | WatchOk (value : N)
  | WatchError (error : string).

(** The calls made to [host://watch], in order. *)
Inductive host_call : Type :=
  | WatchStart (path : string) (recursive : bool)
  | WatchPoll (id : N)
  | WatchStop (id : N).

(** Where the body of the async generator stands: not started, suspended
    at [yield event] with the rest of the batch still to go, suspended at
    the [await] of the poll interval, returned, or ended by an error of
    [JSON.parse]. *)
Inductive position : Type :=
  | Start
  | AtYield (rest : list WatchEvent)
  | Sleeping
  | Finished
  | Threw.

(** What drives a watcher: the generator is resumed (by [next()] or by
    the timer), or [stop()] is called while it is suspended. *)
Inductive action : Type := Resume | Stop.

Definition stop_requested (acts : list action) : bool :=
  existsb (fun a => match a with Stop => true | Resume => false end) acts.

Section WithHost.

(** [watchStart] (followed by the [JSON.parse] of [parseWatchResult]),
    [watchPoll] and [watchStop] on an explicit host state, and the
    [JSON.parse] of a batch of events ([None] when it throws). *)
Variable host : Type.
Variable watchStart : string -> bool -> host -> WatchResult * host.
Variable watchPoll : N -> host -> string * host.
Variable watchStop : N -> host -> host.
Variable JSON_parse : string -> option (list WatchEvent).

(** The closure of [createWatcher]: [watcherId], [stopped], the state of
    its generator, the host, and the host calls made so far. *)
Record watcher : Type := {
  watcherId : N;
  stopped : bool;
  pos : position;
  world : host;
  calls : list host_call
}.

(** [createWatcher(path, recursive)]: [inl error] when [parseWatchResult]
    throws. *)
Definition createWatcher (path : string) (recursive : bool) (h : host)
  : string + watcher :=
  match watchStart path recursive h with
  | (WatchError error, _) => inl error
  | (WatchOk watcherId, h') =>
      inr {| watcherId := watcherId; stopped := false; pos := Start;
             world := h'; calls := [WatchStart path recursive] |}
  end.

Definition watchFile (path : string) (h : host) : string + watcher :=
  createWatcher path false h.

(** [options?.recursive ?? false]. *)
Definition watchDirectory (path : string) (options : option (option bool))
  (h : host) : string + watcher :=
  let recursive := default false (options ≫= id) in
  createWatcher path recursive h.

(** [stop()]. *)
Definition stop (w : watcher) : watcher :=
  if stopped w then w
  else {| watcherId := watcherId w; stopped := true; pos := pos w;
          world := watchStop (watcherId w) (world w);
          calls := (calls w ++ [WatchStop (watcherId w)])%list |}.

Definition at_position (p : position) (w : watcher) : watcher :=
  {| watcherId := watcherId w; stopped := stopped w; pos := p;
     world := world w; calls := calls w |}.

(** [for (const event of events) yield event;] up to its next [yield],
    or through to the [await] after the loop. *)
Definition for_of (events : list WatchEvent) (w : watcher)
  : option WatchEvent * watcher :=
  match events with
  | event :: rest => (Some event, at_position (AtYield rest) w)
  | [] => (None, at_position Sleeping w)
  end.

(** From the test of [while (!stopped)] to the next suspension. *)
Definition loop_top (w : watcher) : option WatchEvent * watcher :=
  if stopped w then (None, at_position Finished w)
  else
    let (eventsJson, h) := watchPoll (watcherId w) (world w) in
    let w' := {| watcherId := watcherId w; stopped := stopped w;
                 pos := pos w; world := h;
                 calls := (calls w ++ [WatchPoll (watcherId w)])%list |} in
    if String.eqb eventsJson "null" then (None, at_position Sleeping w')
    else
      match JSON_parse eventsJson with
      | Some events => for_of events w'
      | None => (None, at_position Threw w')
      end.

(** The generator runs from one suspension to the next: the event it
    yields, if any. *)
Definition resume (w : watcher) : option WatchEvent * watcher :=
  match pos w with
  | Start => loop_top w
  | AtYield rest => for_of rest w
  | Sleeping => loop_top w
  | Finished => (None, w)
  | Threw => (None, w)
  end.

(** The events yielded over a sequence of actions. *)
Fixpoint run (acts : list action) (w : watcher)
  : list WatchEvent * watcher :=
  match acts with
  | [] => ([], w)
  | Resume :: acts' =>
      let (event, w') := resume w in
      let (events, w'') := run acts' w' in
      ((option_list event ++ events)%list, w'')
  | Stop :: acts' => run acts' (stop w)
  end.

(** The [watchStop] call a stopped watcher has made. *)
Definition stop_calls (w : watcher) : list host_call :=
  if stopped w then [WatchStop (watcherId w)] else [].

(** The host calls of [w] are [prefix], then polls, then the one
    [watchStop] if it is stopped. *)
Definition tidy (prefix : list host_call) (w : watcher) : Prop :=
  exists polls : nat,
    calls w
    = (prefix ++ replicate polls (WatchPoll (watcherId w))
         ++ stop_calls w)%list.

End WithHost.

End Watcher.

(* ===================================================================== *)
(** ** Test fixtures of the repository, as inputs of the model *)
(* ===================================================================== *)

Module Fixtures.
Import Fetcher Bundler.

(** **** Macro fixtures *)

(** A parser for the expressions the fixture macros return: numbers,
    identifiers, string literals without escapes, calls, parentheses and
    left-associative binary operators, the comma operator being the
    weakest. *)
Inductive token :=
| TIdent (x : string)
| TNum (n : Z)
| TStr (s : string)
| TPunct (p : string).

Definition is_digit (c : ascii) : bool :=
  let n := Ascii.N_of_ascii c in ((48 <=? n) && (n <=? 57))%N.
Definition is_letter (c : ascii) : bool :=
  let n := Ascii.N_of_ascii c in
  ((65 <=? n) && (n <=? 90) || (97 <=? n) && (n <=? 122)
   || (n =? 95) || (n =? 36))%N.
Definition is_space (c : ascii) : bool :=
  let n := Ascii.N_of_ascii c in ((n =? 32) || (n =? 10) || (n =? 9))%N.
Definition is_quote (c : ascii) : bool :=
  let n := Ascii.N_of_ascii c in ((n =? 34) || (n =? 39) || (n =? 96))%N.

Fixpoint span (p : ascii -> bool) (cs : list ascii)
  : list ascii * list ascii :=
  match cs with
  | c :: cs' =>
      if p c then let '(taken, rest) := span p cs' in (c :: taken, rest)
      else ([], cs)
  | [] => ([], [])
  end.

Definition digits_Z (cs : list ascii) : Z :=
  fold_left (fun acc c => 10 * acc + (Z.of_N (Ascii.N_of_ascii c) - 48)) cs 0.

Fixpoint tokenize (fuel : nat) (cs : list ascii) : option (list token) :=
  match fuel with
  | O => match cs with [] => Some [] | _ => None end
  | S fuel' =>
      match cs with
      | [] => Some []
      | c :: cs' =>
          if is_space c then tokenize fuel' cs'
          else if is_digit c then
            let '(ds, rest) := span is_digit cs in
            cons (TNum (digits_Z ds)) <$> tokenize fuel' rest
          else if is_letter c then
            let '(xs, rest) := span (fun a => is_letter a || is_digit a) cs in
            cons (TIdent (string_of_list_ascii xs)) <$> tokenize fuel' rest
          else if is_quote c then
            let '(body, rest) := span (fun a => negb (Ascii.eqb a c)) cs' in
            match rest with
            | _ :: rest' =>
                cons (TStr (string_of_list_ascii body))
                  <$> tokenize fuel' rest'
            | [] => None
            end
          else
            match cs with
            | "="%char :: "="%char :: "="%char :: rest =>
                cons (TPunct "===") <$> tokenize fuel' rest
            | _ =>
                cons (TPunct (String c EmptyString)) <$> tokenize fuel' cs'
            end
      end
  end.

Definition precedence (op : string) : option nat :=
  if String.eqb op "," then Some 0%nat
  else if String.eqb op "===" then Some 2%nat
  else if String.eqb op "<" || String.eqb op ">" then Some 3%nat
  else if String.eqb op "+" || String.eqb op "-" then Some 4%nat
  else if String.eqb op "*" || String.eqb op "/" then Some 5%nat
  else None.

Definition closes (ts : list token) : bool :=
  match ts with
  | TPunct p :: _ => String.eqb p ")"
  | _ => false
  end.

Fixpoint parse_expr (fuel : nat) (min : nat) (ts : list token)
  : option (expr * list token) :=
  match fuel with
  | O => None
  | S fuel' =>
      match parse_primary fuel' ts with
      | Some (e, rest) => parse_tail fuel' min e rest
      | None => None
      end
  end
with parse_primary (fuel : nat) (ts : list token)
  : option (expr * list token) :=
  match fuel with
  | O => None
  | S fuel' =>
      match ts with
      | TNum n :: rest => Some (Num n, rest)
      | TIdent x :: rest => Some (Ident x, rest)
      | TStr s :: rest => Some (Str s, rest)
      | TPunct p :: rest =>
          if String.eqb p "(" then
            match parse_expr fuel' 0 rest with
            | Some (e, TPunct q :: rest') =>
                if String.eqb q ")" then Some (Paren e, rest') else None
            | _ => None
            end
          else None
      | [] => None
      end
  end
with parse_tail (fuel : nat) (min : nat) (lhs : expr) (ts : list token)
  : option (expr * list token) :=
  match fuel with
  | O => None
  | S fuel' =>
      match ts with
      | TPunct p :: rest =>
          if String.eqb p "(" then
            match parse_args fuel' rest with
            | Some (args, rest') => parse_tail fuel' min (Call lhs args) rest'
            | None => None
            end
          else
            match precedence p with
            | Some prec =>
                if (min <=? prec)%nat then
                  match parse_expr fuel' (S prec) rest with
                  | Some (rhs, rest') =>
                      parse_tail fuel' min (Binary p lhs rhs) rest'
                  | None => None
                  end
                else Some (lhs, ts)
            | None => Some (lhs, ts)
            end
      | _ => Some (lhs, ts)
      end
  end
with parse_args (fuel : nat) (ts : list token)
  : option (list expr * list token) :=
  match fuel with
  | O => None
  | S fuel' =>
      if closes ts then Some ([], List.tl ts)
      else
        match parse_expr fuel' 1 ts with
        | Some (a, TPunct p :: rest) =>
            if String.eqb p ")" then Some ([a], rest)
            else if String.eqb p "," then
              match parse_args fuel' rest with
              | Some (a' :: args, rest') => Some (a :: a' :: args, rest')
              | _ => None
              end
            else None
        | _ => None
        end
  end.

Definition fixture_parse (s : string) : error + expr :=
  let cs := list_ascii_of_string s in
  match tokenize (length cs) cs with
  | Some ts =>
      match parse_expr (4 * S (length ts)) 0 ts with
      | Some (e, []) => inr e
      | _ => inl (ParseError "macro result" ("unexpected token in " +:+ s))
      end
  | None => inl (ParseError "macro result" ("unterminated string in " +:+ s))
  end.

(** The macro bodies below stand for the source text of the fixtures'
    macro functions; [run_fixture_macro] is what the sandboxed evaluator
    computes for each of them.  A body that reads [arg.expression] throws
    when it is called without an argument; no record is returned then. *)
Definition addOne_fn : expr := Arrow ["arg"] (Str "simple_macro.ts: addOne").
Definition debug_fn : expr :=
  Arrow ["arg"] (Str "debug_sequence_macro.ts: debug").
Definition infinite_fn : expr :=
  Arrow [] (Str "infinite_macro.ts: infinite").

Definition double_quote : string := String "034"%char EmptyString.

Definition run_fixture_macro (fn : expr) (cls : list closure)
  : error + closure :=
  match fn with
  | Arrow _ (Str "simple_macro.ts: addOne") =>
      (* arg => ({ expression: '(' + arg.expression + ') + 1',
                   references: new Map() }) *)
      match cls with
      | arg :: _ => inr (Closure ("(" +:+ expression arg +:+ ") + 1") ∅)
      | [] => inl MacroReturnShape
      end
  | Arrow _ (Str "debug_sequence_macro.ts: debug") =>
      (* expression: `(log([DEBUG] Expression type: ${exprType}),
                      (${arg.expression}))`, with the message in double
         quotes; references: arg.references *)
      match cls with
      | arg :: _ =>
          let exprType :=
            if Text.contains "+" (expression arg)
            then "BinaryExpression" else "Expression" in
          inr (Closure
                 ("(log(" +:+ double_quote +:+ "[DEBUG] Expression type: "
                  +:+ exprType +:+ double_quote +:+ "), ("
                  +:+ expression arg +:+ "))")
                 (references arg))
      | [] => inl MacroReturnShape
      end
  | Arrow _ (Str "infinite_macro.ts: infinite") =>
      (* () => ({ expression: 'infinite(0)', references: new Map() }) *)
      inr (Closure "infinite(0)" ∅)
  | _ => inl MacroReturnShape
  end.

Definition simple_ts : string := "file:///fixtures/macro/simple_macro.ts".
Definition debug_ts : string :=
  "file:///fixtures/macro/debug_sequence_macro.ts".
Definition infinite_ts : string :=
  "file:///fixtures/macro/infinite_macro.ts".
Definition host_log : canonical := Canonical "host://console" "log".

(** Every fixture declares [const createMacro = (fn: any) => fn]. *)
Definition createMacro_decl (module : string) : declaration :=
  declare (Canonical module "createMacro") (Arrow ["fn"] (Ident "fn")) ∅.

(** Spec 8, scenario 3: [addOne = createMacro(...)], the default export
    computes [addOne(5)]. *)
Definition simple_macro : graph :=
  {| decls :=
       [ declare (Canonical simple_ts "default")
           (Arrow [] (Call (Ident "log") [Call (Ident "addOne") [Num 5]]))
           {[ "log" := host_log; "addOne" := Canonical simple_ts "addOne" ]};
         declare (Canonical simple_ts "addOne")
           (Call (Ident "createMacro") [addOne_fn])
           {[ "createMacro" := Canonical simple_ts "createMacro" ]};
         createMacro_decl simple_ts ];
     entry := Canonical simple_ts "default" |}.

(** tests/fixtures/macro/debug_sequence_macro.ts. *)
Definition debug_sequence_macro : graph :=
  {| decls :=
       [ declare (Canonical debug_ts "default")
           (Arrow [] (Call (Ident "log")
                        [Binary "+" (Str "debug:result=") (Ident "result")]))
           {[ "log" := host_log; "result" := Canonical debug_ts "result" ]};
         declare (Canonical debug_ts "result")
           (Call (Ident "debug") [Binary "+" (Ident "x") (Ident "y")])
           {[ "debug" := Canonical debug_ts "debug";
              "x" := Canonical debug_ts "x";
              "y" := Canonical debug_ts "y" ]};
         declare (Canonical debug_ts "debug")
           (Call (Ident "createMacro") [debug_fn])
           {[ "createMacro" := Canonical debug_ts "createMacro" ]};
         declare (Canonical debug_ts "x") (Num 5) ∅;
         declare (Canonical debug_ts "y") (Num 10) ∅;
         createMacro_decl debug_ts ];
     entry := Canonical debug_ts "default" |}.

(** A macro that always expands to a call of itself (spec 8,
    scenario 4; the fixture file of the test is not among the sources):
    [const infinite = createMacro(() => ({ expression: 'infinite(0)',
    references: new Map() }))] and [const result = infinite(0)]. *)
Definition infinite_macro : graph :=
  {| decls :=
       [ declare (Canonical infinite_ts "default")
           (Arrow [] (Call (Ident "log") [Ident "result"]))
           {[ "log" := host_log;
              "result" := Canonical infinite_ts "result" ]};
         declare (Canonical infinite_ts "result")
           (Call (Ident "infinite") [Num 0])
           {[ "infinite" := Canonical infinite_ts "infinite" ]};
         declare (Canonical infinite_ts "infinite")
           (Call (Ident "createMacro") [infinite_fn])
           {[ "createMacro" := Canonical infinite_ts "createMacro" ]};
         createMacro_decl infinite_ts ];
     entry := Canonical infinite_ts "default" |}.

(** The collaborators of a run on these fixtures: every fixture module
    imports [log] and nothing else, and the graph builder answers with
    the graph of the entry module. *)
Definition fixture_imports (uri text : string) : error + list string :=
  inr (if Fetcher.is_host uri then [] else ["host://console"]).

Definition fixture_graph (store : list (string * string)) : error + graph :=
  match store with
  | (entry_uri, _) :: _ =>
      if String.eqb entry_uri simple_ts then inr simple_macro
      else if String.eqb entry_uri debug_ts then inr debug_sequence_macro
      else if String.eqb entry_uri infinite_ts then inr infinite_macro
      else inl (MissingExport entry_uri "default")
  | [] => inl (MissingExport EmptyString "default")
  end.

(** The fixture files on the local disk, no network. *)
Definition macro_env : env :=
  {| reload := false;
     files := {[ simple_ts := "export default () => log(addOne(5));";
                 debug_ts := "export default () => log(`debug:result=${result}`);";
                 infinite_ts := "export default () => log(result);" ]};
     net := fun _ => Transport |}.

(** What the command line shows for simple_macro.ts with [--emit]. *)
Definition simple_outcome : outcome :=
  {| exit_status := 0;
     stdout :=
       String.concat (String "010"%char EmptyString)
         [ "const log = host(`host://console`).log;";
           "const declaration_0 = () => log((5) + 1);" ];
     stderr := [] |}.

Definition no_cache : state :=
  {| cache := ∅; requests := []; diagnostics := [] |}.

(** tests/cli.test.ts, "second run uses cache": a module URL with a query
    string, served with a 2xx. *)
Definition utils_url : string :=
  "http://localhost:8080/utils.ts?cache-test=1".
Definition utils_body : string :=
  "export const helper = () => `helper from HTTP utils`;".
Definition utils_net : network :=
  fun u => if String.eqb u utils_url then Success utils_body else Failure 404.
Definition utils_env : env :=
  {| reload := false; files := ∅; net := utils_net |}.

(** tests/cli.test.ts, "prevents infinite redirect loops": every response
    is a redirect to the same URL, and the entry module on the local disk
    imports from that URL. *)
Definition loop_url : string := "http://localhost:8080/infinite-redirect.ts".
Definition loop_net : network := fun _ => Redirect loop_url.
Definition loop_entry : string := "file:///tmp/infinite-redirect.ts".
Definition loop_env : env :=
  {| reload := false;
     files := {[ loop_entry := "import loop from `http://localhost:8080/infinite-redirect.ts`; export default function() { loop(); }" ]};
     net := loop_net |}.
Definition loop_imports (uri text : string) : error + list string :=
  inr (if String.eqb uri loop_entry then [loop_url] else []).

(** An in-memory host file system that knows no directories: paths to
    contents. *)
Definition mem_disk : Type := gmap string string.
Definition mem_exists (p : string) (d : mem_disk) : bool :=
  bool_decide (is_Some (d !! p)).
Definition mem_readFile (p : string) (d : mem_disk)
  : Memoize.FsResult string :=
  match d !! p with
  | Some content => Memoize.FsOk content
  | None => Memoize.FsError "ENOENT"
  end.
Definition mem_writeFile (p content : string) (d : mem_disk)
  : Memoize.FsResult unit * mem_disk :=
  (Memoize.FsOk tt, <[p := content]> d).

(** A host file system with directories.  [.] is always a directory; a
    directory is made, and a file is written, only inside a directory
    that exists, and neither replaces the other. *)
Record dir_disk : Type := {
  folders : gset string;
  contents : gmap string string
}.

(** The part of a path before its last slash, [.] when it has none. *)
Fixpoint parent_of (p : string) : option string :=
  match p with
  | EmptyString => None
  | String c p' =>
      match parent_of p' with
      | Some q => Some (String c q)
      | None => if Ascii.eqb c "/" then Some EmptyString else None
      end
  end.
Definition dirname (p : string) : string := default "." (parent_of p).

Definition is_dir (p : string) (d : dir_disk) : bool :=
  String.eqb p "." || bool_decide (p ∈ folders d).
Definition dir_exists (p : string) (d : dir_disk) : bool :=
  is_dir p d || bool_decide (is_Some (contents d !! p)).
Definition dir_mkdir (p : string) (d : dir_disk) : dir_disk :=
  if is_dir (dirname p) d && negb (dir_exists p d)
  then {| folders := {[ p ]} ∪ folders d; contents := contents d |}
  else d.
Definition dir_readFile (p : string) (d : dir_disk)
  : Memoize.FsResult string :=
  match contents d !! p with
  | Some content => Memoize.FsOk content
  | None => Memoize.FsError "ENOENT"
  end.
Definition dir_writeFile (p content : string) (d : dir_disk)
  : Memoize.FsResult unit * dir_disk :=
  if is_dir (dirname p) d && negb (is_dir p d)
  then (Memoize.FsOk tt,
        {| folders := folders d;
           contents := <[p := content]> (contents d) |})
  else (Memoize.FsError "ENOENT", d).

(** **** Hosts for the library functions *)

(** Results that are natural numbers or [undefined] ([None]), with
    [JSON.stringify] and [JSON.parse] on them: a number is printed in
    decimal, and of the texts only a run of decimal digits without a
    leading zero is read back as a number; every other text is taken as
    malformed, as [JSON.parse] does for a text that is no JSON. *)
Fixpoint digits_value (acc : N) (t : string) : option N :=
  match t with
  | EmptyString => Some acc
  | String c t' =>
      let n := Ascii.N_of_ascii c in
      if ((48 <=? n) && (n <=? 57))%N
      then digits_value (10 * acc + (n - 48))%N t'
      else None
  end.
Definition stringify_number (r : option N) : string :=
  match r with
  | Some n => pretty n
  | None => "null"
  end.
Definition parse_number (t : string) : Memoize.settled (option N) :=
  match t with
  | EmptyString => Memoize.Rejected "SyntaxError: Unexpected end of JSON input"
  | String "0" (String _ _) =>
      Memoize.Rejected "SyntaxError: Unexpected number in JSON"
  | _ =>
      match digits_value 0 t with
      | Some n => Memoize.Resolved (Some n)
      | None => Memoize.Rejected "SyntaxError: Unexpected token in JSON"
      end
  end.

(** The memoized function of [memoizeInFS("f", fn)] over the host with
    directories, for any [fn]. *)
Definition memo_with (fn : list string -> Memoize.settled (option N))
  : list string -> Memoize.memo_state (option N) dir_disk ->
    Memoize.returned (option N) * Memoize.memo_state (option N) dir_disk :=
  Memoize.memoized string (option N) dir_disk id
    None (fun r => match r with None => true | Some _ => false end)
    stringify_number parse_number
    dir_exists dir_mkdir dir_readFile dir_writeFile "f" fn.

(** [(...xs) => xs.length], and a function that always throws. *)
Definition count_fn (xs : list string) : Memoize.settled (option N) :=
  Memoize.Resolved (Some (N.of_nat (length xs))).
Definition failing_fn (xs : list string) : Memoize.settled (option N) :=
  Memoize.Rejected "boom".

(** A closure that has not been called yet, in a working directory that
    is empty. *)
Definition fresh_memo : Memoize.memo_state (option N) dir_disk :=
  {| Memoize.inProgress := ∅;
     Memoize.fs := {| folders := ∅; contents := ∅ |} |}.

(** A closure that has not been called yet, on a disk that already holds
    the cache file of the call [f("a")]. *)
Definition warm_memo : Memoize.memo_state (option N) dir_disk :=
  {| Memoize.inProgress := ∅;
     Memoize.fs := {| folders := {[ "./cache" ]};
                      contents := {[ "./cache/f_a" := "42" ]} |} |}.

(** A host of [cryptoRandomString] that counts up from zero. *)
Definition counting_bytes (k : nat) : list byte :=
  omap (fun n => Byte.of_N (N.of_nat n)) (seq 0 k).

(** The state [startTestServer] begins with, and a fixtures directory
    that holds no file. *)
Definition fresh_server : TestServer.ServerState :=
  {| TestServer.shouldFail := false;
     TestServer.redirectCount := 0;
     TestServer.currentVersion := "v1";
     TestServer.requestLog := [] |}.
Definition plain_join (dir name : string) : string := dir +:+ name.
Definition no_file (filePath : string) : option string := None.

(** A watch host that answers [watchPoll] from a queue of texts, and a
    stand-in for [JSON.parse] that reads every text as a batch of two
    events. *)
Definition queue_start (path : string) (recursive : bool) (h : list string)
  : Watcher.WatchResult * list string :=
  (Watcher.WatchOk 7, h).
Definition queue_poll (id : N) (h : list string) : string * list string :=
  match h with
  | [] => ("null", [])
  | eventsJson :: h' => (eventsJson, h')
  end.
Definition queue_stop (id : N) (h : list string) : list string := [].
Definition two_events (eventsJson : string) : option (list Watcher.WatchEvent) :=
  Some [ {| Watcher.kind := "create"; Watcher.path := eventsJson |};
         {| Watcher.kind := "modify"; Watcher.path := eventsJson |} ].

End Fixtures.

(* ===================================================================== *)
(** * Properties *)
(* ===================================================================== *)

(** ** Strings *)

Module StringFacts.

Lemma length_app (s1 s2 : string) :
  String.length (s1 +:+ s2) = (String.length s1 + String.length s2)%nat.
Proof. induction s1 as [|c s1 IH]; simpl; [reflexivity | now rewrite IH]. Qed.

Lemma length_substring0 (n : nat) (s : string) :
  String.length (String.substring 0 n s) = Nat.min n (String.length s).
Proof.
  revert n; induction s as [|c s IH]; intros [|n]; simpl; try reflexivity.
  now rewrite IH.
Qed.

Lemma all_chars_app (p : ascii -> bool) (s1 s2 : string) :
  CryptoRandom.all_chars p (s1 +:+ s2)
  = CryptoRandom.all_chars p s1 && CryptoRandom.all_chars p s2.
Proof.
  induction s1 as [|c s1 IH]; simpl; [reflexivity|].
  now rewrite IH, andb_assoc.
Qed.

Lemma all_chars_substring0 (p : ascii -> bool) (n : nat) (s : string) :
  CryptoRandom.all_chars p s = true ->
  CryptoRandom.all_chars p (String.substring 0 n s) = true.
Proof.
  revert n; induction s as [|c s IH]; intros [|n]; simpl; try reflexivity.
  intros H; apply andb_true_iff in H as [Hc Hs].
  now rewrite Hc, IH.
Qed.

Lemma app_assoc (s1 s2 s3 : string) :
  (s1 +:+ s2) +:+ s3 = s1 +:+ (s2 +:+ s3).
Proof.
  induction s1 as [|c s1 IH]; [reflexivity|].
  change (String c ((s1 +:+ s2) +:+ s3) = String c (s1 +:+ (s2 +:+ s3))).
  now rewrite IH.
Qed.

Lemma app_empty_r (s : string) : s +:+ EmptyString = s.
Proof.
  induction s as [|c s IH]; [reflexivity|].
  change (String c (s +:+ EmptyString) = String c s). now rewrite IH.
Qed.

Lemma get_app_r (s1 s2 : string) (k : nat) :
  String.get (k + String.length s1) (s1 +:+ s2) = String.get k s2.
Proof.
  induction s1 as [|c s1 IH].
  - simpl. now rewrite Nat.add_0_r.
  - change (String c s1 +:+ s2) with (String c (s1 +:+ s2)).
    simpl. now rewrite Nat.add_succ_r.
Qed.

End StringFacts.

(** ** base64Encode and base64Decode *)

Module Base64Facts.
Import JS Base64.

Lemma all_bytes_complete (b : byte) : b ∈ all_bytes.
Proof.
  assert (H : existsb (fun b' => bool_decide (b' = b)) all_bytes = true)
    by (destruct b; vm_compute; reflexivity).
  apply existsb_exists in H as (b' & Hin & Hb).
  apply bool_decide_eq_true in Hb as <-. now apply list_elem_of_In.
Qed.

(** The encoder is the standard one. *)
Example encode_Man :
  base64Encode ["M"%byte; "a"%byte; "n"%byte] = "TWFu"
  /\ base64Encode ["M"%byte; "a"%byte] = "TWE="
  /\ base64Encode ["M"%byte] = "TQ==".
Proof. repeat split; vm_compute; reflexivity. Qed.

(** C8 fails on the code: the two bytes "Ma" encode to "TWE=", and
    decoding that gives back the single byte "M".  The guards
    [i - 1 < len] and [i < len] of the decoder are tested after [i] has
    moved past the group, so they are off by one: the last byte of the
    last group is kept only when that group holds one byte. *)
Theorem decode_encode_drops_a_byte :
  base64Encode ["M"%byte; "a"%byte] = "TWE="
  /\ base64Decode (base64Encode ["M"%byte; "a"%byte]) = ["M"%byte]
  /\ length (base64Decode (base64Encode ["M"%byte; "a"%byte])) <> 2%nat
  /\ base64Decode (base64Encode ["M"%byte; "a"%byte; "n"%byte])
     = ["M"%byte; "a"%byte].
Proof. repeat split; vm_compute; (reflexivity || discriminate). Qed.

(** *** What the decoder makes of every encoding *)

Lemma for_all_pairs (P : byte -> byte -> bool) :
  forallb (fun x => forallb (P x) all_bytes) all_bytes = true ->
  forall x y, P x y = true.
Proof.
  intros H x y. rewrite forallb_forall in H.
  specialize (H x (proj1 (list_elem_of_In _ _) (all_bytes_complete x))).
  rewrite forallb_forall in H.
  exact (H y (proj1 (list_elem_of_In _ _) (all_bytes_complete y))).
Qed.

Lemma pair_facts (x y : byte) :
  (* the characters of the alphabet are read back as their index *)
  lookup_char (b64char (sextet1 (byteZ x))) = sextet1 (byteZ x)
  /\ lookup_char (b64char (sextet2 (byteZ x) (byteZ y))) = sextet2 (byteZ x) (byteZ y)
  /\ lookup_char (b64char (sextet3 (byteZ x) (byteZ y))) = sextet3 (byteZ x) (byteZ y)
  /\ lookup_char (b64char (sextet4 (byteZ x))) = sextet4 (byteZ x)
  (* and are what the encoder appends *)
  /\ append_index EmptyString BASE64_CHARS (sextet1 (byteZ x))
     = String (b64char (sextet1 (byteZ x))) EmptyString
  /\ append_index EmptyString BASE64_CHARS (sextet2 (byteZ x) (byteZ y))
     = String (b64char (sextet2 (byteZ x) (byteZ y))) EmptyString
  /\ append_index EmptyString BASE64_CHARS (sextet3 (byteZ x) (byteZ y))
     = String (b64char (sextet3 (byteZ x) (byteZ y))) EmptyString
  /\ append_index EmptyString BASE64_CHARS (sextet4 (byteZ x))
     = String (b64char (sextet4 (byteZ x))) EmptyString
  (* none of them is the padding character *)
  /\ Ascii.eqb (b64char (sextet3 (byteZ x) (byteZ y))) "=" = false
  /\ Ascii.eqb (b64char (sextet4 (byteZ x))) "=" = false
  (* the three bytes of a group, recombined *)
  /\ to_u8 (Z.lor (Z.shiftl (sextet1 (byteZ x)) 2)
                  (Z.shiftr (sextet2 (byteZ x) (byteZ y)) 4)) = x
  /\ Z.land (sextet2 (byteZ x) (byteZ y)) 15 = Z.shiftr (byteZ y) 4
  /\ to_u8 (Z.lor (Z.shiftl (Z.shiftr (byteZ x) 4) 4)
                  (Z.shiftr (sextet3 (byteZ x) (byteZ y)) 2)) = x
  /\ to_u8 (Z.lor (Z.shiftl (Z.land (sextet3 (byteZ x) (byteZ y)) 3) 6)
                  (sextet4 (byteZ y))) = y.
Proof.
  revert x y. unfold lookup_char.
  assert (H : forall x y,
    (bool_decide (lookup_char (b64char (sextet1 (byteZ x))) = sextet1 (byteZ x))
     && bool_decide (lookup_char (b64char (sextet2 (byteZ x) (byteZ y)))
                     = sextet2 (byteZ x) (byteZ y))
     && bool_decide (lookup_char (b64char (sextet3 (byteZ x) (byteZ y)))
                     = sextet3 (byteZ x) (byteZ y))
     && bool_decide (lookup_char (b64char (sextet4 (byteZ x))) = sextet4 (byteZ x))
     && bool_decide (append_index EmptyString BASE64_CHARS (sextet1 (byteZ x))
                     = String (b64char (sextet1 (byteZ x))) EmptyString)
     && bool_decide (append_index EmptyString BASE64_CHARS
                       (sextet2 (byteZ x) (byteZ y))
                     = String (b64char (sextet2 (byteZ x) (byteZ y))) EmptyString)
     && bool_decide (append_index EmptyString BASE64_CHARS
                       (sextet3 (byteZ x) (byteZ y))
                     = String (b64char (sextet3 (byteZ x) (byteZ y))) EmptyString)
     && bool_decide (append_index EmptyString BASE64_CHARS (sextet4 (byteZ x))
                     = String (b64char (sextet4 (byteZ x))) EmptyString)
     && negb (Ascii.eqb (b64char (sextet3 (byteZ x) (byteZ y))) "=")
     && negb (Ascii.eqb (b64char (sextet4 (byteZ x))) "=")
     && bool_decide (to_u8 (Z.lor (Z.shiftl (sextet1 (byteZ x)) 2)
                              (Z.shiftr (sextet2 (byteZ x) (byteZ y)) 4)) = x)
     && bool_decide (Z.land (sextet2 (byteZ x) (byteZ y)) 15
                     = Z.shiftr (byteZ y) 4)
     && bool_decide (to_u8 (Z.lor (Z.shiftl (Z.shiftr (byteZ x) 4) 4)
                              (Z.shiftr (sextet3 (byteZ x) (byteZ y)) 2)) = x)
     && bool_decide (to_u8 (Z.lor (Z.shiftl
                                     (Z.land (sextet3 (byteZ x) (byteZ y)) 3) 6)
                              (sextet4 (byteZ y))) = y))%bool = true).
  { apply for_all_pairs. vm_compute. reflexivity. }
  intros x y. specialize (H x y).
  repeat (apply andb_true_iff in H as [H ?]).
  repeat match goal with
         | H : bool_decide _ = true |- _ => apply bool_decide_eq_true in H
         | H : negb _ = true |- _ => apply negb_true_iff in H
         end.
  repeat split; assumption.
Qed.

Lemma append_index_app (result s : string) (i : Z) :
  append_index result s i = result +:+ append_index EmptyString s i.
Proof. unfold append_index. now destruct (if 0 <=? i then _ else _). Qed.

Lemma u8_get_app (pre suf : list byte) (k : nat) :
  u8_get (pre ++ suf) (length pre + k) = u8_get suf k.
Proof.
  unfold u8_get. rewrite lookup_app_r by lia.
  now replace (length pre + k - length pre)%nat with k by lia.
Qed.

Lemma u8_get_app0 (pre suf : list byte) :
  u8_get (pre ++ suf) (length pre) = u8_get suf 0.
Proof. rewrite <- (u8_get_app pre suf 0). now rewrite Nat.add_0_r. Qed.

Ltac decide_ltb :=
  repeat match goal with
    | |- context [(?a <? ?b)%nat] =>
        first [ replace (a <? b)%nat with true
                  by (symmetry; apply Nat.ltb_lt; cbn [length]; lia)
              | replace (a <? b)%nat with false
                  by (symmetry; apply Nat.ltb_ge; cbn [length]; lia) ]
    end.

(** One iteration of the encoder appends the group that starts at [i]. *)
Lemma encode_step_group (pre suf : list byte) (b1 : byte) (rest : list byte)
  (result : string) :
  suf = b1 :: rest ->
  encode_step (pre ++ suf) (length (pre ++ suf)) (length pre) result
  = result +:+ encode_group b1 (rest !! 0%nat) (rest !! 1%nat).
Proof.
  intros ->. unfold encode_step. rewrite List.length_app.
  rewrite u8_get_app0, !u8_get_app.
  destruct (pair_facts b1 b1) as (_ & _ & _ & _ & A1 & _).
  destruct rest as [|b2 [|b3 rest]]; cbn [length lookup list_lookup u8_get];
    decide_ltb; unfold encode_group; cbn [from_option].
  - destruct (pair_facts b1 x00) as (_ & _ & _ & _ & _ & A2 & _).
    fold (byteZ b1). change 0 with (byteZ x00).
    fold (sextet1 (byteZ b1)). fold (sextet2 (byteZ b1) (byteZ x00)).
    rewrite (append_index_app result), A1.
    rewrite (append_index_app (result +:+ _)), A2.
    now rewrite !StringFacts.app_assoc.
  - destruct (pair_facts b1 b2) as (_ & _ & _ & _ & _ & A2 & _).
    destruct (pair_facts b2 x00) as (_ & _ & _ & _ & _ & _ & A3 & _).
    fold (byteZ b1) (byteZ b2). change 0 with (byteZ x00).
    fold (sextet1 (byteZ b1)). fold (sextet2 (byteZ b1) (byteZ b2)).
    fold (sextet3 (byteZ b2) (byteZ x00)).
    rewrite (append_index_app result), A1.
    rewrite (append_index_app (result +:+ _)), A2.
    rewrite (append_index_app ((result +:+ _) +:+ _)), A3.
    now rewrite !StringFacts.app_assoc.
  - destruct (pair_facts b1 b2) as (_ & _ & _ & _ & _ & A2 & _).
    destruct (pair_facts b2 b3) as (_ & _ & _ & _ & _ & _ & A3 & _).
    destruct (pair_facts b3 b3) as (_ & _ & _ & _ & _ & _ & _ & A4 & _).
    fold (byteZ b1) (byteZ b2) (byteZ b3).
    fold (sextet1 (byteZ b1)). fold (sextet2 (byteZ b1) (byteZ b2)).
    fold (sextet3 (byteZ b2) (byteZ b3)). fold (sextet4 (byteZ b3)).
    rewrite (append_index_app result), A1.
    rewrite (append_index_app (result +:+ _)), A2.
    rewrite (append_index_app ((result +:+ _) +:+ _)), A3.
    rewrite (append_index_app (((result +:+ _) +:+ _) +:+ _)), A4.
    now rewrite !StringFacts.app_assoc.
Qed.

Lemma encode_loop_end (fuel : nat) (bytes : list byte) (len i : nat)
  (result : string) :
  (len <= i)%nat -> encode_loop fuel bytes len i result = result.
Proof.
  intros H. destruct fuel; simpl; [reflexivity|].
  now replace (i <? len)%nat with false by (symmetry; apply Nat.ltb_ge; lia).
Qed.

(** The loop of the encoder appends the groups of the remaining bytes. *)
Lemma encode_loop_groups (fuel : nat) :
  forall pre suf result,
    (length suf <= fuel)%nat ->
    encode_loop fuel (pre ++ suf) (length (pre ++ suf)) (length pre) result
    = result +:+ encode_groups suf.
Proof.
  induction fuel as [|fuel IH]; intros pre suf result Hfuel.
  - destruct suf; [|simpl in Hfuel; lia]. simpl. now rewrite StringFacts.app_empty_r.
  - destruct suf as [|b1 rest].
    + rewrite encode_loop_end by (rewrite app_nil_r; lia).
      simpl. now rewrite StringFacts.app_empty_r.
    + cbn [encode_loop].
      replace (length pre <? length (pre ++ b1 :: rest))%nat with true
        by (symmetry; apply Nat.ltb_lt; rewrite List.length_app; simpl; lia).
      rewrite (encode_step_group pre (b1 :: rest) b1 rest result eq_refl).
      destruct rest as [|b2 [|b3 rest]].
      * apply encode_loop_end. rewrite List.length_app. simpl. lia.
      * apply encode_loop_end. rewrite List.length_app. simpl. lia.
      * replace (pre ++ b1 :: b2 :: b3 :: rest)%list
          with ((pre ++ [b1; b2; b3]) ++ rest)%list
          by now rewrite <- app_assoc.
        replace (length pre + 3)%nat with (length (pre ++ [b1; b2; b3])%list)
          by (rewrite List.length_app; reflexivity).
        rewrite IH by (simpl in Hfuel; lia).
        cbn [encode_groups lookup list_lookup]. now rewrite StringFacts.app_assoc.
Qed.

Lemma base64Encode_groups (bytes : list byte) :
  base64Encode bytes = encode_groups bytes.
Proof.
  unfold base64Encode.
  exact (encode_loop_groups (length bytes) [] bytes EmptyString
           (Nat.le_refl _)).
Qed.

Lemma list_ind3 {A} (P : list A -> Prop) :
  P [] -> (forall a, P [a]) -> (forall a b, P [a; b]) ->
  (forall a b c l, P l -> P (a :: b :: c :: l)) ->
  forall l, P l.
Proof.
  intros H0 H1 H2 H3.
  fix IH 1. intros [|a [|b [|c l]]]; [exact H0 | apply H1 | apply H2 |].
  apply H3, IH.
Qed.

Lemma strip_pad_at (s : string) (n : nat) (c : ascii) :
  String.get n s = Some c ->
  strip_pad s (S n) = if Ascii.eqb c "=" then n else S n.
Proof. intros H. unfold strip_pad, str_index. now rewrite H. Qed.

Lemma length_encode_group b1 b2 b3 :
  String.length (encode_group b1 b2 b3) = 4%nat.
Proof. reflexivity. Qed.

(** The length the decoder works with, once the padding is stripped. *)
Lemma strip_pad_groups (suf : list byte) :
  suf <> [] ->
  forall spre,
    strip_pad (spre +:+ encode_groups suf)
      (strip_pad (spre +:+ encode_groups suf)
         (String.length (spre +:+ encode_groups suf)))
    = (String.length spre + stripped_length (length suf))%nat.
Proof.
  induction suf as [|b1|b1 b2|b1 b2 b3 rest IH] using list_ind3;
    intros Hne spre; [congruence| | |].
  - rewrite StringFacts.length_app. cbn [encode_groups length stripped_length].
    rewrite length_encode_group.
    replace (String.length spre + 4)%nat with (S (3 + String.length spre))
      by lia.
    rewrite (strip_pad_at _ _ "="%char)
      by (rewrite StringFacts.get_app_r; reflexivity).
    cbn [Ascii.eqb Bool.eqb].
    change (3 + String.length spre)%nat with (S (2 + String.length spre)).
    rewrite (strip_pad_at _ _ "="%char)
      by (rewrite StringFacts.get_app_r; reflexivity).
    cbn [Ascii.eqb Bool.eqb]. lia.
  - rewrite StringFacts.length_app. cbn [encode_groups length stripped_length].
    rewrite length_encode_group.
    replace (String.length spre + 4)%nat with (S (3 + String.length spre))
      by lia.
    rewrite (strip_pad_at _ _ "="%char)
      by (rewrite StringFacts.get_app_r; reflexivity).
    cbn [Ascii.eqb Bool.eqb].
    change (3 + String.length spre)%nat with (S (2 + String.length spre)).
    destruct (pair_facts b2 x00) as (_ & _ & _ & _ & _ & _ & _ & _ & Hpad & _).
    rewrite (strip_pad_at _ _ (b64char (sextet3 (byteZ b2) (byteZ x00))))
      by (rewrite StringFacts.get_app_r; reflexivity).
    rewrite Hpad. lia.
  - destruct rest as [|b4 rest].
    + rewrite StringFacts.length_app. cbn [encode_groups length stripped_length].
      rewrite StringFacts.app_empty_r, length_encode_group.
      replace (String.length spre + 4)%nat with (S (3 + String.length spre))
        by lia.
      destruct (pair_facts b3 b3)
        as (_ & _ & _ & _ & _ & _ & _ & _ & _ & Hpad & _).
      rewrite !(strip_pad_at _ _ (b64char (sextet4 (byteZ b3))))
        by (rewrite StringFacts.get_app_r; reflexivity).
      rewrite Hpad.
      rewrite !(strip_pad_at _ _ (b64char (sextet4 (byteZ b3))))
        by (rewrite StringFacts.get_app_r; reflexivity).
      rewrite Hpad. lia.
    + cbn [encode_groups] in *. rewrite <- StringFacts.app_assoc.
      rewrite IH by discriminate.
      rewrite StringFacts.length_app, length_encode_group.
      cbn [length stripped_length]. lia.
Qed.

Lemma charCodeAt_app (spre t : string) (k : nat) :
  charCodeAt (spre +:+ t) (k + String.length spre) = charCodeAt t k.
Proof. unfold charCodeAt. now rewrite StringFacts.get_app_r. Qed.

(** One iteration of the decoder reads the four characters at [i]. *)
Lemma decode_step_read (spre srest : string) (g0 g1 g2 g3 : ascii)
  (len p : nat) (out : list byte) :
  decode_step lookup_table
    (spre +:+ String g0 (String g1 (String g2 (String g3 srest)))) len
    {| d_i := String.length spre; d_p := p; d_bytes := out |}
  = let c1 := lookup_char g0 in
    let c2 := lookup_char g1 in
    let c3 := lookup_char g2 in
    let c4 := lookup_char g3 in
    let i := (4 + String.length spre)%nat in
    let bytes := u8_set out p (Z.lor (Z.shiftl c1 2) (Z.shiftr c2 4)) in
    let p := S p in
    let '(bytes, p) :=
      if (i - 1 <? len)%nat
      then (u8_set bytes p (Z.lor (Z.shiftl (Z.land c2 15) 4) (Z.shiftr c3 2)),
            S p)
      else (bytes, p) in
    let '(bytes, p) :=
      if (i <? len)%nat
      then (u8_set bytes p (Z.lor (Z.shiftl (Z.land c3 3) 6) c4), S p)
      else (bytes, p) in
    {| d_i := i; d_p := p; d_bytes := bytes |}.
Proof.
  unfold decode_step. cbn [d_i d_p d_bytes]. cbv zeta.
  rewrite (charCodeAt_app spre _ 0 : charCodeAt _ (String.length spre) = _).
  rewrite (charCodeAt_app spre _ 1 : charCodeAt _ (S (String.length spre)) = _).
  rewrite (charCodeAt_app spre _ 2
           : charCodeAt _ (S (S (String.length spre))) = _).
  rewrite (charCodeAt_app spre _ 3
           : charCodeAt _ (S (S (S (String.length spre)))) = _).
  reflexivity.
Qed.

Lemma decode_loop_end (fuel : nat) (s : string) (len : nat) (st : dstate) :
  (len <= d_i st)%nat -> decode_loop fuel lookup_table s len st = st.
Proof.
  intros H. destruct fuel; simpl; [reflexivity|].
  now replace (d_i st <? len)%nat with false
    by (symmetry; apply Nat.ltb_ge; lia).
Qed.

Lemma insert_app0 (pre : list byte) (x : byte) (l : list byte) :
  <[length pre := x]> (pre ++ l)%list = (pre ++ <[0%nat := x]> l)%list.
Proof. rewrite <- (insert_app_r pre l 0). now rewrite Nat.add_0_r. Qed.

Lemma stripped_length_pos (n : nat) :
  (1 <= n)%nat -> (2 <= stripped_length n)%nat.
Proof. destruct n as [|[|[|n]]]; simpl; lia. Qed.

Lemma kept_add3 (k : nat) : (1 <= k)%nat -> kept (3 + k) = (3 + kept k)%nat.
Proof.
  intros Hk. unfold kept.
  replace ((3 + k) mod 3)%nat with (k mod 3)%nat
    by (rewrite <- (Nat.Div0.add_mod_idemp_l 3 k 3); reflexivity).
  destruct (k mod 3 =? 1)%nat; lia.
Qed.

Lemma take_pre (pre l : list byte) (k : nat) :
  take (length pre + k) (pre ++ l) = (pre ++ take k l)%list.
Proof. apply take_app_add. Qed.

(** What the loop of the decoder gives back for the groups of [suf]. *)
Lemma decode_loop_groups (suf : list byte) :
  suf <> [] ->
  forall spre pre zs fuel s len i p out,
    (length suf <= fuel)%nat ->
    s = spre +:+ encode_groups suf ->
    len = (String.length spre + stripped_length (length suf))%nat ->
    i = String.length spre ->
    p = length pre ->
    out = (pre ++ replicate (length suf + zs) x00)%list ->
    let st :=
      decode_loop fuel lookup_table s len
        {| d_i := i; d_p := p; d_bytes := out |} in
    take (d_p st) (d_bytes st) = (pre ++ take (kept (length suf)) suf)%list.
Proof.
  induction suf as [|b1|b1 b2|b1 b2 b3 rest IH] using list_ind3;
    intros Hne spre pre zs fuel s len i p out Hfuel -> -> -> -> ->;
    [congruence| | |];
    (destruct fuel as [|fuel]; [simpl in Hfuel; lia|]);
    cbn [decode_loop d_i length stripped_length];
    (replace (String.length spre <? _)%nat with true
       by (symmetry; apply Nat.ltb_lt; lia)).
  - cbn [encode_groups]; unfold encode_group; cbn [from_option].
    rewrite decode_step_read. cbv zeta. decide_ltb.
    rewrite decode_loop_end by (cbn [d_i]; lia). cbn [d_p d_bytes].
    destruct (pair_facts b1 x00)
      as (L1 & L2 & _ & _ & _ & _ & _ & _ & _ & _ & D1 & _).
    change 0 with (byteZ x00). unfold u8_set. rewrite L1, L2, D1.
    rewrite insert_app0. cbn [replicate Nat.add].
    replace (S (length pre)) with (length pre + 1)%nat by lia.
    now rewrite take_pre.
  - cbn [encode_groups]; unfold encode_group; cbn [from_option].
    rewrite decode_step_read. cbv zeta. decide_ltb.
    rewrite decode_loop_end by (cbn [d_i]; lia). cbn [d_p d_bytes].
    destruct (pair_facts b1 b2)
      as (L1 & L2 & _ & _ & _ & _ & _ & _ & _ & _ & D1 & _).
    unfold u8_set. rewrite L1, L2, D1.
    rewrite insert_app0. cbn [replicate Nat.add].
    replace (S (length pre)) with (length pre + 1)%nat by lia.
    now rewrite take_pre.
  - destruct (pair_facts b1 b2)
      as (L1 & L2 & _ & _ & _ & _ & _ & _ & _ & _ & D1 & A & _).
    destruct (pair_facts b2 b3)
      as (_ & _ & L3 & _ & _ & _ & _ & _ & _ & _ & _ & _ & D2 & D3).
    destruct (pair_facts b3 b3) as (_ & _ & _ & L4 & _).
    cbn [encode_groups]; unfold encode_group; cbn [from_option].
    change (String ?a (String ?b (String ?c (String ?d EmptyString))) +:+ ?r)
      with (String a (String b (String c (String d r)))).
    rewrite decode_step_read. cbv zeta. unfold u8_set.
    rewrite L1, L2, L3, L4, A, D1, D2, D3.
    destruct (decide (rest = [])) as [->|Hrest].
    + cbn [length stripped_length]. decide_ltb.
      rewrite decode_loop_end by (cbn [d_i]; lia). cbn [d_p d_bytes].
      rewrite insert_app0. cbn [replicate Nat.add].
      replace (S (length pre)) with (length pre + 1)%nat by lia.
      rewrite insert_app_r.
      replace (S (length pre + 1)) with (length pre + 2)%nat by lia.
      now rewrite take_pre.
    + assert (Hlen : (1 <= length rest)%nat)
        by (destruct rest; [congruence | simpl; lia]).
      pose proof (stripped_length_pos (length rest) Hlen) as Hpos.
      cbn [length].
      change (stripped_length (S (S (S (length rest)))))
        with (4 + stripped_length (length rest))%nat.
      decide_ltb.
      rewrite insert_app0. cbn [replicate Nat.add].
      replace (S (length pre)) with (length pre + 1)%nat by lia.
      rewrite insert_app_r.
      replace (S (length pre + 1)) with (length pre + 2)%nat by lia.
      rewrite insert_app_r. cbn [insert list_insert].
      rewrite (IH Hrest
                 (spre +:+ encode_group b1 (Some b2) (Some b3))
                 (pre ++ [b1; b2; b3])%list zs fuel).
      * rewrite <- app_assoc.
        change (S (S (S (length rest)))) with (3 + length rest)%nat.
        rewrite kept_add3 by assumption. reflexivity.
      * simpl in Hfuel. lia.
      * now rewrite StringFacts.app_assoc.
      * rewrite StringFacts.length_app. simpl. lia.
      * rewrite StringFacts.length_app. simpl. lia.
      * rewrite List.length_app. simpl. lia.
      * now rewrite <- app_assoc.
Qed.

Lemma nat_ind3 (P : nat -> Prop) :
  P 0%nat -> P 1%nat -> P 2%nat -> (forall n, P n -> P (3 + n)%nat) ->
  forall n, P n.
Proof.
  intros H0 H1 H2 H3. fix IH 1.
  intros [|[|[|n]]]; [exact H0 | exact H1 | exact H2 |]. apply (H3 n), IH.
Qed.

Lemma stripped_length_bytes (n : nat) :
  (stripped_length n * 3 / 4)%nat = n /\ (n <= stripped_length n)%nat.
Proof.
  induction n as [| | |n [IH1 IH2]] using nat_ind3;
    try (split; [reflexivity | simpl; lia]).
  change (stripped_length (3 + n)) with (4 + stripped_length n)%nat.
  split; [|lia].
  replace ((4 + stripped_length n) * 3)%nat
    with (3 * 4 + stripped_length n * 3)%nat by lia.
  rewrite Nat.div_add_l by lia. now rewrite IH1.
Qed.

(** What [base64Decode] returns on the output of [base64Encode]: the first
    [kept n] bytes of the [n] that were encoded. *)
Theorem decode_encode_kept (bytes : list byte) :
  base64Decode (base64Encode bytes) = take (kept (length bytes)) bytes.
Proof.
  rewrite base64Encode_groups.
  destruct (decide (bytes = [])) as [->|Hne]; [reflexivity|].
  unfold base64Decode. cbv zeta.
  pose proof (strip_pad_groups bytes Hne EmptyString) as Hstrip.
  change (EmptyString +:+ encode_groups bytes) with (encode_groups bytes)
    in Hstrip.
  cbn [String.length Nat.add] in Hstrip. rewrite Hstrip.
  destruct (stripped_length_bytes (length bytes)) as [Hsize Hfuel].
  rewrite Hsize.
  apply (decode_loop_groups bytes Hne EmptyString [] 0%nat); try reflexivity.
  - exact Hfuel.
  - unfold u8_new. now rewrite Nat.add_0_r.
Qed.

(** The round trip holds exactly for the empty array and for the arrays
    whose length is 1 modulo 3. *)
Corollary decode_encode_roundtrip_iff (bytes : list byte) :
  base64Decode (base64Encode bytes) = bytes
  <-> bytes = [] \/ (length bytes mod 3 = 1)%nat.
Proof.
  rewrite decode_encode_kept. unfold kept.
  destruct (length bytes mod 3 =? 1)%nat eqn:Hm.
  - apply Nat.eqb_eq in Hm. rewrite take_ge by lia. tauto.
  - apply Nat.eqb_neq in Hm. split.
    + intros H. left. apply (f_equal length) in H.
      rewrite length_take in H. destruct bytes; [reflexivity|simpl in H; lia].
    + intros [->|H]; [reflexivity | contradiction].
Qed.

(** In particular every array of two bytes loses its second byte, and every
    array of one byte comes back. *)
Lemma decode_encode_two_bytes (b1 b2 : byte) :
  base64Decode (base64Encode [b1; b2]) = [b1].
Proof. now rewrite decode_encode_kept. Qed.

Lemma decode_encode_one_byte (b : byte) :
  base64Decode (base64Encode [b]) = [b].
Proof. now rewrite decode_encode_kept. Qed.

(** *** What every encoding looks like *)

(** X1: the encoding of [n] bytes is [4 * ceil(n / 3)] characters long. *)
Theorem base64Encode_length (bytes : list byte) :
  String.length (base64Encode bytes) = (4 * ((length bytes + 2) / 3))%nat.
Proof.
  rewrite base64Encode_groups.
  induction bytes as [| a | a b | a b c l IH] using list_ind3;
    try reflexivity.
  cbn [encode_groups]. rewrite StringFacts.length_app, IH.
  change (length (a :: b :: c :: l)) with (3 + length l)%nat.
  replace (3 + length l + 2)%nat with (1 * 3 + (length l + 2))%nat by lia.
  rewrite Nat.div_add_l by lia. cbn [String.length encode_group]. lia.
Qed.

Lemma sextet_chars (x y : byte) :
  is_base64_char (b64char (sextet1 (byteZ x))) = true
  /\ is_base64_char (b64char (sextet2 (byteZ x) (byteZ y))) = true
  /\ is_base64_char (b64char (sextet3 (byteZ x) (byteZ y))) = true
  /\ is_base64_char (b64char (sextet4 (byteZ x))) = true.
Proof.
  revert x y.
  assert (H : forall x y,
    is_base64_char (b64char (sextet1 (byteZ x)))
    && is_base64_char (b64char (sextet2 (byteZ x) (byteZ y)))
    && is_base64_char (b64char (sextet3 (byteZ x) (byteZ y)))
    && is_base64_char (b64char (sextet4 (byteZ x))) = true).
  { apply for_all_pairs. vm_compute. reflexivity. }
  intros x y. specialize (H x y).
  repeat (apply andb_true_iff in H as [H ?]). auto.
Qed.

(** X2: an encoding is a run of characters of the alphabet followed by
    the padding: nothing for a length divisible by 3, [==] for a
    remainder of 1, [=] for a remainder of 2. *)
Theorem base64Encode_shape (bytes : list byte) :
  exists body,
    base64Encode bytes = body +:+ padding (length bytes)
    /\ CryptoRandom.all_chars is_base64_char body = true.
Proof.
  rewrite base64Encode_groups.
  induction bytes as [| a | a b | a b c l IH] using list_ind3.
  - exists EmptyString. split; reflexivity.
  - destruct (sextet_chars a x00) as (H1 & H2 & _).
    eexists (String _ (String _ EmptyString)). split; [reflexivity|].
    cbn [CryptoRandom.all_chars]. change (from_option byteZ 0 None) with (byteZ x00).
    now rewrite H1, H2.
  - destruct (sextet_chars a b) as (H1 & H2 & _).
    destruct (sextet_chars b x00) as (_ & _ & H3 & _).
    eexists (String _ (String _ (String _ EmptyString))). split; [reflexivity|].
    cbn [CryptoRandom.all_chars from_option].
    change 0 with (byteZ x00) at 1.
    now rewrite H1, H2, H3.
  - destruct IH as (body & E & Hb).
    destruct (sextet_chars a b) as (H1 & H2 & _).
    destruct (sextet_chars b c) as (_ & _ & H3 & _).
    destruct (sextet_chars c x00) as (_ & _ & _ & H4).
    exists (encode_group a (Some b) (Some c) +:+ body). split.
    + cbn [encode_groups]. rewrite E, StringFacts.app_assoc. f_equal.
      unfold padding. change (length (a :: b :: c :: l)) with (3 + length l)%nat.
      replace (3 + length l)%nat with (length l + 1 * 3)%nat by lia.
      now rewrite Nat.Div0.mod_add.
    + rewrite StringFacts.all_chars_app, Hb.
      cbn [encode_group CryptoRandom.all_chars from_option].
      now rewrite H1, H2, H3, H4.
Qed.


(** *** The encoder loses nothing *)

Lemma encode_groups_3 (a b c : byte) (l : list byte) :
  encode_groups (a :: b :: c :: l)
  = String (b64char (sextet1 (byteZ a)))
      (String (b64char (sextet2 (byteZ a) (byteZ b)))
         (String (b64char (sextet3 (byteZ b) (byteZ c)))
            (String (b64char (sextet4 (byteZ c))) (encode_groups l)))).
Proof. reflexivity. Qed.

Lemma encode_groups_2 (a b : byte) :
  encode_groups [a; b]
  = String (b64char (sextet1 (byteZ a)))
      (String (b64char (sextet2 (byteZ a) (byteZ b)))
         (String (b64char (sextet3 (byteZ b) (byteZ x00)))
            (String "="%char EmptyString))).
Proof. reflexivity. Qed.

Lemma encode_groups_1 (a : byte) :
  encode_groups [a]
  = String (b64char (sextet1 (byteZ a)))
      (String (b64char (sextet2 (byteZ a) (byteZ x00)))
         (String "="%char (String "="%char EmptyString))).
Proof. reflexivity. Qed.

(** The first byte of a group is fixed by its first two characters, the
    second by the second and third, the third by the last two. *)
Lemma first_byte_inj (a b a' b' : byte) :
  b64char (sextet1 (byteZ a)) = b64char (sextet1 (byteZ a')) ->
  b64char (sextet2 (byteZ a) (byteZ b)) = b64char (sextet2 (byteZ a') (byteZ b')) ->
  a = a'.
Proof.
  intros E1 E2.
  apply (f_equal lookup_char) in E1, E2.
  destruct (pair_facts a b) as (L1 & L2 & _ & _ & _ & _ & _ & _ & _ & _ & R & _).
  destruct (pair_facts a' b') as (L1' & L2' & _ & _ & _ & _ & _ & _ & _ & _ & R' & _).
  rewrite L1, L1' in E1. rewrite L2, L2' in E2.
  rewrite <- R, <- R'. now rewrite E1, E2.
Qed.

Lemma second_byte_inj (a b c a' b' c' : byte) :
  b64char (sextet2 (byteZ a) (byteZ b)) = b64char (sextet2 (byteZ a') (byteZ b')) ->
  b64char (sextet3 (byteZ b) (byteZ c)) = b64char (sextet3 (byteZ b') (byteZ c')) ->
  b = b'.
Proof.
  intros E2 E3.
  apply (f_equal lookup_char) in E2, E3.
  destruct (pair_facts a b) as (_ & L2 & _ & _ & _ & _ & _ & _ & _ & _ & _ & N & _).
  destruct (pair_facts a' b') as (_ & L2' & _ & _ & _ & _ & _ & _ & _ & _ & _ & N' & _).
  destruct (pair_facts b c) as (_ & _ & L3 & _ & _ & _ & _ & _ & _ & _ & _ & _ & R & _).
  destruct (pair_facts b' c') as (_ & _ & L3' & _ & _ & _ & _ & _ & _ & _ & _ & _ & R' & _).
  rewrite L2, L2' in E2. rewrite L3, L3' in E3.
  rewrite <- R, <- R', <- N, <- N'. now rewrite E2, E3.
Qed.

Lemma third_byte_inj (b c b' c' : byte) :
  b64char (sextet3 (byteZ b) (byteZ c)) = b64char (sextet3 (byteZ b') (byteZ c')) ->
  b64char (sextet4 (byteZ c)) = b64char (sextet4 (byteZ c')) ->
  c = c'.
Proof.
  intros E3 E4.
  apply (f_equal lookup_char) in E3, E4.
  destruct (pair_facts b c) as (_ & _ & L3 & _ & _ & _ & _ & _ & _ & _ & _ & _ & _ & R).
  destruct (pair_facts b' c') as (_ & _ & L3' & _ & _ & _ & _ & _ & _ & _ & _ & _ & _ & R').
  destruct (pair_facts c b) as (_ & _ & _ & L4 & _).
  destruct (pair_facts c' b) as (_ & _ & _ & L4' & _).
  rewrite L3, L3' in E3. rewrite L4, L4' in E4.
  rewrite <- R, <- R'. now rewrite E3, E4.
Qed.

Lemma not_pad3 (b c : byte) : b64char (sextet3 (byteZ b) (byteZ c)) <> "="%char.
Proof.
  destruct (pair_facts b c) as (_ & _ & _ & _ & _ & _ & _ & _ & P & _).
  intros E. rewrite E in P. discriminate.
Qed.

Lemma not_pad4 (c : byte) : b64char (sextet4 (byteZ c)) <> "="%char.
Proof.
  destruct (pair_facts c c) as (_ & _ & _ & _ & _ & _ & _ & _ & _ & P & _).
  intros E. rewrite E in P. discriminate.
Qed.

Lemma chars4 (c1 c2 c3 c4 d1 d2 d3 d4 : ascii) (r r' : string) :
  String c1 (String c2 (String c3 (String c4 r)))
  = String d1 (String d2 (String d3 (String d4 r'))) ->
  c1 = d1 /\ c2 = d2 /\ c3 = d3 /\ c4 = d4 /\ r = r'.
Proof. intros [= -> -> -> -> ->]. now repeat split. Qed.

Lemma encode_groups_inj (l1 : list byte) :
  forall l2, encode_groups l1 = encode_groups l2 -> l1 = l2.
Proof.
  induction l1 as [| a | a b | a b c l IH] using list_ind3;
    intros [|a' [|b' [|c' l']]] E;
    rewrite ?encode_groups_1, ?encode_groups_2, ?encode_groups_3 in E;
    try discriminate E; try reflexivity;
    apply chars4 in E as (E1 & E2 & E3 & E4 & Er);
    try (exfalso; first [ exact (not_pad3 _ _ E3)
                        | exact (not_pad3 _ _ (eq_sym E3))
                        | exact (not_pad4 _ E4)
                        | exact (not_pad4 _ (eq_sym E4)) ]).
  - now rewrite (first_byte_inj _ _ _ _ E1 E2).
  - rewrite (first_byte_inj _ _ _ _ E1 E2).
    now rewrite (second_byte_inj _ _ _ _ _ _ E2 E3).
  - rewrite (first_byte_inj _ _ _ _ E1 E2).
    rewrite (second_byte_inj _ _ _ _ _ _ E2 E3).
    rewrite (third_byte_inj _ _ _ _ E3 E4).
    now rewrite (IH _ Er).
Qed.

(** X3: two byte arrays have the same encoding only if they are the same
    array. *)
Theorem base64Encode_injective (b1 b2 : list byte) :
  base64Encode b1 = base64Encode b2 <-> b1 = b2.
Proof.
  split; [|now intros ->].
  rewrite !base64Encode_groups. apply encode_groups_inj.
Qed.

(** X4: decoding an encoding gives the array back when its length is 1
    modulo 3, and the array without its last byte otherwise. *)
Theorem decode_encode_prefix (bytes : list byte) :
  base64Decode (base64Encode bytes)
  = if (length bytes mod 3 =? 1)%nat then bytes
    else take (length bytes - 1) bytes.
Proof.
  rewrite decode_encode_kept. unfold kept.
  destruct (length bytes mod 3 =? 1)%nat; [|reflexivity].
  now rewrite take_ge by lia.
Qed.

(** *** The decoder on any text *)

Lemma length_u8_set (a : list byte) (p : nat) (v : Z) :
  length (u8_set a p v) = length a.
Proof. unfold u8_set. apply length_insert. Qed.

Lemma decode_step_counts (lookup : list byte) (s : string) (len : nat)
  (st : dstate) :
  let st' := decode_step lookup s len st in
  d_i st' = (d_i st + 4)%nat
  /\ d_p st'
     = (d_p st + 1 + (if (d_i st + 3 <? len)%nat then 1 else 0)
        + (if (d_i st + 4 <? len)%nat then 1 else 0))%nat
  /\ length (d_bytes st') = length (d_bytes st).
Proof.
  unfold decode_step. cbv zeta.
  replace (S (S (S (S (d_i st)))) - 1)%nat with (d_i st + 3)%nat by lia.
  replace (S (S (S (S (d_i st)))))%nat with (d_i st + 4)%nat by lia.
  destruct (d_i st + 3 <? len)%nat, (d_i st + 4 <? len)%nat; cbn;
    rewrite ?length_u8_set; repeat split; lia.
Qed.

Lemma decode_loop_counts (s : string) (len : nat) :
  forall fuel j st,
    d_i st = (4 * j)%nat -> d_p st = (3 * j)%nat ->
    (len <= 4 * j + 4 * fuel)%nat ->
    let st' := decode_loop fuel lookup_table s len st in
    length (d_bytes st') = length (d_bytes st)
    /\ ((len <= 4 * j)%nat -> d_p st' = (3 * j)%nat)
    /\ ((4 * j < len)%nat ->
        exists k, (4 * k < len <= 4 * k + 4)%nat
                  /\ d_p st' = (3 * k + if (len =? 4 * k + 4)%nat then 2 else 1)%nat).
Proof.
  induction fuel as [|fuel IH]; intros j st Hi Hp Hfuel; cbn zeta.
  - cbn [decode_loop]. split; [reflexivity|]. split; [auto | lia].
  - cbn [decode_loop]. rewrite Hi.
    destruct (4 * j <? len)%nat eqn:Hlt.
    2: { apply Nat.ltb_ge in Hlt. split; [reflexivity|]. split; [auto | lia]. }
    apply Nat.ltb_lt in Hlt.
    destruct (decode_step_counts lookup_table s len st) as (Si & Sp & Sl).
    rewrite Hi in Si, Sp. rewrite Hp in Sp.
    destruct (decide (4 * j + 4 < len)%nat) as [Hmore|Hlast].
    + assert (H3 : (4 * j + 3 <? len)%nat = true) by (apply Nat.ltb_lt; lia).
      assert (H4 : (4 * j + 4 <? len)%nat = true) by (apply Nat.ltb_lt; lia).
      rewrite H3, H4 in Sp.
      destruct (IH (S j) (decode_step lookup_table s len st)) as (L & _ & K);
        [lia | lia | lia |].
      split; [congruence|]. split; [lia|]. intros _. apply K. lia.
    + assert (H4 : (4 * j + 4 <? len)%nat = false) by (apply Nat.ltb_ge; lia).
      rewrite H4 in Sp.
      rewrite decode_loop_end by lia.
      split; [exact Sl|]. split; [lia|]. intros _. exists j. split; [lia|].
      rewrite Sp.
      destruct (len =? 4 * j + 4)%nat eqn:E.
      * apply Nat.eqb_eq in E.
        assert (H3 : (4 * j + 3 <? len)%nat = true) by (apply Nat.ltb_lt; lia).
        rewrite H3. lia.
      * apply Nat.eqb_neq in E.
        assert (H3 : (4 * j + 3 <? len)%nat = false) by (apply Nat.ltb_ge; lia).
        rewrite H3. lia.
Qed.

Lemma size_mod4 (k len : nat) :
  (4 * k < len <= 4 * k + 4)%nat ->
  Nat.min (3 * k + if (len =? 4 * k + 4)%nat then 2 else 1) (len * 3 / 4)
  = decoded_length len.
Proof.
  intros H. unfold decoded_length.
  assert (C : (len = 4 * k + 1 \/ len = 4 * k + 2 \/ len = 4 * k + 3
               \/ len = 4 * k + 4)%nat) by lia.
  destruct C as [-> | [-> | [-> | ->]]].
  - rewrite <- (Nat.mod_unique (4 * k + 1) 4 k 1) by lia.
    rewrite <- (Nat.div_unique (4 * k + 1) 4 k 1) by lia.
    rewrite <- (Nat.div_unique ((4 * k + 1) * 3) 4 (3 * k) 3) by lia.
    replace (4 * k + 1 =? 4 * k + 4)%nat with false
      by (symmetry; apply Nat.eqb_neq; lia). lia.
  - rewrite <- (Nat.mod_unique (4 * k + 2) 4 k 2) by lia.
    rewrite <- (Nat.div_unique (4 * k + 2) 4 k 2) by lia.
    rewrite <- (Nat.div_unique ((4 * k + 2) * 3) 4 (3 * k + 1) 2) by lia.
    replace (4 * k + 2 =? 4 * k + 4)%nat with false
      by (symmetry; apply Nat.eqb_neq; lia). lia.
  - rewrite <- (Nat.mod_unique (4 * k + 3) 4 k 3) by lia.
    rewrite <- (Nat.div_unique (4 * k + 3) 4 k 3) by lia.
    rewrite <- (Nat.div_unique ((4 * k + 3) * 3) 4 (3 * k + 2) 1) by lia.
    replace (4 * k + 3 =? 4 * k + 4)%nat with false
      by (symmetry; apply Nat.eqb_neq; lia). lia.
  - rewrite <- (Nat.mod_unique (4 * k + 4) 4 (k + 1) 0) by lia.
    rewrite <- (Nat.div_unique (4 * k + 4) 4 (k + 1) 0) by lia.
    rewrite <- (Nat.div_unique ((4 * k + 4) * 3) 4 (3 * k + 3) 0) by lia.
    rewrite Nat.eqb_refl. lia.
Qed.

(** X5: on every text, valid base64 or not, [base64Decode] returns an
    array whose length is fixed by the length [len] of the text without
    its (at most two) trailing padding signs: [3 * (len / 4)] bytes, plus
    one when [len] is 2 or 3 modulo 4, minus one when [len] is a positive
    multiple of 4. *)
Theorem base64Decode_length (base64 : string) :
  length (base64Decode base64)
  = decoded_length
      (strip_pad base64 (strip_pad base64 (String.length base64))).
Proof.
  unfold base64Decode. cbv zeta.
  set (len := strip_pad base64 (strip_pad base64 (String.length base64))).
  destruct (decode_loop_counts base64 len len 0%nat
              {| d_i := 0; d_p := 0; d_bytes := u8_new (len * 3 / 4) |})
    as (L & Z0 & K); [reflexivity | reflexivity | lia |].
  rewrite length_take, L. cbn [d_bytes].
  unfold u8_new at 2. rewrite length_replicate.
  destruct (decide (len = 0%nat)) as [E|NE].
  - rewrite Z0 by lia. rewrite E. reflexivity.
  - destruct K as (k & Hk & ->); [lia|]. now apply size_mod4.
Qed.

(** X6: the table of the decoder has 256 entries and holds, for every
    character, its index in the alphabet, and 0 for a character that is
    not in the alphabet (the padding sign included): no character is
    refused. *)
Theorem lookup_table_inverts (c : ascii) :
  length lookup_table = 256%nat
  /\ lookup_char c
     = match String.index 0 (String c EmptyString) BASE64_CHARS with
       | Some i => Z.of_nat i
       | None => 0
       end.
Proof.
  split; [reflexivity|].
  destruct c as [[] [] [] [] [] [] [] []]; vm_compute; reflexivity.
Qed.

End Base64Facts.

(** ** cryptoRandomString *)

Module CryptoRandomFacts.
Import CryptoRandom StringFacts.

Lemma hex2_length (b : byte) : String.length (hex2 b) = 2%nat.
Proof. destruct b; vm_compute; reflexivity. Qed.

Lemma hex2_chars (b : byte) : all_chars is_lower_hex (hex2 b) = true.
Proof. destruct b; vm_compute; reflexivity. Qed.

Lemma join_hex_length (bytes : list byte) :
  String.length (join_empty (map hex2 bytes)) = (2 * length bytes)%nat.
Proof.
  induction bytes as [|b bytes IH]; simpl; [reflexivity|].
  change (String.length (hex2 b +:+ join_empty (map hex2 bytes))
          = S (length bytes + S (length bytes + 0))).
  rewrite length_app, hex2_length, IH. lia.
Qed.

Lemma join_hex_chars (bytes : list byte) :
  all_chars is_lower_hex (join_empty (map hex2 bytes)) = true.
Proof.
  induction bytes as [|b bytes IH]; simpl; [reflexivity|].
  change (all_chars is_lower_hex (hex2 b +:+ join_empty (map hex2 bytes))
          = true).
  now rewrite all_chars_app, hex2_chars, IH.
Qed.

Lemma ceil_half_covers (n : nat) : (n <= 2 * ceil_half n)%nat.
Proof.
  unfold ceil_half. pose proof (Nat.div_mod_eq n 2). lia.
Qed.

(** C10: under the precondition that [randomBytes(k)] returns exactly [k]
    bytes, [cryptoRandomString(n)] is a string of length exactly [n] made
    of lowercase hexadecimal characters only, for every non-negative
    integer [n]. *)
Theorem cryptoRandomString_length_hex
  (randomBytes : nat -> list byte) (n : nat) :
  (forall k, length (randomBytes k) = k) ->
  String.length (cryptoRandomString randomBytes n) = n
  /\ all_chars is_lower_hex (cryptoRandomString randomBytes n) = true.
Proof.
  intros Hlen. unfold cryptoRandomString, slice0.
  split.
  - rewrite length_substring0, join_hex_length, Hlen.
    pose proof (ceil_half_covers n). lia.
  - apply all_chars_substring0, join_hex_chars.
Qed.

(** A host that always answers with the bytes a7, and a request for five
    characters. *)
Lemma cryptoRandomString_length_hex_witness :
  String.length (cryptoRandomString (fun k => replicate k xa7) 5) = 5%nat
  /\ all_chars is_lower_hex (cryptoRandomString (fun k => replicate k xa7) 5)
     = true.
Proof.
  apply (cryptoRandomString_length_hex (fun k => replicate k xa7) 5).
  intros k. apply length_replicate.
Defined.

(** *** What the string is made of *)

(** X8: whatever the host returns, the string has [min n (2 * k)]
    characters, [k] being the number of bytes the host gave for the
    [ceil(n / 2)] that were asked: a host that gives fewer bytes makes the
    string shorter, nothing pads it. *)
Theorem cryptoRandomString_length_min (randomBytes : nat -> list byte) (n : nat) :
  String.length (cryptoRandomString randomBytes n)
  = Nat.min n (2 * length (randomBytes (ceil_half n))).
Proof.
  unfold cryptoRandomString, slice0.
  now rewrite length_substring0, join_hex_length.
Qed.

Lemma hex2_digits (b : byte) :
  hex2 b = String (digit_char (Byte.to_N b / 16))
             (String (digit_char (Byte.to_N b mod 16)) EmptyString).
Proof. destruct b; vm_compute; reflexivity. Qed.

Lemma get_join_hex (bytes : list byte) :
  forall i b,
    bytes !! (i / 2)%nat = Some b ->
    String.get i (join_empty (map hex2 bytes))
    = Some (digit_char (if Nat.even i then Byte.to_N b / 16
                        else Byte.to_N b mod 16)%N).
Proof.
  induction bytes as [|b0 bytes IH]; intros i b Hb; [discriminate|].
  cbn [map join_empty foldr]. rewrite hex2_digits.
  change (String ?a (String ?c EmptyString) +:+ ?r) with (String a (String c r)).
  destruct i as [|[|i]].
  - cbn in Hb. injection Hb as ->. reflexivity.
  - cbn in Hb. injection Hb as ->. reflexivity.
  - change (S (S i)) with (1 * 2 + i)%nat in Hb.
    rewrite Nat.div_add_l in Hb by lia. cbn [Nat.add lookup list_lookup] in Hb.
    cbn [String.get]. change (Nat.even (S (S i))) with (Nat.even i).
    now apply IH.
Qed.

Lemma get_substring0 (s : string) :
  forall n i, (i < n)%nat -> String.get i (String.substring 0 n s) = String.get i s.
Proof.
  induction s as [|c s IH]; intros [|n] [|i] H; cbn; try reflexivity; try lia.
  apply IH. lia.
Qed.

(** X9: character [i] of the string is the hexadecimal digit of the high
    half of byte [i / 2] when [i] is even, and of its low half when [i] is
    odd. *)
Theorem cryptoRandomString_digits (randomBytes : nat -> list byte)
  (n i : nat) (b : byte) :
  (i < n)%nat ->
  randomBytes (ceil_half n) !! (i / 2)%nat = Some b ->
  String.get i (cryptoRandomString randomBytes n)
  = Some (digit_char (if Nat.even i then Byte.to_N b / 16
                      else Byte.to_N b mod 16)%N).
Proof.
  intros Hi Hb. unfold cryptoRandomString, slice0.
  rewrite get_substring0 by exact Hi. now apply get_join_hex.
Qed.

(** Random bytes 0, 1, 2 and a request for five characters: character 3
    is the low digit of byte 1. *)
Lemma cryptoRandomString_digits_witness :
  String.get 3 (cryptoRandomString Fixtures.counting_bytes 5)
  = Some "1"%char.
Proof.
  exact (cryptoRandomString_digits Fixtures.counting_bytes 5 3 x01
           ltac:(lia) eq_refl).
Defined.

Lemma hex2_inj (b1 b2 : byte) : hex2 b1 = hex2 b2 -> b1 = b2.
Proof.
  intros H.
  assert (E : bool_decide (hex2 b1 = hex2 b2) = true) by now apply bool_decide_eq_true.
  revert E. clear H.
  assert (A : forall x y, implb (bool_decide (hex2 x = hex2 y)) (bool_decide (x = y)) = true).
  { apply Base64Facts.for_all_pairs. vm_compute. reflexivity. }
  intros E. specialize (A b1 b2). rewrite E in A. cbn in A.
  now apply bool_decide_eq_true in A.
Qed.

Lemma join_hex_inj (l1 : list byte) :
  forall l2, join_empty (map hex2 l1) = join_empty (map hex2 l2) -> l1 = l2.
Proof.
  induction l1 as [|a l1 IH]; intros [|b l2] E.
  - reflexivity.
  - apply (f_equal String.length) in E. rewrite !join_hex_length in E.
    cbn in E. lia.
  - apply (f_equal String.length) in E. rewrite !join_hex_length in E.
    cbn in E. lia.
  - cbn [map join_empty foldr] in E. rewrite (hex2_digits a), (hex2_digits b) in E.
    change (String ?x (String ?y EmptyString) +:+ ?r) with (String x (String y r)) in E.
    injection E as E1 E2 E3.
    f_equal; [|now apply IH].
    apply hex2_inj. rewrite !hex2_digits. now rewrite E1, E2.
Qed.

Lemma ceil_half_double (k : nat) : ceil_half (2 * k) = k.
Proof.
  unfold ceil_half.
  rewrite (Nat.mul_comm 2 k), Nat.div_mul, Nat.Div0.mod_mul by lia. lia.
Qed.

(** X10: for an even length [2 * k], and hosts that return [k] bytes when
    asked for [k], two equal strings come from equal bytes: no bit of the
    random bytes is lost. *)
Theorem cryptoRandomString_even_injective
  (randomBytes1 randomBytes2 : nat -> list byte) (k : nat) :
  length (randomBytes1 k) = k -> length (randomBytes2 k) = k ->
  cryptoRandomString randomBytes1 (2 * k)
  = cryptoRandomString randomBytes2 (2 * k) ->
  randomBytes1 k = randomBytes2 k.
Proof.
  intros L1 L2. unfold cryptoRandomString, slice0.
  rewrite ceil_half_double.
  assert (S0 : forall s, String.length s = (2 * k)%nat ->
                 String.substring 0 (2 * k) s = s).
  { intros s Hs. rewrite <- Hs. clear. induction s as [|c s IH]; [reflexivity|].
    cbn. now rewrite IH. }
  rewrite !S0 by (rewrite join_hex_length; lia).
  apply join_hex_inj.
Qed.

Lemma cryptoRandomString_even_injective_witness :
  Fixtures.counting_bytes 2 = Fixtures.counting_bytes 2.
Proof.
  exact (cryptoRandomString_even_injective Fixtures.counting_bytes
           Fixtures.counting_bytes 2 eq_refl eq_refl eq_refl).
Defined.

End CryptoRandomFacts.

(** ** memoizeInFS *)

Module MemoizeFacts.
Import Memoize.

Lemma replace_slashes_id (s : string) :
  separator_free s = true -> replace_slashes s = s.
Proof.
  induction s as [|c s IH]; simpl; [reflexivity|].
  intros H. apply andb_true_iff in H as [Hc Hs].
  unfold is_separator in Hc. apply negb_true_iff, orb_false_iff in Hc as [_ Hc].
  now rewrite Hc, IH.
Qed.

Lemma replace_slashes_app (s1 s2 : string) :
  replace_slashes (s1 +:+ s2) = replace_slashes s1 +:+ replace_slashes s2.
Proof. induction s1 as [|c s1 IH]; simpl; [reflexivity | now rewrite IH]. Qed.

(** Joined separator-free parts keep their underscores, so replacing the
    slashes changes nothing. *)
Lemma replace_slashes_join (parts : list string) :
  Forall (fun s => separator_free s = true) parts ->
  replace_slashes (join_underscore parts) = join_underscore parts.
Proof.
  unfold join_underscore.
  induction 1 as [|s parts Hs Hparts IH]; [reflexivity|].
  destruct parts as [|t parts]; simpl.
  - now apply replace_slashes_id.
  - change (replace_slashes (s +:+ "_" +:+ String.concat "_" (t :: parts))
            = s +:+ "_" +:+ String.concat "_" (t :: parts)).
    now rewrite !replace_slashes_app, IH, (replace_slashes_id s).
Qed.

(** A separator-free string ends at the first underscore. *)
Lemma split_unique (s1 s2 r1 r2 : string) :
  separator_free s1 = true -> separator_free s2 = true ->
  s1 +:+ "_" +:+ r1 = s2 +:+ "_" +:+ r2 -> s1 = s2 /\ r1 = r2.
Proof.
  revert s2; induction s1 as [|c s1 IH]; intros [|c2 s2] H1 H2 E; cbn in *.
  - injection E as E. now split.
  - injection E as E _. subst c2. discriminate.
  - injection E as E _. subst c. discriminate.
  - injection E as E1 E. subst c2.
    apply andb_true_iff in H1 as [_ H1]. apply andb_true_iff in H2 as [_ H2].
    destruct (IH s2 H1 H2 E) as [-> ->]. now split.
Qed.

Lemma no_split (s s2 r : string) :
  separator_free s = true -> s <> s2 +:+ "_" +:+ r.
Proof.
  revert s2; induction s as [|c s IH]; intros [|c2 s2] H E; cbn in *;
    try discriminate.
  - injection E as E _. subst c. discriminate.
  - injection E as _ E. apply andb_true_iff in H as [_ H]. exact (IH _ H E).
Qed.

Lemma join_inj (l1 l2 : list string) :
  l1 <> [] -> l2 <> [] ->
  Forall (fun s => separator_free s = true) l1 ->
  Forall (fun s => separator_free s = true) l2 ->
  join_underscore l1 = join_underscore l2 -> l1 = l2.
Proof.
  unfold join_underscore.
  revert l2; induction l1 as [|s1 l1 IH]; intros l2 N1 N2 F1 F2 E;
    [congruence|].
  destruct l2 as [|s2 l2]; [congruence|].
  apply Forall_cons in F1 as [Hs1 F1]. apply Forall_cons in F2 as [Hs2 F2].
  destruct l1 as [|t1 l1], l2 as [|t2 l2]; simpl in E.
  - now subst.
  - exfalso. exact (no_split _ _ _ Hs1 E).
  - exfalso. symmetry in E. exact (no_split _ _ _ Hs2 E).
  - destruct (split_unique _ _ _ _ Hs1 Hs2 E) as [-> E'].
    f_equal. apply IH; congruence || assumption.
Qed.

Lemma cachePath_inj {value : Type} (String_ : value -> string)
  (identifier : string) (args1 args2 : list value) :
  args1 <> [] -> args2 <> [] ->
  Forall (fun x => separator_free (String_ x) = true) (args1 ++ args2) ->
  cachePath value String_ identifier args1
  = cachePath value String_ identifier args2 ->
  map String_ args1 = map String_ args2.
Proof.
  intros N1 N2 F E.
  apply Forall_app in F as [F1 F2].
  assert (G1 : Forall (fun s => separator_free s = true) (map String_ args1))
    by (apply Forall_map; exact F1).
  assert (G2 : Forall (fun s => separator_free s = true) (map String_ args2))
    by (apply Forall_map; exact F2).
  unfold cachePath, hash in E.
  do 3 apply String.app_inj in E.
  rewrite !replace_slashes_join in E by assumption.
  apply join_inj; try assumption.
  - now destruct args1.
  - now destruct args2.
Qed.

(** A cache file is never the cache directory itself. *)
Lemma cachePath_not_dir {value : Type} (String_ : value -> string)
  (identifier : string) (args : list value) :
  cachePath value String_ identifier args <> "./cache".
Proof.
  unfold cachePath. intros E.
  apply (f_equal String.length) in E.
  rewrite StringFacts.length_app in E. cbn in E. lia.
Qed.

(** *** Where the cache files are *)

Lemma replace_slashes_clean (s : string) :
  CryptoRandom.all_chars not_slash (replace_slashes s) = true.
Proof.
  induction s as [|c s IH]; [reflexivity|].
  cbn [replace_slashes CryptoRandom.all_chars].
  rewrite IH, andb_true_r. unfold not_slash.
  destruct (Ascii.eqb c "/") eqn:E; [reflexivity|]. now rewrite E.
Qed.

Lemma prefix_cons (x y : ascii) (s t : string) :
  String.prefix (String x s) (String y t)
  = if ascii_dec x y then String.prefix s t else false.
Proof. reflexivity. Qed.

Lemma prefix_app (a b c : string) :
  String.prefix (a +:+ b) (a +:+ c) = String.prefix b c.
Proof.
  induction a as [|x a IH]; [reflexivity|].
  change (String.prefix (String x (a +:+ b)) (String x (a +:+ c))
          = String.prefix b c).
  rewrite prefix_cons.
  destruct (ascii_dec x x); [exact IH | congruence].
Qed.

Lemma prefix_slash (s t : string) :
  String.prefix (s +:+ "/") t = true ->
  CryptoRandom.all_chars not_slash t = false.
Proof.
  revert t. induction s as [|x s IH]; intros [|y t]; try discriminate.
  - change (EmptyString +:+ "/") with "/". rewrite prefix_cons.
    destruct (ascii_dec "/" y) as [<-|]; intros H; [reflexivity | discriminate].
  - change (String x s +:+ "/") with (String x (s +:+ "/")).
    rewrite prefix_cons.
    destruct (ascii_dec x y) as [<-|]; intros H; [|discriminate].
    cbn [CryptoRandom.all_chars]. rewrite (IH _ H). apply andb_false_r.
Qed.

(** No cache file lies below another one. *)
Lemma cachePath_apart {value : Type} (String_ : value -> string)
  (identifier : string) (args1 args2 : list value) :
  under (cachePath value String_ identifier args1)
        (cachePath value String_ identifier args2) = false.
Proof.
  unfold under, cachePath, hash.
  rewrite !StringFacts.app_assoc, !prefix_app.
  destruct (String.prefix _ _) eqn:E; [|reflexivity].
  apply prefix_slash in E. now rewrite replace_slashes_clean in E.
Qed.

Section Calls.

Context {value result disk : Type}.
Variable String_ : value -> string.
Variable undefined : result.
Variable is_undefined : result -> bool.
Variable JSON_stringify : result -> string.
Variable JSON_parse : string -> settled result.
Variable hostExists : string -> disk -> bool.
Variable hostMkdir : string -> disk -> disk.
Variable hostReadFile : string -> disk -> FsResult string.
Variable hostWriteFile : string -> string -> disk -> FsResult unit * disk.
Variable identifier : string.
Variable fn : list value -> settled result.

#[local] Abbreviation same := (same_at disk hostExists hostReadFile hostWriteFile).
#[local] Abbreviation ensure := (ensure_cache_dir disk hostExists hostMkdir).
#[local] Abbreviation cached :=
  (read_cached result disk undefined JSON_parse hostExists hostReadFile).
#[local] Abbreviation call :=
  (memoized value result disk String_ undefined is_undefined JSON_stringify
     JSON_parse hostExists hostMkdir hostReadFile hostWriteFile identifier fn).
#[local] Abbreviation path := (cachePath value String_ identifier).
#[local] Abbreviation key := (hash value String_ identifier).

(** What is asked of the host: [./cache] exists once [mkdir] was called
    for it; writing a file removes no path; and writing a file leaves as
    it was every other path that is neither above nor below the file. *)
Hypothesis creates_cache :
  forall d, hostExists "./cache" (hostMkdir "./cache" d) = true.
Hypothesis write_keeps :
  forall p q content d,
    hostExists p d = true ->
    hostExists p (snd (hostWriteFile q content d)) = true.
Hypothesis write_frame :
  forall p q content d,
    p <> q -> under p q = false -> under q p = false ->
    same p (snd (hostWriteFile q content d)) d.

Lemma same_refl p d : same p d d.
Proof. now repeat split. Qed.

Lemma ensure_exists d : hostExists "./cache" (ensure d) = true.
Proof.
  unfold ensure_cache_dir.
  destruct (hostExists "./cache" d) eqn:E; [exact E | apply creates_cache].
Qed.

Lemma ensure_done d : hostExists "./cache" d = true -> ensure d = d.
Proof. intros E. unfold ensure_cache_dir. now rewrite E. Qed.

Lemma cached_same p d1 d2 : same p d1 d2 -> cached p d1 = cached p d2.
Proof. intros (E & R & _). unfold read_cached. now rewrite E, R. Qed.

(** The promise a call returns is settled by its own [inProgress] entry
    and by what the disk shows at its own cache path once [./cache] is
    there. *)
Lemma call_fst args st1 st2 :
  inProgress _ _ st1 !! key args = inProgress _ _ st2 !! key args ->
  same (path args) (ensure (fs _ _ st1)) (ensure (fs _ _ st2)) ->
  fst (call args st1) = fst (call args st2).
Proof.
  intros Hin Hd. unfold memoized. rewrite <- Hin.
  destruct (inProgress _ _ st1 !! key args) as [p|]; [reflexivity|].
  destruct (inherited (key args)); [reflexivity|].
  rewrite (cached_same _ _ _ Hd).
  destruct (cached (path args) (ensure (fs _ _ st2))) as [p|]; [reflexivity|].
  destruct (fn args) as [r|e]; [|reflexivity].
  destruct Hd as (_ & _ & W).
  specialize (W (if is_undefined r then "undefined" else JSON_stringify r)).
  destruct (hostWriteFile _ _ (ensure (fs _ _ st1))) as [w1 d1'].
  destruct (hostWriteFile _ _ (ensure (fs _ _ st2))) as [w2 d2'].
  cbn in *. now subst.
Qed.

(** A call touches its own [inProgress] entry, the cache directory and
    its own cache file only. *)
Lemma call_frame args st k p :
  k <> key args -> p <> path args ->
  under p (path args) = false -> under (path args) p = false ->
  inProgress _ _ (snd (call args st)) !! k = inProgress _ _ st !! k
  /\ same p (ensure (fs _ _ (snd (call args st)))) (ensure (fs _ _ st)).
Proof.
  intros Hk Hp U1 U2. unfold memoized.
  destruct (inProgress _ _ st !! key args) as [q|];
    [split; [reflexivity | apply same_refl]|].
  destruct (inherited (key args));
    [split; [reflexivity | apply same_refl]|].
  destruct (cached (path args) (ensure (fs _ _ st))) as [q|]; cbn.
  { split; [now rewrite lookup_insert_ne|].
    rewrite (ensure_done (ensure _)) by apply ensure_exists.
    apply same_refl. }
  destruct (fn args) as [r|e]; cbn.
  2: { split; [now rewrite lookup_insert_ne|].
       rewrite (ensure_done (ensure _)) by apply ensure_exists.
       apply same_refl. }
  pose proof (write_frame p (path args)
                (if is_undefined r then "undefined" else JSON_stringify r)
                (ensure (fs _ _ st)) Hp U1 U2) as W.
  pose proof (write_keeps "./cache" (path args)
                (if is_undefined r then "undefined" else JSON_stringify r)
                (ensure (fs _ _ st)) (ensure_exists _)) as K.
  destruct (hostWriteFile _ _ (ensure (fs _ _ st))) as [w d']. cbn in *.
  split; [now rewrite lookup_delete_ne|].
  now rewrite (ensure_done d').
Qed.


End Calls.

(** The host with directories meets what is asked of a host. *)
Lemma dir_creates_cache (d : Fixtures.dir_disk) :
  Fixtures.dir_exists "./cache" (Fixtures.dir_mkdir "./cache" d) = true.
Proof.
  unfold Fixtures.dir_mkdir. change (Fixtures.dirname "./cache") with ".".
  change (Fixtures.is_dir "." d) with true. cbn [andb].
  destruct (Fixtures.dir_exists "./cache" d) eqn:E; cbn [negb]; [exact E|].
  unfold Fixtures.dir_exists, Fixtures.is_dir. cbn.
  rewrite bool_decide_eq_true_2 by set_solver. reflexivity.
Qed.

Lemma dir_write_keeps (p q content : string) (d : Fixtures.dir_disk) :
  Fixtures.dir_exists p d = true ->
  Fixtures.dir_exists p (snd (Fixtures.dir_writeFile q content d)) = true.
Proof.
  intros E. unfold Fixtures.dir_writeFile.
  destruct (_ && _); cbn [snd]; [|exact E].
  unfold Fixtures.dir_exists, Fixtures.is_dir in *. cbn.
  apply orb_true_iff in E as [E|E]; [now rewrite E|].
  apply orb_true_iff. right.
  apply bool_decide_eq_true in E. apply bool_decide_eq_true.
  destruct (decide (q = p)) as [->|Hqp];
    [rewrite lookup_insert_eq; now eexists
    | now rewrite lookup_insert_ne].
Qed.

Lemma dir_write_frame (p q content : string) (d : Fixtures.dir_disk) :
  p <> q -> under p q = false -> under q p = false ->
  same_at _ Fixtures.dir_exists Fixtures.dir_readFile Fixtures.dir_writeFile
    p (snd (Fixtures.dir_writeFile q content d)) d.
Proof.
  intros Hpq _ _.
  destruct (Fixtures.dir_writeFile q content d) as [w d'] eqn:E.
  unfold Fixtures.dir_writeFile in E.
  destruct (Fixtures.is_dir (Fixtures.dirname q) d
            && negb (Fixtures.is_dir q d));
    injection E as <- <-; cbn [snd]; [|now repeat split].
  unfold same_at, Fixtures.dir_exists, Fixtures.dir_readFile,
    Fixtures.dir_writeFile, Fixtures.is_dir. cbn.
  rewrite lookup_insert_ne by congruence.
  split; [reflexivity | split; [reflexivity|]].
  intros c. now destruct (_ && _).
Qed.

Lemma dir_write_read (p content : string) (d : Fixtures.dir_disk) :
  fst (Fixtures.dir_writeFile p content d) = FsOk tt ->
  Fixtures.dir_exists p (snd (Fixtures.dir_writeFile p content d)) = true
  /\ Fixtures.dir_readFile p (snd (Fixtures.dir_writeFile p content d))
     = FsOk content.
Proof.
  unfold Fixtures.dir_writeFile.
  destruct (_ && _); cbn [fst snd]; [intros _ | discriminate].
  unfold Fixtures.dir_exists, Fixtures.dir_readFile. cbn.
  rewrite lookup_insert_eq. split; [|reflexivity].
  apply orb_true_iff. right. apply bool_decide_eq_true. now eexists.
Qed.



(** X11: when the identifier holds no slash, the cache file of every call
    is a file directly inside [./cache]: whatever the arguments render
    to, its name holds no slash. *)
Theorem cachePath_inside_cache {value : Type} (String_ : value -> string)
  (identifier : string) (args : list value) :
  CryptoRandom.all_chars not_slash identifier = true ->
  exists name,
    cachePath value String_ identifier args = "./cache/" +:+ name
    /\ CryptoRandom.all_chars not_slash name = true.
Proof.
  intros Hid. exists (hash value String_ identifier args).
  split; [reflexivity|].
  unfold hash.
  rewrite !StringFacts.all_chars_app, Hid, replace_slashes_clean.
  reflexivity.
Qed.

Lemma cachePath_inside_cache_witness :
  exists name,
    cachePath string id "f" ["../etc/passwd"; "a/b"] = "./cache/" +:+ name
    /\ CryptoRandom.all_chars not_slash name = true.
Proof.
  exact (cachePath_inside_cache id "f" ["../etc/passwd"; "a/b"] eq_refl).
Defined.

(** *** What stays in memory, and what comes back from the disk *)

Section Later.

Context {value result disk : Type}.
Variable String_ : value -> string.
Variable undefined : result.
Variable is_undefined : result -> bool.
Variable JSON_stringify : result -> string.
Variable JSON_parse : string -> settled result.
Variable hostExists : string -> disk -> bool.
Variable hostMkdir : string -> disk -> disk.
Variable hostReadFile : string -> disk -> FsResult string.
Variable hostWriteFile : string -> string -> disk -> FsResult unit * disk.
Variable identifier : string.

#[local] Abbreviation same' :=
  (same_at disk hostExists hostReadFile hostWriteFile).
#[local] Abbreviation ensure' := (ensure_cache_dir disk hostExists hostMkdir).
#[local] Abbreviation cached' :=
  (read_cached result disk undefined JSON_parse hostExists hostReadFile).
#[local] Abbreviation call' :=
  (memoized value result disk String_ undefined is_undefined JSON_stringify
     JSON_parse hostExists hostMkdir hostReadFile hostWriteFile identifier).
#[local] Abbreviation path' := (cachePath value String_ identifier).
#[local] Abbreviation key' := (hash value String_ identifier).

(** X13: a call whose [fn] throws or rejects is never retried by the same
    closure: when the hash names no member of [Object.prototype], every
    later call with these arguments is rejected with the same reason,
    whatever [fn] would do then and whatever the disk holds. *)
Theorem rejection_stays (fn : list value -> settled result)
  (args : list value) (st : memo_state result disk) (reason : string) :
  inherited (key' args) = false ->
  inProgress _ _ st !! key' args = None ->
  cached' (path' args) (ensure' (fs _ _ st)) = None ->
  fn args = Rejected reason ->
  fst (call' fn args st) = Promise (Rejected reason)
  /\ forall fn' d,
       fst (call' fn' args
              {| inProgress := inProgress _ _ (snd (call' fn args st));
                 fs := d |})
       = Promise (Rejected reason).
Proof.
  intros Hown Hin Hmiss Hfn. unfold memoized. rewrite Hin, Hown, Hmiss, Hfn.
  split; [reflexivity|]. intros fn' d. cbn. now rewrite lookup_insert_eq.
Qed.

(** X14: a result read from the cache file is kept by the closure: when
    the hash names no member of [Object.prototype], every later call with
    these arguments returns it again without looking at the disk, so a
    cache file that is changed or removed afterwards goes unnoticed. *)
Theorem cache_hit_stays (fn : list value -> settled result)
  (args : list value) (st : memo_state result disk) (p : settled result) :
  inherited (key' args) = false ->
  inProgress _ _ st !! key' args = None ->
  cached' (path' args) (ensure' (fs _ _ st)) = Some p ->
  fst (call' fn args st) = Promise p
  /\ forall fn' d,
       fst (call' fn' args
              {| inProgress := inProgress _ _ (snd (call' fn args st));
                 fs := d |})
       = Promise p.
Proof.
  intros Hown Hin Hhit. unfold memoized. rewrite Hin, Hown, Hhit.
  split; [reflexivity|]. intros fn' d. cbn. now rewrite lookup_insert_eq.
Qed.

(** [./cache] exists once [mkdir] was called for it, writing a file
    removes no path, and a file that was written exists and reads back as
    written. *)
Hypothesis creates_cache :
  forall d, hostExists "./cache" (hostMkdir "./cache" d) = true.
Hypothesis write_keeps :
  forall p q content d,
    hostExists p d = true ->
    hostExists p (snd (hostWriteFile q content d)) = true.
Hypothesis write_read :
  forall p content d,
    fst (hostWriteFile p content d) = FsOk tt ->
    hostExists p (snd (hostWriteFile p content d)) = true
    /\ hostReadFile p (snd (hostWriteFile p content d)) = FsOk content.

(** X12: after a call that computed its result [r] and wrote it, under a
    hash that names no member of [Object.prototype], the next call with
    these arguments does not run the function: it resolves to what the
    cache file gives, [undefined] for the text [undefined] and
    [JSON.parse(JSON.stringify(r))] otherwise. *)
Theorem second_call_reads_cache (fn : list value -> settled result)
  (args : list value) (st : memo_state result disk) (r : result) :
  let toCache := if is_undefined r then "undefined" else JSON_stringify r in
  inherited (key' args) = false ->
  inProgress _ _ st !! key' args = None ->
  cached' (path' args) (ensure' (fs _ _ st)) = None ->
  fn args = Resolved r ->
  fst (hostWriteFile (path' args) toCache (ensure' (fs _ _ st))) = FsOk tt ->
  fst (call' fn args st) = Promise (Resolved r)
  /\ forall fn',
       fst (call' fn' args (snd (call' fn args st)))
       = Promise (if String.eqb toCache "undefined" then Resolved undefined
                  else JSON_parse toCache).
Proof.
  intros toCache Hown Hin Hmiss Hfn Hw.
  destruct (write_read _ _ _ Hw) as [Hex Hrd].
  assert (Hdir : hostExists "./cache" (ensure' (fs _ _ st)) = true).
  { unfold ensure_cache_dir.
    destruct (hostExists "./cache" (fs _ _ st)) eqn:E;
      [exact E | apply creates_cache]. }
  apply (write_keeps _ (path' args) toCache) in Hdir.
  unfold memoized at 1 3. rewrite Hin, Hown, Hmiss, Hfn. fold toCache.
  destruct (hostWriteFile (path' args) toCache (ensure' (fs _ _ st)))
    as [w d'] eqn:Ew. cbn in Hw, Hex, Hrd, Hdir. subst w.
  split; [reflexivity|]. intros fn'. cbn [snd fst].
  unfold memoized. cbn [inProgress fs]. rewrite lookup_delete_eq, Hown.
  unfold ensure_cache_dir at 1 2. rewrite Hdir.
  unfold read_cached. now rewrite Hex, Hrd.
Qed.

End Later.

Lemma mem_write_read (p content : string) (d : Fixtures.mem_disk) :
  fst (Fixtures.mem_writeFile p content d) = FsOk tt ->
  Fixtures.mem_exists p (snd (Fixtures.mem_writeFile p content d)) = true
  /\ Fixtures.mem_readFile p (snd (Fixtures.mem_writeFile p content d))
     = FsOk content.
Proof.
  intros _. unfold Fixtures.mem_exists, Fixtures.mem_readFile,
    Fixtures.mem_writeFile. cbn. unfold Fixtures.mem_disk in *.
  rewrite lookup_insert_eq. split; [|reflexivity].
  apply bool_decide_eq_true. now eexists.
Qed.

(** [f("a", "b")] computed and stored, then asked again of any other
    function. *)
Lemma second_call_reads_cache_witness :
  fst (Fixtures.memo_with Fixtures.count_fn ["a"; "b"] Fixtures.fresh_memo)
  = Promise (Resolved (Some 2%N))
  /\ forall fn',
       fst (Fixtures.memo_with fn' ["a"; "b"]
              (snd (Fixtures.memo_with Fixtures.count_fn ["a"; "b"]
                      Fixtures.fresh_memo)))
       = Promise (Resolved (Some 2%N)).
Proof.
  exact (second_call_reads_cache id None _ _ _
           Fixtures.dir_exists Fixtures.dir_mkdir
           Fixtures.dir_readFile Fixtures.dir_writeFile "f"
           dir_creates_cache dir_write_keeps dir_write_read
           Fixtures.count_fn ["a"; "b"] Fixtures.fresh_memo (Some 2%N)
           eq_refl eq_refl eq_refl eq_refl eq_refl).
Defined.

Lemma rejection_stays_witness :
  fst (Fixtures.memo_with Fixtures.failing_fn ["a"] Fixtures.fresh_memo)
  = Promise (Rejected "boom")
  /\ forall fn' d,
       fst (Fixtures.memo_with fn' ["a"]
              {| inProgress :=
                   inProgress _ _
                     (snd (Fixtures.memo_with Fixtures.failing_fn ["a"]
                             Fixtures.fresh_memo));
                 fs := d |})
       = Promise (Rejected "boom").
Proof.
  exact (rejection_stays id None _ _ _
           Fixtures.dir_exists Fixtures.dir_mkdir
           Fixtures.dir_readFile Fixtures.dir_writeFile "f"
           Fixtures.failing_fn ["a"] Fixtures.fresh_memo "boom"
           eq_refl eq_refl eq_refl eq_refl).
Defined.

(** The cache file of [f("a")] holds the text [42]. *)
Lemma cache_hit_stays_witness :
  fst (Fixtures.memo_with Fixtures.count_fn ["a"] Fixtures.warm_memo)
  = Promise (Resolved (Some 42%N))
  /\ forall fn' d,
       fst (Fixtures.memo_with fn' ["a"]
              {| inProgress :=
                   inProgress _ _
                     (snd (Fixtures.memo_with Fixtures.count_fn ["a"]
                             Fixtures.warm_memo));
                 fs := d |})
       = Promise (Resolved (Some 42%N)).
Proof.
  exact (cache_hit_stays id None _ _ _
           Fixtures.dir_exists Fixtures.dir_mkdir
           Fixtures.dir_readFile Fixtures.dir_writeFile "f"
           Fixtures.count_fn ["a"] Fixtures.warm_memo
           (Resolved (Some 42%N)) eq_refl eq_refl eq_refl).
Defined.

End MemoizeFacts.

(** ** readFileBinaryRaw and writeFileBinaryRaw *)

Module BinaryFileFacts.
Import Base64 Memoize BinaryFiles.

Section WithHost.

Context {disk : Type}.
Variable hostReadFileBinary : string -> disk -> FsResult string.
Variable hostWriteFileBinary :
  string -> string -> disk -> FsResult unit * disk.

(** A file that was written reads back as the base64 text that was
    given. *)
Hypothesis write_read_binary :
  forall p base64 d,
    fst (hostWriteFileBinary p base64 d) = FsOk tt ->
    hostReadFileBinary p (snd (hostWriteFileBinary p base64 d))
    = FsOk base64.

(** X7: what [readFileBinaryRaw] returns for a file that
    [writeFileBinaryRaw] has just written: the data when its length is 1
    modulo 3, and the data without its last byte otherwise. *)
Theorem write_then_read_binary (path : string) (data : list byte)
  (d : disk) :
  fst (writeFileBinaryRaw disk hostWriteFileBinary path data d) = FsOk tt ->
  readFileBinaryRaw disk hostReadFileBinary path
    (snd (writeFileBinaryRaw disk hostWriteFileBinary path data d))
  = FsOk (if (length data mod 3 =? 1)%nat then data
          else take (length data - 1) data).
Proof.
  unfold writeFileBinaryRaw, readFileBinaryRaw. cbv zeta. intros Hw.
  rewrite (write_read_binary _ _ _ Hw), Base64Facts.decode_encode_kept.
  unfold kept. destruct (length data mod 3 =? 1)%nat; [|reflexivity].
  now rewrite take_ge by lia.
Qed.

End WithHost.

(** The five bytes of "Hello" written to the in-memory host come back as
    "Hell". *)
Lemma write_then_read_binary_witness :
  readFileBinaryRaw _ Fixtures.mem_readFile "/tmp/file.bin"
    (snd (writeFileBinaryRaw _ Fixtures.mem_writeFile "/tmp/file.bin"
            ["H"%byte; "e"%byte; "l"%byte; "l"%byte; "o"%byte] ∅))
  = FsOk ["H"%byte; "e"%byte; "l"%byte; "l"%byte].
Proof.
  exact (write_then_read_binary Fixtures.mem_readFile Fixtures.mem_writeFile
           (fun p c d H => proj2 (MemoizeFacts.mem_write_read p c d H))
           "/tmp/file.bin"
           ["H"%byte; "e"%byte; "l"%byte; "l"%byte; "o"%byte] ∅ eq_refl).
Defined.

End BinaryFileFacts.

(** ** Fetcher *)

Module FetcherFacts.
Import Fetcher.

(** In a redirect chain every hop is followed until none is left. *)
Lemma get_following_chain (n : network) (chain : string -> Prop) :
  redirect_chain n chain ->
  forall hops url, chain url ->
    exists trace,
      get_following n hops url = (trace, inl RedirectLoop)
      /\ length trace = S hops.
Proof.
  intros Hchain hops; induction hops as [|hops IH]; intros url Hurl;
    destruct (Hchain url Hurl) as (location & Hnet & Hloc); simpl;
    rewrite Hnet.
  - now exists [url].
  - destruct (IH location Hloc) as (trace & -> & Hlen).
    exists (url :: trace). split; [reflexivity | simpl; now rewrite Hlen].
Qed.

End FetcherFacts.

(** ** Bundler runs against the fetcher *)

Module RunFacts.
Import Fetcher Bundler FetcherFacts.

(** Once a request has entered a redirect chain, the fetch ends in
    RedirectLoop. *)
Lemma get_following_enters (n : network) (chain : string -> Prop) :
  redirect_chain n chain ->
  forall hops url u,
    u ∈ fst (get_following n hops url) -> chain u ->
    snd (get_following n hops url) = inl RedirectLoop.
Proof.
  intros Hchain hops. induction hops as [|hops IH]; intros url u; simpl.
  - destruct (n url) eqn:Hn; simpl; try reflexivity;
      intros Hu Hc; apply list_elem_of_singleton in Hu as ->;
      destruct (Hchain url Hc) as (location & Hnet & _); congruence.
  - destruct (n url) as [body|location|status|] eqn:Hn; simpl;
      try (intros Hu Hc; apply list_elem_of_singleton in Hu as ->;
           destruct (Hchain url Hc) as (l & Hnet & _); congruence).
    specialize (IH location u).
    destruct (get_following n hops location) as [trace r] eqn:Hget.
    simpl in *. intros Hu Hc.
    apply elem_of_cons in Hu as [->|Hu]; [|now apply IH].
    destruct (Hchain url Hc) as (l & Hnet & Hl).
    assert (l = location) as -> by congruence.
    destruct (get_following_chain n chain Hchain hops location Hl)
      as (trace' & Hget' & _).
    congruence.
Qed.

#[local] Arguments get_following : simpl never.

Lemma fetch_chain (e : env) (chain : string -> Prop) (uri u : string)
  (st : state) :
  redirect_chain (net e) chain -> chain u ->
  u ∈ requests (snd (fetch e uri st)) ->
  u ∈ requests st \/ fst (fetch e uri st) = inl RedirectLoop.
Proof.
  intros Hchain Hu. unfold fetch, fetch_http.
  destruct (is_http uri).
  2: { destruct (is_host uri); [destruct (host_exports uri)|
         destruct (files e !! uri)]; simpl; now left. }
  destruct (if reload e then None else cache st !! uri); [simpl; now left|].
  pose proof (get_following_enters (net e) chain Hchain MAX_REDIRECTS uri u)
    as Henter.
  destruct (get_following (net e) MAX_REDIRECTS uri) as [trace r].
  simpl in Henter.
  assert (Hreq : u ∈ (requests st ++ trace)%list ->
                 u ∈ requests st \/ r = inl RedirectLoop).
  { intros H. apply elem_of_app in H as [H|H]; [now left | right; auto]. }
  destruct r as [[]|body]; simpl;
    try (destruct (cache st !! uri); simpl);
    intros H; destruct (Hreq H) as [?|?];
    solve [now left | now right | discriminate].
Qed.

(** A run that asked for a URL inside a redirect chain was aborted with
    RedirectLoop. *)
Lemma run_chain {A} (e : env) (chain : string -> Prop) (p : prog A) :
  redirect_chain (net e) chain ->
  forall st u, chain u ->
    u ∈ requests (snd (run_prog e p st)) ->
    u ∈ requests st
    \/ exists uri, fst (run_prog e p st) = inl (FetchFailed RedirectLoop uri).
Proof.
  intros Hchain.
  induction p as [a|err|uri k IH]; intros st u Hu; simpl;
    try (now left).
  pose proof (fetch_chain e chain uri u st Hchain Hu) as Hfetch.
  destruct (fetch e uri st) as [[fe|text] st1]; simpl in *.
  - intros H. destruct (Hfetch H) as [?|[= ->]]; [now left|].
    right. now exists uri.
  - intros H. destruct (IH text st1 u Hu H) as [H1|?]; [|now right].
    destruct (Hfetch H1) as [?|?]; [now left | discriminate].
Qed.

(** Without [--reload], a fetch that succeeded is answered again from any
    larger cache, whatever the network, and leaves the state alone. *)
Lemma fetch_again (e e' : env) (uri body : string) (st st1 : state) :
  reload e = false -> reload e' = false -> files e' = files e ->
  fetch e uri st = (inr body, st1) ->
  cache st ⊆ cache st1
  /\ forall st2, cache st1 ⊆ cache st2 -> fetch e' uri st2 = (inr body, st2).
Proof.
  intros Hr Hr' Hf. unfold fetch, fetch_http. rewrite Hr, Hr', Hf.
  destruct (is_http uri).
  - destruct (cache st !! uri) as [cached|] eqn:Hc.
    + intros [= <- <-]. split; [reflexivity|].
      intros st2 Hsub. now rewrite (lookup_weaken _ _ _ _ Hc Hsub).
    + destruct (get_following (net e) MAX_REDIRECTS uri) as [trace [[]|b]];
        simpl; rewrite ?Hc; try discriminate.
      intros [= <- <-]. simpl. split.
      * now apply insert_subseteq.
      * intros st2 Hsub.
        assert (Hin : cache st2 !! uri = Some b)
          by (eapply lookup_weaken; [apply lookup_insert_eq | exact Hsub]).
        now rewrite Hin.
  - destruct (is_host uri).
    + destruct (host_exports uri); intros [= <- <-]; now split.
    + destruct (files e !! uri); intros [= <- <-]; now split.
Qed.

Lemma run_again {A} (e e' : env) (p : prog A) :
  reload e = false -> reload e' = false -> files e' = files e ->
  forall st a st1,
    run_prog e p st = (inr a, st1) ->
    cache st ⊆ cache st1
    /\ forall st2, cache st1 ⊆ cache st2 -> run_prog e' p st2 = (inr a, st2).
Proof.
  intros Hr Hr' Hf.
  induction p as [a0|err|uri k IH]; intros st a st1; simpl.
  - intros [= <- <-]. now split.
  - discriminate.
  - destruct (fetch e uri st) as [[fe|body] st'] eqn:E; [discriminate|].
    intros Hrun.
    destruct (fetch_again e e' uri body st st' Hr Hr' Hf E) as [S1 Hhit].
    destruct (IH body st' a st1 Hrun) as [S2 Hrest].
    split; [etrans; eassumption|].
    intros st2 Hsub. rewrite (Hhit st2) by (etrans; eassumption).
    now apply Hrest.
Qed.

(** C4: in a network where the responses to the URLs of [chain] form an
    unbounded redirect chain, the fetcher asked for one of them makes the
    request, follows 10 redirects and fails with RedirectLoop.  Every
    bundler run in which such a URL is requested is aborted: it ends with
    exit status 1, no output, and as last diagnostic the line that names
    the redirect condition and the module being fetched.  So does the run
    of the test: on a local entry module whose first import is such a URL
    (not cached, or with [--reload]) the bundler makes the 11 requests and
    ends with that diagnostic. *)
Theorem redirect_loop_aborts (e : env) (chain : string -> Prop)
  (url : string) :
  redirect_chain (net e) chain -> chain url ->
  exists trace,
    get_following (net e) MAX_REDIRECTS url = (trace, inl RedirectLoop)
    /\ length trace = 11%nat
    /\ (forall st,
          is_http url = true ->
          (reload e = false -> cache st !! url = None) ->
          fetch e url st = (inl RedirectLoop, log_requests trace st))
    /\ (forall parse_expression run_macro imports_of build_graph fuel
               emit_only entry_uri cache0,
          let run :=
            run_bundler parse_expression run_macro imports_of build_graph
              fuel e emit_only entry_uri cache0 in
          url ∈ requests (snd run) ->
          exists uri,
            fst run
            = Some {| exit_status := 1;
                      stdout := EmptyString;
                      stderr := diagnostics (snd run)
                                ++ ["Too many redirects fetching "
                                    +:+ uri] |})
    /\ (forall parse_expression run_macro imports_of build_graph fuel
               emit_only entry_uri cache0 text others,
          is_http url = true ->
          (reload e = false -> cache0 !! url = None) ->
          is_http entry_uri = false -> is_host entry_uri = false ->
          files e !! entry_uri = Some text ->
          imports_of entry_uri text = inr (url :: others) ->
          run_bundler parse_expression run_macro imports_of build_graph
            (S (S fuel)) e emit_only entry_uri cache0
          = (Some {| exit_status := 1;
                     stdout := EmptyString;
                     stderr := ["Too many redirects fetching " +:+ url] |},
             {| cache := cache0; requests := trace; diagnostics := [] |})).
Proof.
  intros Hchain Hurl.
  destruct (get_following_chain (net e) chain Hchain MAX_REDIRECTS url Hurl)
    as (trace & Hget & Hlen).
  assert (Hfetch : forall st,
             is_http url = true ->
             (reload e = false -> cache st !! url = None) ->
             fetch e url st = (inl RedirectLoop, log_requests trace st)).
  { intros st Hhttp Hmiss. unfold fetch, fetch_http. rewrite Hhttp.
    destruct (reload e); [|rewrite (Hmiss eq_refl)]; now rewrite Hget. }
  exists trace. split; [exact Hget|]. split; [exact Hlen|].
  split; [exact Hfetch|]. split.
  - intros parse_expression run_macro imports_of build_graph fuel emit_only
      entry_uri cache0 run. subst run. unfold run_bundler.
    pose proof (run_chain e chain
                  (bundler parse_expression run_macro imports_of build_graph
                     fuel emit_only entry_uri) Hchain
                  {| cache := cache0; requests := []; diagnostics := [] |}
                  url Hurl) as Hrun.
    destruct (run_prog e _ _) as [r st]. simpl in *.
    intros H. destruct (Hrun H) as [Hnil|(uri & ->)]; [inversion Hnil|].
    now exists uri.
  - intros parse_expression run_macro imports_of build_graph fuel emit_only
      entry_uri cache0 text others Hhttp Hmiss Hlocal Hnohost Hfile Himports.
    assert (Hne : String.eqb entry_uri url = false).
    { apply String.eqb_neq. intros ->. congruence. }
    unfold run_bundler, bundler. cbn [load bind run_prog].
    rewrite Hlocal. cbn [andb existsb bind run_prog].
    unfold fetch at 1. rewrite Hlocal, Hnohost, Hfile.
    rewrite Himports. cbn [app fmap list_fmap load fst bind run_prog].
    rewrite Hlocal. cbn [andb existsb fst orb bind run_prog].
    rewrite Hne. cbn [orb bind run_prog].
    now rewrite (Hfetch {| cache := cache0; requests := [];
                           diagnostics := [] |} Hhttp Hmiss).
Qed.

(** The entry module of the test imports from the URL that redirects to
    itself. *)
Lemma redirect_loop_aborts_witness :
  exists trace,
    run_bundler Fixtures.fixture_parse Fixtures.run_fixture_macro
      Fixtures.loop_imports Fixtures.fixture_graph 10 Fixtures.loop_env
      false Fixtures.loop_entry ∅
    = (Some {| exit_status := 1;
               stdout := EmptyString;
               stderr := ["Too many redirects fetching "
                          +:+ Fixtures.loop_url] |},
       {| cache := ∅; requests := trace; diagnostics := [] |})
    /\ length trace = 11%nat.
Proof.
  destruct (redirect_loop_aborts Fixtures.loop_env (fun _ => True)
              Fixtures.loop_url)
    as (trace & _ & Hlen & _ & _ & Hrun).
  - intros u _. exists Fixtures.loop_url. split; [reflexivity | exact I].
  - exact I.
  - exists trace. split; [|exact Hlen].
    refine (Hrun Fixtures.fixture_parse Fixtures.run_fixture_macro
              Fixtures.loop_imports Fixtures.fixture_graph 8%nat false
              Fixtures.loop_entry ∅ _ [] eq_refl _ eq_refl eq_refl
              eq_refl eq_refl).
    intros _. apply lookup_empty.
Defined.



End RunFacts.

(** ** Declaration graph and macro engine *)

Module GraphFacts.
Import Bundler.

(** Induction on expressions that reaches the arguments of a call. *)
Lemma expr_ind' (P : expr -> Prop)
  (HIdent : forall x, P (Ident x))
  (HNum : forall n, P (Num n))
  (HStr : forall s, P (Str s))
  (HCall : forall callee args, P callee -> Forall P args ->
                               P (Call callee args))
  (HArrow : forall params body, P body -> P (Arrow params body))
  (HBinary : forall op lhs rhs, P lhs -> P rhs -> P (Binary op lhs rhs))
  (HParen : forall e, P e -> P (Paren e)) :
  forall e, P e.
Proof.
  fix IH 1. intros [x|n|s|callee args|params body|op lhs rhs|e].
  - apply HIdent.
  - apply HNum.
  - apply HStr.
  - apply HCall; [apply IH|].
    induction args as [|a args IHargs]; constructor; [apply IH | exact IHargs].
  - apply HArrow, IH.
  - apply HBinary; apply IH.
  - apply HParen, IH.
Qed.

Lemma find_decl_Some (g : graph) (c : canonical) (d : declaration) :
  find_decl g c = Some d -> d ∈ decls g /\ d_name d = c.
Proof.
  unfold find_decl. intros H. apply find_some in H as [Hin Hc].
  split; [now apply list_elem_of_In | now apply bool_decide_eq_true in Hc].
Qed.

Lemma traverse_cons {A B} (f : A -> error + B) (a : A) (l : list A) :
  traverse f (a :: l)
  = match f a with
    | inl err => inl err
    | inr b =>
        match traverse f l with
        | inl err => inl err
        | inr bs => inr (b :: bs)
        end
    end.
Proof. reflexivity. Qed.

Lemma traverse_inr {A B} (f : A -> error + B) (l : list A) (l' : list B) :
  traverse f l = inr l' <-> Forall2 (fun a b => f a = inr b) l l'.
Proof.
  revert l'. induction l as [|a l IH]; intros l'.
  - split; [intros [= <-]; constructor | intros H; now inversion H].
  - rewrite traverse_cons. split.
    + destruct (f a) as [err|b] eqn:Ea; [discriminate|].
      destruct (traverse f l) as [err|bs]; [discriminate|].
      intros [= <-]. constructor; [exact Ea | now apply IH].
    + intros H. inversion H as [|? b ? bs Ea Hrest]; subst.
      rewrite Ea. apply IH in Hrest. now rewrite Hrest.
Qed.

Lemma expand_list_cons f (a : expr) (l : list expr)
  (acc : gmap string canonical) :
  expand_list f (a :: l) acc
  = match f a acc with
    | inl err => inl err
    | inr (a', acc1) =>
        match expand_list f l acc1 with
        | inl err => inl err
        | inr (l', acc2) => inr (a' :: l', acc2)
        end
    end.
Proof. reflexivity. Qed.

#[local] Arguments expand_list : simpl never.
#[local] Arguments traverse : simpl never.

Lemma callee_macro_Some (g : graph) (refs : gmap string canonical)
  (callee : expr) (dm : declaration) :
  callee_macro g refs callee = Some dm ->
  find_decl g (d_name dm) = Some dm /\ macro_marker dm = true
  /\ exists f, callee = Ident f /\ refs !! f = Some (d_name dm).
Proof.
  unfold callee_macro. destruct callee as [f| | | | | |]; try discriminate.
  destruct (refs !! f) as [c|] eqn:Hf; [|discriminate].
  destruct (find_decl g c) as [d|] eqn:Hd; [|discriminate].
  destruct (macro_marker d) eqn:Hm; [|discriminate].
  intros [= <-]. pose proof (find_decl_Some _ _ _ Hd) as [_ <-].
  split; [assumption|]. split; [assumption|]. now exists f.
Qed.

Lemma map_union_absorb (X Y : gmap string canonical) :
  Y ⊆ X -> X ∪ Y = X.
Proof.
  intros Hsub. apply map_eq. intros k. rewrite lookup_union.
  destruct (X !! k) as [c|] eqn:HX; destruct (Y !! k) as [c'|] eqn:HY;
    try reflexivity.
  pose proof (lookup_weaken _ _ _ _ HY Hsub). congruence.
Qed.

(** *** Running the bundler *)

Lemma run_bind {A B} (e : Fetcher.env) (p : prog A) (f : A -> prog B) :
  forall st,
    run_prog e (bind p f) st
    = match run_prog e p st with
      | (inl err, st') => (inl err, st')
      | (inr a, st') => run_prog e (f a) st'
      end.
Proof.
  induction p as [a|err|uri k IH]; intros st; simpl; try reflexivity.
  destruct (Fetcher.fetch e uri st) as [[fe|text] st']; [reflexivity|].
  apply IH.
Qed.

(** *** Reachability and emission order *)

Lemma walk_live (g : graph) (fuel : nat) :
  forall work seen c,
    c ∈ walk fuel g work seen ->
    c ∈ seen
    \/ exists d, find_decl g c = Some d /\ macro_marker d = false.
Proof.
  induction fuel as [|fuel IH]; intros work seen c; simpl; [now left|].
  destruct work as [|w rest]; [now left|].
  destruct (bool_decide (w ∈ seen)); [apply IH|].
  destruct (find_decl g w) as [d|] eqn:Hf; [|apply IH].
  destruct (macro_marker d) eqn:Hm; [apply IH|].
  intros Hc. apply IH in Hc as [Hc|Hc]; [|now right].
  apply elem_of_app in Hc as [Hc|Hc]; [now left|].
  apply list_elem_of_singleton in Hc as ->. right. now exists d.
Qed.

Lemma live_names_spec (g : graph) (c : canonical) :
  c ∈ live_names g ->
  exists d, find_decl g c = Some d /\ macro_marker d = false
            /\ d ∈ live_decls g.
Proof.
  intros Hc. pose proof Hc as Hc'.
  apply walk_live in Hc as [Hc|(d & Hf & Hm)]; [inversion Hc|].
  exists d. split; [assumption|]. split; [assumption|].
  unfold live_decls. apply list_elem_of_omap. now exists c.
Qed.

Lemma live_decls_spec (g : graph) (d : declaration) :
  d ∈ live_decls g ->
  d_name d ∈ live_names g /\ find_decl g (d_name d) = Some d
  /\ macro_marker d = false.
Proof.
  unfold live_decls. intros H.
  apply list_elem_of_omap in H as (c & Hc & Hf).
  pose proof (find_decl_Some g c d Hf) as [_ Hn]. subst c.
  split; [assumption|]. split; [assumption|].
  apply walk_live in Hc as [Hc|(d' & Hf' & Hm)]; [inversion Hc|].
  congruence.
Qed.

Lemma topo_elem (fuel : nat) :
  forall placed remaining d,
    d ∈ topo fuel placed remaining -> d ∈ placed \/ d ∈ remaining.
Proof.
  induction fuel as [|fuel IH]; intros placed remaining d; simpl.
  - intros H. now apply elem_of_app in H.
  - destruct remaining as [|first rest]; [now left|].
    intros H. apply IH in H as [H|H].
    + apply elem_of_app in H as [H|H]; [now left|].
      apply list_elem_of_singleton in H as ->. right.
      destruct (List.find _ (first :: rest)) as [d'|] eqn:Hf.
      * apply find_some in Hf as [Hin _]. now apply list_elem_of_In.
      * apply list_elem_of_here.
    + right. unfold drop_decl in H.
      apply list_elem_of_In, filter_In in H as [H _].
      now apply list_elem_of_In.
Qed.

Lemma drop_decl_length (pick : declaration) (ds : list declaration) :
  pick ∈ ds -> (length (drop_decl pick ds) < length ds)%nat.
Proof.
  unfold drop_decl. induction ds as [|d ds IH]; intros Hin; [inversion Hin|].
  simpl. destruct (bool_decide (d_name d = d_name pick)) eqn:Hd; simpl.
  - pose proof (filter_length_le
                  (fun d' => negb (bool_decide (d_name d' = d_name pick))) ds).
    lia.
  - apply elem_of_cons in Hin as [->|Hin].
    + apply bool_decide_eq_false in Hd. congruence.
    + specialize (IH Hin). lia.
Qed.

(** Every declaration handed to the sort is placed, up to its name. *)
Lemma topo_complete (fuel : nat) :
  forall placed remaining d,
    (length remaining <= fuel)%nat ->
    d ∈ placed \/ d ∈ remaining ->
    exists d', d' ∈ topo fuel placed remaining /\ d_name d' = d_name d.
Proof.
  induction fuel as [|fuel IH]; intros placed remaining d Hlen Hd; simpl.
  - destruct remaining; [|simpl in Hlen; lia].
    rewrite app_nil_r. destruct Hd as [Hd|Hd]; [|inversion Hd].
    now exists d.
  - destruct remaining as [|first rest];
      [destruct Hd as [Hd|Hd]; [now exists d | inversion Hd]|].
    set (pick := match List.find _ (first :: rest) with
                 | Some d0 => d0
                 | None => first
                 end).
    assert (Hpick : pick ∈ first :: rest).
    { subst pick. destruct (List.find _ (first :: rest)) as [d0|] eqn:Hf.
      - apply find_some in Hf as [Hin _]. now apply list_elem_of_In.
      - apply list_elem_of_here. }
    pose proof (drop_decl_length pick _ Hpick) as Hdrop.
    assert (Hfuel : (length (drop_decl pick (first :: rest)) <= fuel)%nat)
      by (cbn [length] in Hlen, Hdrop; lia).
    destruct Hd as [Hd|Hd].
    + apply (IH _ _ d Hfuel). left. apply elem_of_app. now left.
    + destruct (decide (d_name d = d_name pick)) as [Heq|Hne].
      * destruct (IH (placed ++ [pick])%list _ pick Hfuel) as (d' & Hd' & Hn).
        { left. apply elem_of_app. right. apply list_elem_of_here. }
        exists d'. split; [assumption | congruence].
      * apply (IH _ _ d Hfuel). right. unfold drop_decl.
        apply list_elem_of_In, filter_In. split; [now apply list_elem_of_In|].
        apply negb_true_iff, bool_decide_eq_false. exact Hne.
Qed.

(** *** Renaming *)

Lemma free_idents_arrow (params : list string) (body : expr) (x : string) :
  x ∈ free_idents (Arrow params body) <->
  x ∈ free_idents body /\ x ∉ params.
Proof.
  simpl. rewrite list_elem_of_In, filter_In, <- list_elem_of_In.
  rewrite negb_true_iff. split; intros [H1 H2]; (split; [assumption|]).
  - intros Hin. apply (not_true_iff_false _) in H2. apply H2.
    apply existsb_exists. exists x.
    split; [now apply list_elem_of_In | apply String.eqb_refl].
  - apply not_true_iff_false. intros Hex.
    apply existsb_exists in Hex as (y & Hy & Heq).
    apply String.eqb_eq in Heq as ->. apply H2. now apply list_elem_of_In.
Qed.

(** A renaming that succeeds has resolved every reference to a surviving
    declaration or to a host binding. *)
Lemma rename_resolves (names : list canonical) :
  forall e refs e',
    rename names refs e = inr e' ->
    forall x c, x ∈ free_idents e -> refs !! x = Some c ->
      is_Some (index_of c names) \/ Fetcher.is_host (uri c) = true.
Proof.
  induction e as [y|n|s|callee args IHc IHa|params body IH
                  |op lhs rhs IHl IHr|e IH] using expr_ind';
    intros refs e' Hren x c Hx Hc.
  - apply list_elem_of_singleton in Hx as ->. simpl in Hren.
    rewrite Hc in Hren. destruct (index_of c names); [left; now eexists|].
    destruct (Fetcher.is_host (uri c)); [now right | discriminate].
  - inversion Hx.
  - inversion Hx.
  - simpl in Hren.
    destruct (rename names refs callee) as [err|callee'] eqn:Ec;
      [discriminate|].
    destruct (traverse (rename names refs) args) as [err|args'] eqn:Ea;
      [discriminate|].
    simpl in Hx. apply elem_of_app in Hx as [Hx|Hx];
      [exact (IHc _ _ Ec _ _ Hx Hc)|].
    apply list_elem_of_In, in_flat_map in Hx as (a & Ha & Hxa).
    apply list_elem_of_In in Ha, Hxa.
    apply traverse_inr in Ea.
    apply list_elem_of_lookup in Ha as (i & Hi).
    destruct (Forall2_lookup_l _ _ _ _ _ Ea Hi) as (a' & _ & Hra).
    rewrite Forall_forall in IHa.
    apply (IHa a (proj2 (list_elem_of_lookup _ _) (ex_intro _ i Hi))
             _ _ Hra _ _ Hxa Hc).
  - simpl in Hren.
    destruct (rename names (hide params refs) body) as [err|body'] eqn:Eb;
      [discriminate|].
    apply free_idents_arrow in Hx as [Hx Hp].
    apply (IH _ _ Eb _ _ Hx). unfold hide.
    apply map_lookup_filter_Some. now split.
  - simpl in Hren.
    destruct (rename names refs lhs) as [err|lhs'] eqn:El; [discriminate|].
    destruct (rename names refs rhs) as [err|rhs'] eqn:Er; [discriminate|].
    simpl in Hx. apply elem_of_app in Hx as [Hx|Hx];
      [exact (IHl _ _ El _ _ Hx Hc) | exact (IHr _ _ Er _ _ Hx Hc)].
  - simpl in Hren.
    destruct (rename names refs e) as [err|e1] eqn:Ee; [discriminate|].
    exact (IH _ _ Ee _ _ Hx Hc).
Qed.

Lemma index_of_Some (c : canonical) (names : list canonical) (i : nat) :
  index_of c names = Some i -> c ∈ names.
Proof.
  unfold index_of. intros H. apply fmap_Some in H as ([j c'] & Hfind & _).
  apply list_find_Some in Hfind as (Hj & -> & _).
  apply list_elem_of_lookup. now exists j.
Qed.

(** The identifiers of renamed code. *)
Lemma rename_idents (names : list canonical) :
  forall e refs e',
    rename names refs e = inr e' ->
    forall y, y ∈ free_idents e' ->
      (exists x c i, refs !! x = Some c /\ index_of c names = Some i
                     /\ y = emit_name i)
      \/ (exists x c, refs !! x = Some c /\ Fetcher.is_host (uri c) = true
                      /\ y = name c)
      \/ (y ∈ free_idents e /\ refs !! y = None).
Proof.
  induction e as [x|n|s|callee args IHc IHa|params body IH
                  |op lhs rhs IHl IHr|e IH] using expr_ind';
    intros refs e' Hren y Hy; simpl in Hren.
  - destruct (refs !! x) as [c|] eqn:Hx.
    + destruct (index_of c names) as [i|] eqn:Hi.
      * injection Hren as <-. apply list_elem_of_singleton in Hy as ->.
        left. now exists x, c, i.
      * destruct (Fetcher.is_host (uri c)) eqn:Hh; [|discriminate].
        injection Hren as <-. apply list_elem_of_singleton in Hy as ->.
        right. left. now exists x, c.
    + injection Hren as <-. apply list_elem_of_singleton in Hy as ->.
      right. right. split; [apply list_elem_of_here | assumption].
  - injection Hren as <-. inversion Hy.
  - injection Hren as <-. inversion Hy.
  - destruct (rename names refs callee) as [err|callee'] eqn:Ec;
      [discriminate|].
    destruct (traverse (rename names refs) args) as [err|args'] eqn:Ea;
      [discriminate|].
    injection Hren as <-. simpl in Hy.
    apply elem_of_app in Hy as [Hy|Hy].
    + destruct (IHc _ _ Ec _ Hy) as [H|[H|[H1 H2]]];
        [now left | now right; left |].
      right. right. split; [|assumption]. simpl. apply elem_of_app. now left.
    + apply list_elem_of_In, in_flat_map in Hy as (a' & Ha' & Hya).
      apply list_elem_of_In in Ha', Hya.
      apply traverse_inr in Ea.
      apply list_elem_of_lookup in Ha' as (i & Hi).
      destruct (Forall2_lookup_r _ _ _ _ _ Ea Hi) as (a & Ha & Hra).
      assert (Hin : a ∈ args) by (apply list_elem_of_lookup; now exists i).
      rewrite Forall_forall in IHa.
      destruct (IHa a Hin _ _ Hra _ Hya) as [H|[H|[H1 H2]]];
        [now left | now right; left |].
      right. right. split; [|assumption]. simpl. apply elem_of_app. right.
      apply list_elem_of_In, in_flat_map. exists a.
      split; now apply list_elem_of_In.
  - destruct (rename names (hide params refs) body) as [err|body'] eqn:Eb;
      [discriminate|].
    injection Hren as <-. apply free_idents_arrow in Hy as [Hy Hp].
    destruct (IH _ _ Eb _ Hy) as [(x & c & i & Hx & Hi & ->)
                                 |[(x & c & Hx & Hh & ->)|[H1 H2]]].
    + left. exists x, c, i. split; [|now split].
      now apply map_lookup_filter_Some in Hx as [Hx _].
    + right. left. exists x, c. split; [|now split].
      now apply map_lookup_filter_Some in Hx as [Hx _].
    + right. right. split; [now apply free_idents_arrow|].
      unfold hide in H2. apply map_lookup_filter_None in H2 as [H2|H2];
        [assumption|].
      destruct (refs !! y) as [c|] eqn:Hc; [|reflexivity].
      exfalso. exact (H2 c eq_refl Hp).
  - destruct (rename names refs lhs) as [err|lhs'] eqn:El; [discriminate|].
    destruct (rename names refs rhs) as [err|rhs'] eqn:Er; [discriminate|].
    injection Hren as <-. simpl in Hy.
    apply elem_of_app in Hy as [Hy|Hy].
    + destruct (IHl _ _ El _ Hy) as [H|[H|[H1 H2]]];
        [now left | now right; left |].
      right. right. split; [|assumption]. simpl. apply elem_of_app. now left.
    + destruct (IHr _ _ Er _ Hy) as [H|[H|[H1 H2]]];
        [now left | now right; left |].
      right. right. split; [|assumption]. simpl. apply elem_of_app. now right.
  - destruct (rename names refs e) as [err|e1] eqn:Ee; [discriminate|].
    injection Hren as <-. simpl in Hy.
    exact (IH _ _ Ee _ Hy).
Qed.

Lemma elem_of_targets (d : declaration) (x : string) (c : canonical) :
  d_refs d !! x = Some c -> c ∈ targets d.
Proof.
  intros H. unfold targets. apply list_elem_of_fmap. exists (x, c).
  split; [reflexivity | now apply elem_of_map_to_list].
Qed.

(** *** One iteration replaces the call-sites *)

Section Replaced.

Variable parse_expression : string -> error + expr.
Variable run_macro : expr -> list closure -> error + closure.
Variable g : graph.

#[local] Abbreviation expand_expr' := (expand_expr parse_expression run_macro g).

Lemma expand_list_replaces (refs : gmap string canonical)
  (args : list expr) :
  Forall (fun e => forall refs acc e' acc',
            expand_expr' refs e acc = inr (e', acc') ->
            replaces parse_expression run_macro g refs e e' /\ acc ⊆ acc')
         args ->
  forall acc args' acc',
    expand_list (expand_expr' refs) args acc = inr (args', acc') ->
    Forall2 (replaces parse_expression run_macro g refs) args args'
    /\ acc ⊆ acc'.
Proof.
  induction 1 as [|a args Ha _ IH]; intros acc args' acc'.
  - intros [= <- <-]. split; [constructor | reflexivity].
  - rewrite expand_list_cons.
    destruct (expand_expr' refs a acc) as [err|[a' acc1]] eqn:Ea;
      [discriminate|].
    destruct (expand_list (expand_expr' refs) args acc1)
      as [err|[args1 acc2]] eqn:Eargs; [discriminate|].
    intros [= <- <-].
    destruct (Ha _ _ _ _ Ea) as [Hr1 Hs1].
    destruct (IH _ _ _ Eargs) as [Hr2 Hs2].
    split; [now constructor | etrans; eassumption].
Qed.

(** What [expand_expr] computes is what the spec asks of one iteration,
    and the collected references only grow. *)
Lemma expand_expr_replaces :
  forall e refs acc e' acc',
    expand_expr' refs e acc = inr (e', acc') ->
    replaces parse_expression run_macro g refs e e' /\ acc ⊆ acc'.
Proof.
  induction e as [x|n|s|callee args IHc IHa|params body IH
                  |op lhs rhs IHl IHr|e IH] using expr_ind';
    intros refs acc e' acc'; simpl.
  - intros [= <- <-]. split; [constructor | reflexivity].
  - intros [= <- <-]. split; [constructor | reflexivity].
  - intros [= <- <-]. split; [constructor | reflexivity].
  - destruct (callee_macro g refs callee) as [dm|] eqn:Hcm.
    + destruct (run_macro (macro_fn dm) (map (capture refs) args))
        as [err|r] eqn:Hrun; [discriminate|].
      destruct (parse_expression (expression r)) as [err|new] eqn:Hparse;
        [discriminate|].
      intros [= <- <-]. split.
      * eapply replaces_call_site; eassumption.
      * apply map_union_subseteq_l.
    + destruct (expand_expr' refs callee acc) as [err|[callee' acc1]] eqn:Ec;
        [discriminate|].
      destruct (expand_list (expand_expr' refs) args acc1)
        as [err|[args' acc2]] eqn:Eargs; [discriminate|].
      intros [= <- <-].
      destruct (IHc _ _ _ _ Ec) as [Hr1 Hs1].
      destruct (expand_list_replaces refs args IHa _ _ _ Eargs)
        as [Hr2 Hs2].
      split; [now apply replaces_call | etrans; eassumption].
  - destruct (expand_expr' (hide params refs) body acc)
      as [err|[body' acc1]] eqn:Eb; [discriminate|].
    intros [= <- <-]. destruct (IH _ _ _ _ Eb) as [Hr Hs].
    split; [now constructor | assumption].
  - destruct (expand_expr' refs lhs acc) as [err|[lhs' acc1]] eqn:El;
      [discriminate|].
    destruct (expand_expr' refs rhs acc1) as [err|[rhs' acc2]] eqn:Er;
      [discriminate|].
    intros [= <- <-].
    destruct (IHl _ _ _ _ El) as [Hr1 Hs1].
    destruct (IHr _ _ _ _ Er) as [Hr2 Hs2].
    split; [now constructor | etrans; eassumption].
  - destruct (expand_expr' refs e acc) as [err|[e1 acc1]] eqn:Ee;
      [discriminate|].
    intros [= <- <-]. destruct (IH _ _ _ _ Ee) as [Hr Hs].
    split; [now constructor | assumption].
Qed.

Lemma expand_pass_iteration (g' : graph) :
  expand_pass parse_expression run_macro g = inr g' ->
  iteration parse_expression run_macro g g'.
Proof.
  unfold expand_pass.
  destruct (traverse _ (decls g)) as [err|new] eqn:Hnew; [discriminate|].
  intros [= <-]. split; [reflexivity|]. simpl.
  apply traverse_inr in Hnew.
  eapply Forall2_impl; [exact Hnew|].
  intros d d'. unfold expand_decl.
  destruct (macro_marker d) eqn:Hm; [now intros [= <-]|].
  destruct (expand_expr' (d_refs d) (d_ast d) ∅)
    as [err|[ast' returned]] eqn:E; [discriminate|].
  intros [= <-]. simpl.
  destruct (expand_expr_replaces _ _ _ _ _ E) as [Hr _].
  split; [reflexivity|]. split; [reflexivity|]. split; [assumption|].
  apply map_union_subseteq_l.
Qed.

End Replaced.

(** The loop ends without an error only when no call-site is left, after
    at most [cap] iterations. *)
Lemma expand_loop_iterations parse_expression run_macro (cap : nat) :
  forall g g',
    expand_loop parse_expression run_macro cap g = inr g' ->
    graph_has_macro_call g' = false
    /\ exists n, (n <= cap)%nat
         /\ nsteps (iteration parse_expression run_macro) n g g'.
Proof.
  induction cap as [|cap IH]; intros g g'; simpl;
    destruct (graph_has_macro_call g) eqn:Hscan; try discriminate;
    try (intros [= <-]; split; [assumption|];
         exists 0%nat; split; [lia | constructor]).
  destruct (expand_pass parse_expression run_macro g) as [err|g1] eqn:Hpass;
    [discriminate|].
  intros Hloop. destruct (IH _ _ Hloop) as (Hdone & n & Hn & Hsteps).
  split; [assumption|]. exists (S n). split; [lia|].
  eapply nsteps_l; [|exact Hsteps].
  now apply expand_pass_iteration.
Qed.




(** *** Graphs that agree *)

Lemma same_decl_refl (d : declaration) : same_decl d d.
Proof. now repeat split. Qed.

Lemma same_decl_trans (d1 d2 d3 : declaration) :
  same_decl d1 d2 -> same_decl d2 d3 -> same_decl d1 d3.
Proof.
  intros (N1 & R1 & M1 & F1) (N2 & R2 & M2 & F2).
  repeat split; try congruence.
  intros Hm. rewrite <- (F1 Hm). apply F2. congruence.
Qed.

Lemma agree_refl (g : graph) : agree g g.
Proof.
  split; [reflexivity|]. apply Forall_Forall2_diag, Forall_forall.
  intros d _. apply same_decl_refl.
Qed.

Lemma agree_trans (g1 g2 g3 : graph) :
  agree g1 g2 -> agree g2 g3 -> agree g1 g3.
Proof.
  intros [E1 F1] [E2 F2]. split; [congruence|].
  eapply Forall2_trans; [|exact F1|exact F2].
  apply same_decl_trans.
Qed.

Lemma agree_find (g g' : graph) (c : canonical) :
  agree g g' -> option_Forall2 same_decl (find_decl g c) (find_decl g' c).
Proof.
  intros [_ HF]. unfold find_decl.
  induction HF as [|d d' ds ds' Hd _ IH]; simpl; [constructor|].
  destruct Hd as (Hn & Hrest). rewrite Hn.
  destruct (bool_decide (d_name d = c)); [|exact IH].
  constructor. now split.
Qed.

Lemma agree_find_macro (g g' : graph) (dm : declaration) :
  agree g g' -> macro_marker dm = true ->
  find_decl g (d_name dm) = Some dm -> find_decl g' (d_name dm) = Some dm.
Proof.
  intros Ha Hm Hf.
  destruct (agree_find g g' (d_name dm) Ha) as [d d' (_ & _ & _ & Hfix)|];
    [|discriminate].
  injection Hf as ->. now rewrite (Hfix Hm).
Qed.

Lemma agree_callee_macro (g g' : graph) (refs : gmap string canonical)
  (callee : expr) :
  agree g g' -> callee_macro g' refs callee = callee_macro g refs callee.
Proof.
  intros Ha. destruct callee as [f| | | | | |]; simpl; try reflexivity.
  destruct (refs !! f) as [c|]; [|reflexivity].
  destruct (agree_find g g' c Ha) as [d d' (Hn & Hr & Hm & Hfix)|];
    [|reflexivity].
  rewrite Hm. destruct (macro_marker d) eqn:Hmd; [|reflexivity].
  now rewrite (Hfix eq_refl).
Qed.

#[local] Arguments callee_macro : simpl never.

Lemma existsb_Forall_ext {A} (f h : A -> bool) (l : list A) :
  Forall (fun a => f a = h a) l -> existsb f l = existsb h l.
Proof. induction 1 as [|a l Ha _ IH]; simpl; [reflexivity | now rewrite Ha, IH]. Qed.

Lemma forallb_Forall_ext {A} (f h : A -> bool) (l : list A) :
  Forall (fun a => f a = h a) l -> forallb f l = forallb h l.
Proof. induction 1 as [|a l Ha _ IH]; simpl; [reflexivity | now rewrite Ha, IH]. Qed.

Lemma agree_has_macro_call (g g' : graph) :
  agree g g' ->
  forall e refs, has_macro_call g' refs e = has_macro_call g refs e.
Proof.
  intros Ha. induction e as [| | |callee args IHc IHa|params body IH
                             |op lhs rhs IHl IHr|e IH] using expr_ind';
    intros refs; simpl; try reflexivity.
  - rewrite (agree_callee_macro g g' refs callee Ha), IHc.
    rewrite (existsb_Forall_ext (has_macro_call g' refs)
               (has_macro_call g refs)); [reflexivity|].
    eapply Forall_impl; [exact IHa|]. intros a Hrefs. apply Hrefs.
  - apply IH.
  - now rewrite IHl, IHr.
  - apply IH.
Qed.

Lemma agree_only_calls (g g' : graph) (c : canonical) (m : string)
  (n : nat) :
  agree g g' ->
  forall e refs, only_calls g' c m n refs e = only_calls g c m n refs e.
Proof.
  intros Ha. induction e as [| | |callee args IHc IHa|params body IH
                             |op lhs rhs IHl IHr|e IH] using expr_ind';
    intros refs; simpl; try reflexivity.
  - rewrite (agree_callee_macro g g' refs callee Ha), IHc.
    rewrite (forallb_Forall_ext (only_calls g' c m n refs)
               (only_calls g c m n refs)); [reflexivity|].
    eapply Forall_impl; [exact IHa|]. intros a Hrefs. apply Hrefs.
  - apply IH.
  - now rewrite IHl, IHr.
  - apply IH.
Qed.

(** *** A macro that expands to a call of itself *)

Section Self.

Variable parse_expression : string -> error + expr.
Variable run_macro : expr -> list closure -> error + closure.
Variable dm : declaration.
Variable m : string.
Variable n : nat.

Hypothesis dm_macro : macro_marker dm = true.
Hypothesis dm_self :
  self_expanding parse_expression run_macro (macro_fn dm) m n.

#[local] Abbreviation only := (fun g => only_calls g (d_name dm) m n).
#[local] Abbreviation expand_in := (expand_expr parse_expression run_macro).

(** What the scan looks for in one declaration. *)
#[local] Abbreviation site := (fun g d =>
  negb (macro_marker d) && has_macro_call g (d_refs d) (d_ast d)).
#[local] Abbreviation tame := (fun g => Bundler.tame g (d_name dm) m n).
#[local] Abbreviation stuck := (Bundler.stuck dm m n).

Section Pass.

Variable g : graph.
Hypothesis dm_found : find_decl g (d_name dm) = Some dm.

Lemma expand_list_self (D refs : gmap string canonical)
  (args : list expr) :
  Forall (fun e => forall refs acc,
            refs ⊆ D -> acc ⊆ D -> only g refs e = true ->
            exists e' acc',
              expand_in g refs e acc = inr (e', acc')
              /\ acc' ⊆ D
              /\ only g refs e' = true
              /\ has_macro_call g refs e' = has_macro_call g refs e
              /\ callee_macro g refs e' = callee_macro g refs e) args ->
  refs ⊆ D ->
  forall acc, acc ⊆ D -> forallb (only g refs) args = true ->
    exists args' acc',
      expand_list (expand_in g refs) args acc = inr (args', acc')
      /\ acc' ⊆ D
      /\ forallb (only g refs) args' = true
      /\ existsb (has_macro_call g refs) args'
         = existsb (has_macro_call g refs) args.
Proof.
  intros HF Hrefs. induction HF as [|a args Ha _ IH]; intros acc Hacc Honly.
  - now exists [], acc.
  - simpl in Honly. apply andb_true_iff in Honly as [Ho1 Ho2].
    rewrite expand_list_cons.
    destruct (Ha refs acc Hrefs Hacc Ho1)
      as (a' & acc1 & -> & Hacc1 & Ho1' & Hc1 & _).
    destruct (IH acc1 Hacc1 Ho2) as (args' & acc2 & -> & Hacc2 & Ho2' & Hc2).
    exists (a' :: args'), acc2. split; [reflexivity|]. split; [assumption|].
    simpl. now rewrite Ho1', Ho2', Hc1, Hc2.
Qed.

(** Where every call-site is a call of the macro, the expansion succeeds,
    every call-site is one again, and no reference is new. *)
Lemma expand_expr_self (D : gmap string canonical) :
  forall e refs acc,
    refs ⊆ D -> acc ⊆ D -> only g refs e = true ->
    exists e' acc',
      expand_in g refs e acc = inr (e', acc')
      /\ acc' ⊆ D
      /\ only g refs e' = true
      /\ has_macro_call g refs e' = has_macro_call g refs e
      /\ callee_macro g refs e' = callee_macro g refs e.
Proof.
  induction e as [x|k|s|callee args IHc IHa|params body IH
                  |op lhs rhs IHl IHr|e IH] using expr_ind';
    intros refs acc Hrefs Hacc Honly; simpl in *;
    try (now eexists _, _).
  - destruct (callee_macro g refs callee) as [dm'|] eqn:Hcm.
    + apply andb_true_iff in Honly as [Honly Hlen].
      apply andb_true_iff in Honly as [Hcallee Hname].
      apply Nat.eqb_eq in Hlen. apply bool_decide_eq_true in Hname.
      destruct (callee_macro_Some _ _ _ _ Hcm) as (Hfd & _ & f & -> & Hf).
      apply String.eqb_eq in Hcallee as ->.
      assert (dm' = dm) as -> by (rewrite Hname in Hfd; congruence).
      destruct (dm_self refs args Hlen)
        as (r & args' & -> & -> & Hlen' & Hr).
      eexists _, _. split; [reflexivity|]. split; [|split; [|split]].
      * apply map_union_least; [assumption|].
        etrans; [|exact Hrefs]. apply map_subseteq_spec. intros x c Hx.
        destruct (Hr x c Hx) as (a & _ & Ha). simpl in Ha.
        now apply map_lookup_filter_Some in Ha as [Ha _].
      * simpl. rewrite Hcm, String.eqb_refl. simpl.
        apply andb_true_iff. split;
          [now apply bool_decide_eq_true | now apply Nat.eqb_eq].
      * simpl. now rewrite Hcm.
      * reflexivity.
    + apply andb_true_iff in Honly as [Ho1 Ho2].
      destruct (IHc refs acc Hrefs Hacc Ho1)
        as (callee' & acc1 & -> & Hacc1 & Ho1' & Hc1 & Hcm').
      destruct (expand_list_self D refs args IHa Hrefs acc1 Hacc1 Ho2)
        as (args' & acc2 & -> & Hacc2 & Ho2' & Hc2).
      eexists _, _. split; [reflexivity|]. split; [assumption|].
      simpl. rewrite Hcm', Hcm. now rewrite Ho1', Ho2', Hc1, Hc2.
  - assert (Hsub : hide params refs ⊆ D)
      by (etrans; [apply map_filter_subseteq | exact Hrefs]).
    destruct (IH (hide params refs) acc Hsub Hacc Honly)
      as (body' & acc1 & -> & Hacc1 & Ho & Hc & _).
    eexists _, _. split; [reflexivity|]. now repeat split.
  - apply andb_true_iff in Honly as [Ho1 Ho2].
    destruct (IHl refs acc Hrefs Hacc Ho1)
      as (lhs' & acc1 & -> & Hacc1 & Ho1' & Hc1 & _).
    destruct (IHr refs acc1 Hrefs Hacc1 Ho2)
      as (rhs' & acc2 & -> & Hacc2 & Ho2' & Hc2 & _).
    eexists _, _. split; [reflexivity|]. split; [assumption|].
    simpl. now rewrite Ho1', Ho2', Hc1, Hc2.
  - destruct (IH refs acc Hrefs Hacc Honly)
      as (e' & acc1 & -> & Hacc1 & Ho & Hc & _).
    eexists _, _. split; [reflexivity|]. now repeat split.
Qed.

Lemma expand_decl_self (d : declaration) :
  tame g d ->
  exists d',
    expand_decl parse_expression run_macro g d = inr d'
    /\ same_decl d d' /\ tame g d' /\ site g d' = site g d.
Proof.
  intros Htame. unfold expand_decl.
  destruct (macro_marker d) eqn:Hm.
  { exists d. split; [reflexivity|]. split; [apply same_decl_refl|].
    split; [exact Htame | now rewrite Hm]. }
  destruct (expand_expr_self (d_refs d) (d_ast d) (d_refs d) ∅)
    as (ast' & returned & -> & Hsub & Honly & Hcall & _);
    [reflexivity | apply map_empty_subseteq | now apply Htame |].
  eexists. split; [reflexivity|].
  rewrite (map_union_absorb _ _ Hsub). unfold same_decl, Bundler.tame.
  simpl.
  rewrite Hm, Hcall. repeat split; congruence.
Qed.

Lemma expand_decls_self (ds : list declaration) :
  Forall (tame g) ds ->
  exists new,
    traverse (expand_decl parse_expression run_macro g) ds = inr new
    /\ Forall2 same_decl ds new
    /\ Forall (tame g) new
    /\ existsb (site g) new = existsb (site g) ds.
Proof.
  induction 1 as [|d ds Hd _ IH]; [now exists []|].
  destruct (expand_decl_self d Hd) as (d' & Ed & Hsame & Htame & Hsite).
  destruct IH as (new & Enew & HF & Hall & Hex).
  exists (d' :: new). rewrite traverse_cons, Ed, Enew.
  split; [reflexivity|]. split; [now constructor|].
  split; [now constructor|]. simpl. now rewrite Hsite, Hex.
Qed.

End Pass.

Lemma expand_pass_self (g : graph) :
  stuck g ->
  exists g',
    expand_pass parse_expression run_macro g = inr g' /\ stuck g'.
Proof.
  intros (Hfd & Htame & Hscan).
  destruct (expand_decls_self g Hfd (decls g) Htame)
    as (new & Enew & HF & Hall & Hex).
  unfold expand_pass. rewrite Enew. eexists. split; [reflexivity|].
  set (g' := {| decls := new; entry := entry g |}).
  assert (Ha : agree g g') by (split; [reflexivity | exact HF]).
  split; [now apply (agree_find_macro g g')|]. split.
  - simpl. eapply Forall_impl; [exact Hall|].
    intros d Hd Hm. rewrite (agree_only_calls g g' _ _ _ Ha). now apply Hd.
  - unfold graph_has_macro_call in *. simpl. rewrite <- Hscan, <- Hex.
    apply existsb_Forall_ext, Forall_forall. intros d _.
    now rewrite (agree_has_macro_call g g' Ha).
Qed.

Lemma loop_never_done (cap : nat) :
  forall g, stuck g ->
    expand_loop parse_expression run_macro cap g = inl MacroRecursion.
Proof.
  induction cap as [|cap IH]; intros g Hstuck; simpl;
    destruct Hstuck as (Hfd & Htame & Hscan); rewrite Hscan;
    [reflexivity|].
  destruct (expand_pass_self g) as (g' & -> & Hstuck');
    [now repeat split|].
  now apply IH.
Qed.

Lemma loop_iterates (cap : nat) :
  forall g, stuck g ->
    exists g',
      nsteps (iteration parse_expression run_macro) cap g g' /\ stuck g'.
Proof.
  induction cap as [|cap IH]; intros g Hstuck.
  - exists g. split; [constructor | assumption].
  - destruct (expand_pass_self g Hstuck) as (g1 & Hpass & Hstuck1).
    destruct (IH g1 Hstuck1) as (g' & Hsteps & Hstuck').
    exists g'. split; [|assumption].
    eapply nsteps_l; [|exact Hsteps].
    now apply expand_pass_iteration.
Qed.

End Self.



End GraphFacts.

(** ** The test HTTP server *)

Module TestServerFacts.
Import TestServer.

Section Routes.

Variable httpServerFixtures : string.
Variable path_join : string -> string -> string.
Variable readFile : string -> option string.

#[local] Abbreviation handle := (handler httpServerFixtures path_join readFile).
#[local] Abbreviation chase := (follow httpServerFixtures path_join readFile).

Lemma follow_unfold (n : nat) (p : string) (st : ServerState) :
  chase (S n) p st
  = match location (fst (handle p st)) with
    | Some next => chase n next (snd (handle p st))
    | None => handle p st
    end.
Proof. cbn [follow]. now destruct (handle p st) as [r st']. Qed.

Lemma follow_final (n : nat) (p : string) (st : ServerState) :
  location (fst (handle p st)) = None -> chase n p st = handle p st.
Proof.
  intros H. destruct n; cbn [follow]; destruct (handle p st) as [r st'];
    cbn in H; now rewrite ?H.
Qed.

Lemma ended_redirect (k : nat) (trace : list string) (p : string)
  (st : ServerState) (out : reply * ServerState) :
  ended k trace (count_redirect (log_request p st)) out ->
  ended (S k) (p :: trace) st out.
Proof.
  unfold ended. cbn. intros (H1 & H2 & H3 & H4 & H5).
  repeat split; try assumption; [lia|]. now rewrite H3, <- app_assoc.
Qed.

Lemma follow_target (n : nat) (st : ServerState) :
  ended 0 ["/redirect-target.ts"] st (chase n "/redirect-target.ts" st).
Proof.
  rewrite follow_final; cbn; destruct (readFile _); cbn; try reflexivity;
    unfold ended; cbn; repeat split; lia.
Qed.

Lemma handle_step3 (st : ServerState) :
  handle "/redirect-step-3.ts" st
  = (redirect_to "/redirect-target.ts",
     count_redirect (log_request "/redirect-step-3.ts" st)).
Proof. reflexivity. Qed.

Lemma handle_step2 (st : ServerState) :
  handle "/redirect-step-2.ts" st
  = (redirect_to "/redirect-step-3.ts",
     count_redirect (log_request "/redirect-step-2.ts" st)).
Proof. reflexivity. Qed.

Lemma handle_step1 (st : ServerState) :
  handle "/redirect-step-1.ts" st
  = (redirect_to "/redirect-step-2.ts",
     count_redirect (log_request "/redirect-step-1.ts" st)).
Proof. reflexivity. Qed.

Lemma follow_step3 (n : nat) (st : ServerState) :
  ended 1 ["/redirect-step-3.ts"; "/redirect-target.ts"] st
    (chase (1 + n) "/redirect-step-3.ts" st).
Proof.
  cbn [Nat.add]. rewrite follow_unfold, handle_step3. cbn [fst snd location redirect_to].
  apply ended_redirect, follow_target.
Qed.

Lemma follow_step2 (n : nat) (st : ServerState) :
  ended 2 ["/redirect-step-2.ts"; "/redirect-step-3.ts"; "/redirect-target.ts"]
    st (chase (2 + n) "/redirect-step-2.ts" st).
Proof.
  cbn [Nat.add]. rewrite follow_unfold, handle_step2.
  apply ended_redirect, (follow_step3 n).
Qed.

Lemma follow_step1 (n : nat) (st : ServerState) :
  ended 3 ["/redirect-step-1.ts"; "/redirect-step-2.ts";
           "/redirect-step-3.ts"; "/redirect-target.ts"]
    st (chase (3 + n) "/redirect-step-1.ts" st).
Proof.
  cbn [Nat.add]. rewrite follow_unfold, handle_step1.
  apply ended_redirect, (follow_step2 n).
Qed.

Lemma ended_now (p : string) (st : ServerState) (r : reply) (n : nat) :
  handle p st = (r, log_request p st) -> location r = None ->
  ended 0 [p] st (chase n p st).
Proof.
  intros H L. rewrite follow_final by now rewrite H.
  rewrite H. unfold ended. cbn. repeat split; [exact L | lia].
Qed.

(** X15: whatever the server state and the fixture files, a client that
    starts at any path other than [/infinite-redirect.ts] and follows the
    redirects gets a reply that is no redirect after at most 4 of them;
    the server has then counted exactly the redirects it sent and logged
    exactly the paths that were requested. *)
Theorem redirects_end_within_four (n : nat) (p : string)
  (st : ServerState) :
  p <> "/infinite-redirect.ts" ->
  exists k trace,
    (k <= 4)%nat /\ length trace = S k
    /\ ended k trace st (chase (4 + n) p st).
Proof.
  intros Hp.
  destruct (String.eqb p "/not-found.ts") eqn:E1.
  { exists 0%nat, [p]. split; [lia|]. split; [reflexivity|].
    eapply ended_now; [unfold handler; rewrite E1; reflexivity | reflexivity]. }
  destruct (String.eqb p "/server-error.ts") eqn:E2.
  { exists 0%nat, [p]. split; [lia|]. split; [reflexivity|].
    eapply ended_now; [unfold handler; rewrite E1, E2; reflexivity | reflexivity]. }
  destruct (String.eqb p "/network-fail.ts" && shouldFail (log_request p st)) eqn:E3.
  { exists 0%nat, [p]. split; [lia|]. split; [reflexivity|].
    eapply ended_now; [unfold handler; rewrite E1, E2, E3; reflexivity | reflexivity]. }
  destruct (String.eqb p "/redirect.ts") eqn:E4.
  { apply String.eqb_eq in E4 as ->.
    exists 1%nat, ["/redirect.ts"; "/redirect-target.ts"].
    split; [lia|]. split; [reflexivity|].
    cbn [Nat.add]. rewrite follow_unfold.
    apply ended_redirect, follow_target. }
  destruct (String.eqb p "/redirect-chain.ts") eqn:E5.
  { apply String.eqb_eq in E5 as ->.
    exists 4%nat, ["/redirect-chain.ts"; "/redirect-step-1.ts"; "/redirect-step-2.ts";
           "/redirect-step-3.ts"; "/redirect-target.ts"].
    split; [lia|]. split; [reflexivity|].
    cbn [Nat.add]. rewrite follow_unfold.
    apply ended_redirect, (follow_step1 n). }
  destruct (String.prefix "/redirect-step-" p) eqn:E6.
  { set (stepNum := parseInt (default "1" (match_step p))).
    assert (H : handle p st
                = (if (stepNum <? 3)%N
                   then redirect_to ("/redirect-step-" +:+ pretty (stepNum + 1)%N +:+ ".ts")
                   else redirect_to "/redirect-target.ts",
                   count_redirect (log_request p st))).
    { unfold handler. rewrite E1, E2, E3, E4, E5, E6. reflexivity. }
    cbn [Nat.add]. rewrite follow_unfold, H.
    destruct (stepNum <? 3)%N eqn:Hlt.
    - apply N.ltb_lt in Hlt.
      assert (C : stepNum = 0%N \/ stepNum = 1%N \/ stepNum = 2%N) by lia.
      destruct C as [-> | [-> | ->]].
      + exists 4%nat, [p; "/redirect-step-1.ts"; "/redirect-step-2.ts";
               "/redirect-step-3.ts"; "/redirect-target.ts"].
        split; [lia|]. split; [reflexivity|].
        apply ended_redirect, (follow_step1 n).
      + exists 3%nat, [p; "/redirect-step-2.ts";
               "/redirect-step-3.ts"; "/redirect-target.ts"].
        split; [lia|]. split; [reflexivity|].
        apply ended_redirect, (follow_step2 (S n)).
      + exists 2%nat, [p; "/redirect-step-3.ts"; "/redirect-target.ts"].
        split; [lia|]. split; [reflexivity|].
        apply ended_redirect, (follow_step3 (S (S n))).
    - exists 1%nat, [p; "/redirect-target.ts"].
      split; [lia|]. split; [reflexivity|].
      apply ended_redirect, follow_target. }
  destruct (String.eqb p "/infinite-redirect.ts") eqn:E7.
  { apply String.eqb_eq in E7. contradiction. }
  exists 0%nat, [p]. split; [lia|]. split; [reflexivity|].
  destruct (String.eqb p "/versioned.ts") eqn:E8.
  - eapply ended_now.
    + unfold handler. rewrite E1, E2, E3, E4, E5, E6, E7, E8. reflexivity.
    + destruct (readFile _); reflexivity.
  - eapply ended_now.
    + unfold handler. rewrite E1, E2, E3, E4, E5, E6, E7, E8. reflexivity.
    + destruct (readFile _); reflexivity.
Qed.

(** X16: [/infinite-redirect.ts] never ends: after any number of followed
    redirects the reply is again a redirect to the same path; these
    redirects are logged but not counted in [redirectCount]. *)
Theorem infinite_redirect_never_ends (n : nat) (st : ServerState) :
  location (fst (chase n "/infinite-redirect.ts" st))
  = Some "/infinite-redirect.ts"
  /\ redirectCount (snd (chase n "/infinite-redirect.ts" st))
     = redirectCount st
  /\ length (requestLog (snd (chase n "/infinite-redirect.ts" st)))
     = (length (requestLog st) + S n)%nat.
Proof.
  revert st; induction n as [|n IH]; intros st.
  - cbn. rewrite length_app. cbn. repeat split; lia.
  - rewrite follow_unfold.
    change (handle "/infinite-redirect.ts" st)
      with (redirect_to "/infinite-redirect.ts",
            log_request "/infinite-redirect.ts" st).
    cbn [fst snd location redirect_to Nat.leb Nat.ltb andb header List.find
         String.eqb Ascii.eqb Bool.eqb fmap option_fmap option_map].
    destruct (IH (log_request "/infinite-redirect.ts" st)) as (H1 & H2 & H3).
    cbn in *. rewrite length_app in H3. cbn in H3.
    repeat split; try assumption. lia.
Qed.

End Routes.

(** The chain of the redirect test: four redirects, then the target. *)
Lemma redirects_end_within_four_witness :
  exists k trace,
    (k <= 4)%nat /\ length trace = S k
    /\ ended k trace Fixtures.fresh_server
         (follow "/fixtures" Fixtures.plain_join Fixtures.no_file 4
            "/redirect-chain.ts" Fixtures.fresh_server).
Proof.
  exact (redirects_end_within_four "/fixtures" Fixtures.plain_join
           Fixtures.no_file 0 "/redirect-chain.ts" Fixtures.fresh_server
           ltac:(discriminate)).
Defined.

End TestServerFacts.

(** ** The watcher *)

Module WatcherFacts.
Import Watcher.

Section WithHost.

Context {host : Type}.
Variable watchStart : string -> bool -> host -> WatchResult * host.
Variable watchPoll : N -> host -> string * host.
Variable watchStop : N -> host -> host.
Variable JSON_parse : string -> option (list WatchEvent).

#[local] Abbreviation go := (run host watchPoll watchStop JSON_parse).
#[local] Abbreviation res := (resume host watchPoll JSON_parse).
#[local] Abbreviation halt := (stop host watchStop).
#[local] Abbreviation top := (loop_top host watchPoll JSON_parse).
#[local] Abbreviation tidy := (Watcher.tidy host).

Lemma for_of_keeps (events : list WatchEvent) (w : watcher host) :
  let w' := snd (for_of host events w) in
  watcherId host w' = watcherId host w /\ stopped host w' = stopped host w
  /\ calls host w' = calls host w /\ world host w' = world host w.
Proof. destruct events; cbn; auto. Qed.

Lemma resume_tidy (prefix : list host_call) (w : watcher host) :
  tidy prefix w -> tidy prefix (snd (res w)).
Proof.
  intros [n Hn].
  assert (Hfor : forall evs, tidy prefix (snd (for_of host evs w))).
  { intros evs. destruct (for_of_keeps evs w) as (I & S & C & _).
    exists n. unfold stop_calls. now rewrite I, S, C. }
  assert (Htop : tidy prefix (snd (top w))).
  { unfold loop_top. destruct (stopped host w) eqn:Hs.
    - exists n. unfold stop_calls in *. cbn. now rewrite Hs in *.
    - destruct (watchPoll _ _) as [json h].
      assert (T : forall p,
        tidy prefix (at_position host p
          {| watcherId := watcherId host w; stopped := false;
             pos := pos host w; world := h;
             calls := (calls host w ++ [WatchPoll (watcherId host w)])%list |})).
      { intros p. exists (S n). unfold stop_calls in *. cbn [at_position calls stopped watcherId].
        rewrite Hn, Hs, !app_nil_r, <- app_assoc. f_equal.
        cbn [replicate]. now rewrite replicate_cons_app. }
      cbv zeta. destruct (String.eqb json "null"); [apply T|].
      destruct (JSON_parse json) as [[|e evs]|]; apply T. }
  unfold resume. destruct (pos host w); auto.
  all: now exists n.
Qed.

Lemma stop_tidy (prefix : list host_call) (w : watcher host) :
  tidy prefix w -> tidy prefix (halt w) /\ stopped host (halt w) = true.
Proof.
  intros [n Hn]. unfold stop. destruct (stopped host w) eqn:Hs.
  - split; [now exists n | exact Hs].
  - split; [|reflexivity]. exists n. unfold stop_calls in *. cbn.
    rewrite Hs in Hn. rewrite Hn, app_nil_r. now rewrite <- app_assoc.
Qed.

Lemma resume_stopped (w : watcher host) :
  stopped host (snd (res w)) = stopped host w
  /\ watcherId host (snd (res w)) = watcherId host w.
Proof.
  unfold resume, loop_top.
  destruct (pos host w) as [|rest| | |]; cbn; auto.
  - destruct (stopped host w) eqn:Hs; cbn; auto.
    destruct (watchPoll _ _) as [json h].
    destruct (String.eqb json "null"); cbn; auto.
    destruct (JSON_parse json) as [[|e evs]|]; cbn; auto.
  - destruct rest; cbn; auto.
  - destruct (stopped host w) eqn:Hs; cbn; auto.
    destruct (watchPoll _ _) as [json h].
    destruct (String.eqb json "null"); cbn; auto.
    destruct (JSON_parse json) as [[|e evs]|]; cbn; auto.
Qed.

Lemma stop_id (w : watcher host) : watcherId host (halt w) = watcherId host w.
Proof. unfold stop. now destruct (stopped host w). Qed.

Lemma run_tidy (prefix : list host_call) (acts : list action) :
  forall w,
    tidy prefix w ->
    tidy prefix (snd (go acts w))
    /\ watcherId host (snd (go acts w)) = watcherId host w
    /\ stopped host (snd (go acts w))
       = stopped host w || stop_requested acts.
Proof.
  induction acts as [|[|] acts IH]; intros w T.
  - cbn. rewrite orb_false_r. auto.
  - cbn [run]. destruct (res w) as [ev w'] eqn:R.
    pose proof (resume_tidy prefix w T) as T'.
    destruct (resume_stopped w) as [S' I'].
    rewrite R in T', S', I'. cbn in T', S', I'.
    destruct (IH w' T') as (A & B & C).
    destruct (go acts w') as [evs w'']. cbn in *.
    split; [exact A|]. split; [congruence|].
    now rewrite C, S'.
  - cbn [run]. destruct (stop_tidy prefix w T) as [T' S'].
    destruct (IH (halt w) T') as (A & B & C).
    split; [exact A|]. split; [now rewrite B, stop_id|].
    rewrite C, S'. cbn. now rewrite orb_true_r.
Qed.
(** X17: whatever is done with a watcher, in whatever order, the host
    sees [watchStart] once, then only polls of the id it returned, then
    one [watchStop] of that id if [stop()] was ever called and none
    otherwise: [watchStop] is never called twice and nothing is polled
    after it. *)
Theorem watcher_host_calls (path : string) (recursive : bool) (h : host)
  (w : watcher host) (acts : list action) :
  createWatcher host watchStart path recursive h = inr w ->
  exists polls : nat,
    calls host (snd (go acts w))
    = (WatchStart path recursive
         :: replicate polls (WatchPoll (watcherId host w))
         ++ if stop_requested acts then [WatchStop (watcherId host w)]
            else [])%list.
Proof.
  unfold createWatcher.
  destruct (watchStart path recursive h) as [[id|e] h']; [|discriminate].
  intros [= <-].
  set (w := {| watcherId := id; stopped := false; pos := Start;
               world := h'; calls := [WatchStart path recursive] |}).
  assert (T : tidy [WatchStart path recursive] w) by now exists 0%nat.
  destruct (run_tidy [WatchStart path recursive] acts w T)
    as ([n Hn] & Hid & Hst).
  exists n. rewrite Hn. unfold stop_calls. rewrite Hid, Hst. reflexivity.
Qed.

(** X18: once [stop()] has been called, the events of the batch in hand
    are still yielded, one at each resumption; two resumptions later the
    generator has returned, and the host was not called again. *)
Theorem stopped_watcher_drains (rest : list WatchEvent) :
  forall w : watcher host,
    stopped host w = true ->
    pos host w = AtYield rest ->
    go (replicate (length rest + 2) Resume) w
    = (rest, at_position host Finished w).
Proof.
  induction rest as [|event rest IH]; intros w Hs Hp.
  - cbn [length Nat.add replicate run]. unfold resume at 1. rewrite Hp.
    cbn [for_of]. unfold resume, loop_top. cbn [at_position pos stopped].
    now rewrite Hs.
  - cbn [length Nat.add replicate run]. unfold resume at 1. rewrite Hp.
    cbn [for_of].
    rewrite (IH (at_position host (AtYield rest) w) Hs eq_refl).
    reflexivity.
Qed.

End WithHost.

(** A watcher of [./src] polled once, stopped, and resumed again. *)
Lemma watcher_host_calls_witness :
  exists polls : nat,
    calls _
      (snd (run _ Fixtures.queue_poll Fixtures.queue_stop
              Fixtures.two_events [Resume; Stop; Resume; Resume; Resume]
              {| watcherId := 7; stopped := false; pos := Start;
                 world := ["first"; "second"];
                 calls := [WatchStart "./src" true] |}))
    = (WatchStart "./src" true :: replicate polls (WatchPoll 7)
         ++ [WatchStop 7])%list.
Proof.
  exact (watcher_host_calls Fixtures.queue_start Fixtures.queue_poll
           Fixtures.queue_stop Fixtures.two_events "./src" true
           ["first"; "second"] _ [Resume; Stop; Resume; Resume; Resume]
           eq_refl).
Defined.

(** The same watcher, stopped after the first event of a batch of two. *)
Lemma stopped_watcher_drains_witness :
  run _ Fixtures.queue_poll Fixtures.queue_stop Fixtures.two_events
    [Resume; Resume; Resume]
    {| watcherId := 7; stopped := true;
       pos := AtYield [ {| kind := "modify"; path := "first" |} ];
       world := []; calls := [WatchStart "./src" true; WatchPoll 7;
                              WatchStop 7] |}
  = ([ {| kind := "modify"; path := "first" |} ],
     {| watcherId := 7; stopped := true; pos := Finished;
        world := []; calls := [WatchStart "./src" true; WatchPoll 7;
                               WatchStop 7] |}).
Proof.
  exact (stopped_watcher_drains Fixtures.queue_poll Fixtures.queue_stop
           Fixtures.two_events [ {| kind := "modify"; path := "first" |} ]
           {| watcherId := 7; stopped := true;
              pos := AtYield [ {| kind := "modify"; path := "first" |} ];
              world := []; calls := [WatchStart "./src" true; WatchPoll 7;
                                     WatchStop 7] |}
           eq_refl eq_refl).
Defined.

End WatcherFacts.
